(** * Mython interpreter: lexer, value runtime and tree-walking evaluator

    A shallow embedding of [lexer.cpp], [runtime.cpp] and [statement.cpp],
    and the properties of the specification that are settled on it.

    Definitions:
    - [while_]: the loops of the source;
    - [Module parse]: the tokens, a model of [std::istream] and the lexer
      ([Lexer::ReadInput] and its helpers);
    - [Module runtime]: object handles, classes, the instances in memory,
      the AST, the runtime functions and the evaluator [Execute];
    - [Module runtime_spec]: the vocabulary of the properties;
    - [Module samples]: a sample program;
    - [Module lexer]: token equality, the cursor of the lexer
      ([CurrentToken], [NextToken]) and the vocabulary of its properties;
    - [Module runtime_more_spec]: further vocabulary for the runtime.

    Properties:
    - [Module lexer_facts]: the loops of the lexer stop; the indentation
      tokens balance; how a token sequence ends;
    - [Module runtime_basics], [Module agree_facts],
      [Module rethrow_facts], [Module preserve_facts]: unfolding lemmas,
      and three ways of reasoning on every node at once (results that
      agree, exceptions that pass through, properties of the world that
      are kept);
    - [Module runtime_facts]: comparisons, logical operators, cast errors,
      [Return] and [MethodBody], [NewInstance], the field [self];
    - [Module lexer_more]: where [Eof], [Indent] and [Dedent] can stand,
      the cursor, indentation levels, strings, comments and leading lines;
    - [Module runtime_more]: method lookup, comparisons, what every
      execution keeps, variables and fields, [Stringify], [Print],
      [Compound] and the scope of a call. *)

From stdpp Require Import gmap strings list fin_maps pretty.
From Stdlib Require Import ZArith Lia Ascii.
From Stdlib Require Strings.String.

Local Open Scope string_scope.
Local Open Scope list_scope.
Local Open Scope Z_scope.

(** ** Loops

    A C++ [while] loop is run by [while_]: the body says whether the loop
    goes on ([Continue]), stops ([Break]) or throws ([Throw]). The counter
    only makes the recursion structural; [while_fuel] below shows that it
    is never exhausted when it starts above a measure that every
    [Continue] decreases. *)

Inductive loop_ctl (S : Type) : Type :=
| Continue (s : S)
| Break (s : S)
| Throw (msg : string).
Arguments Continue {S} s.
Arguments Break {S} s.
Arguments Throw {S} msg.

Inductive loop_end (S : Type) : Type :=
| Done (s : S)
| Thrown (msg : string).
Arguments Done {S} s.
Arguments Thrown {S} msg.

Fixpoint while_ {S : Type} (n : nat) (body : S -> loop_ctl S) (s : S) : loop_end S :=
  match n with
  | O => Done s
  | Datatypes.S n' =>
      match body s with
      | Continue s' => while_ n' body s'
      | Break s' => Done s'
      | Throw msg => Thrown msg
      end
  end.

Module parse.

(** *** Tokens ([namespace token_type]) *)

Module token_type.
Inductive Token : Type :=
| Number (value : Z)
| Id (value : string)
| Char (value : ascii)
| String (value : string)
| Class | Return | If | Else | Def | Newline | Print | Indent | Dedent
| And | Or | Not | Eq | NotEq | LessOrEq | GreaterOrEq
| None | True | False | Eof.
End token_type.
Abbreviation Token := token_type.Token.

Definition is_Newline (t : Token) : bool :=
  match t with token_type.Newline => true | _ => false end.
Definition is_Indent (t : Token) : bool :=
  match t with token_type.Indent => true | _ => false end.
Definition is_Dedent (t : Token) : bool :=
  match t with token_type.Dedent => true | _ => false end.

(** *** Characters *)

Definition nl : ascii := "010"%char.
Definition tab : ascii := "009"%char.
Definition cr : ascii := "013"%char.
Definition space : ascii := " "%char.

(** [static_cast<char>(EOF)]: what [c = input.get()] stores at end of input. *)
Definition EOF_char : ascii := "255"%char.

Definition in_range (lo hi c : ascii) : bool :=
  ((N_of_ascii lo <=? N_of_ascii c) && (N_of_ascii c <=? N_of_ascii hi))%N.

(** [std::isdigit] and [std::isalpha] in the "C" locale. *)
Definition isdigit (c : ascii) : bool := in_range "0" "9" c.
Definition isalpha (c : ascii) : bool := in_range "a" "z" c || in_range "A" "Z" c.
(** [std::isspace] in the "C" locale (used by [operator>>]). *)
Definition isspace (c : ascii) : bool :=
  in_range tab cr c || (c =? space)%char.

(** *** The input stream

    [std::istream] over a byte sequence: the unread bytes and the two state
    bits the lexer looks at. [good()] is "no bit set", the conversion to
    [bool] is "failbit not set". *)

Record istream : Type := mk_istream {
  buf : list ascii;
  eofbit : bool;
  failbit : bool
}.

Definition good (s : istream) : bool := negb (eofbit s) && negb (failbit s).
Definition to_bool (s : istream) : bool := negb (failbit s).

Definition setstate_fail (s : istream) : istream :=
  mk_istream (buf s) (eofbit s) true.

(** [input.get()]: [Datatypes.None] stands for the value [EOF]. *)
Definition get (s : istream) : option ascii * istream :=
  if good s then
    match buf s with
    | [] => (Datatypes.None, mk_istream [] true true)
    | c :: r => (Some c, mk_istream r false false)
    end
  else (Datatypes.None, setstate_fail s).

(** [input.peek()]. *)
Definition peek (s : istream) : option ascii * istream :=
  if good s then
    match buf s with
    | [] => (Datatypes.None, mk_istream [] true false)
    | c :: _ => (Some c, s)
    end
  else (Datatypes.None, setstate_fail s).

(** [input.putback(c)]: clears eofbit first, then fails on a failed stream. *)
Definition putback (c : ascii) (s : istream) : istream :=
  if failbit s then mk_istream (buf s) false true
  else mk_istream (c :: buf s) false false.

(** [char c = input.get()]. *)
Definition to_char (r : option ascii) : ascii :=
  match r with Some c => c | Datatypes.None => EOF_char end.

(** [input.peek() == c]. *)
Definition peek_is (c : ascii) (r : option ascii) : bool :=
  match r with Some c' => (c' =? c)%char | Datatypes.None => false end.

Definition from_bytes (bytes : list ascii) : istream := mk_istream bytes false false.

(** *** [Lexer::SkipComment] *)

Definition SkipComment_body (input : istream) : loop_ctl istream :=
  if to_bool input then
    let '(r, input) := get input in
    if (to_char r =? nl)%char then Break input else Continue input
  else Break input.

Definition SkipComment (input : istream) : istream :=
  match while_ (2 + length (buf input)) SkipComment_body input with
  | Done input' => input'
  | Thrown _ => input
  end.

(** *** [Lexer::IsNonemptyLine] *)

Definition IsNonemptyLine_body (st : istream * ascii * Z) : loop_ctl (istream * ascii * Z) :=
  let '(input, c, space_count) := st in
  if to_bool input then
    let '(r, input) := get input in
    let c := to_char r in
    if negb (c =? space)%char then Break (input, c, space_count)
    else Continue (input, c, space_count + 1)
  else Break st.

Definition IsNonemptyLine (input : istream) : Z * istream :=
  match while_ (2 + length (buf input)) IsNonemptyLine_body (input, EOF_char, 0) with
  | Done (input, c, space_count) =>
      if negb (to_bool input) then (0, input)
      else if (c =? nl)%char then (0, input)
      else if (c =? "#")%char then (0, SkipComment input)
      else (space_count, putback c input)
  | Thrown _ => (0, input)
  end.

(** *** [Lexer::AdjustIndentCount]

    [indent_count] and [space_count] are C++ [int]s; they are counted in
    [Z], which is exact as long as the input has fewer than 2^31 bytes. *)

(** [n] turns of the loops that do [--indent_count] and append a [Dedent]:
    [while (diff)] of [AdjustIndentCount], which runs [-diff] times, and
    [while (indent_count)] at the end of [ReadInput]. *)
Fixpoint emit_dedents (n : nat) (indent_count : Z) (tokens : list Token) : Z * list Token :=
  match n with
  | O => (indent_count, tokens)
  | S n' => emit_dedents n' (indent_count - 1) (tokens ++ [token_type.Dedent])
  end.

Definition AdjustIndentCount (tokens : list Token) (indent_count space_count : Z)
  : loop_end (Z * list Token) :=
  if negb (Z.rem space_count 2 =? 0) then Thrown "Odd space count in indent"
  else
    let diff := Z.quot space_count 2 - indent_count in
    if diff >? 1 then Thrown "Trying to make more indent than needs"
    else if diff =? 1 then Done (indent_count + 1, tokens ++ [token_type.Indent])
    else if diff <? 0 then
      let '(indent_count, tokens) := emit_dedents (Z.to_nat (- diff)) indent_count tokens in
      if indent_count <? 0 then Thrown "indent_count < 0"
      else Done (indent_count, tokens)
    else Done (indent_count, tokens).

(** *** [Lexer::LoadNumber] *)

Definition INT_MAX : Z := 2147483647.
Definition INT_MIN : Z := -2147483648.

Definition digit_value (c : ascii) : Z := Z.of_N (N_of_ascii c) - 48.

(** The value of the leading digit run of [s], and whether there is one. *)
Fixpoint digits_value (s : string) (acc : Z) (seen : bool) : Z * bool :=
  match s with
  | String.String c s' =>
      if isdigit c then digits_value s' (10 * acc + digit_value c) true
      else (acc, seen)
  | String.EmptyString => (acc, seen)
  end.

(** [std::stoi] on an unsigned digit string: [Datatypes.None] is a thrown
    [std::invalid_argument] or [std::out_of_range]. *)
Definition stoi (s : string) : option Z :=
  let '(v, seen) := digits_value s 0 false in
  if seen && (v <=? INT_MAX) then Some v else Datatypes.None.

Definition push_back (s : string) (c : ascii) : string :=
  s +:+ String.String c String.EmptyString.

(** The lambda [read_char]. *)
Definition read_char (st : istream * string) : loop_end (istream * string) :=
  let '(input, parsed_num) := st in
  let '(r, input) := get input in
  let parsed_num := push_back parsed_num (to_char r) in
  if negb (to_bool input) then Thrown "Failed to read number from stream"
  else Done (input, parsed_num).

(** [std::isdigit(input.peek())]: false on [EOF]. *)
Definition isdigit_int (r : option ascii) : bool :=
  match r with Some c => isdigit c | Datatypes.None => false end.

Definition read_digits_body (st : istream * string) : loop_ctl (istream * string) :=
  let '(input, parsed_num) := st in
  let '(r, input) := peek input in
  if isdigit_int r then
    match read_char (input, parsed_num) with
    | Done st' => Continue st'
    | Thrown msg => Throw msg
    end
  else Break (input, parsed_num).

(** The lambda [read_digits]. *)
Definition read_digits (st : istream * string) : loop_end (istream * string) :=
  let '(input, parsed_num) := st in
  let '(r, input) := peek input in
  if negb (isdigit_int r) then Thrown "A digit is expected"
  else while_ (2 + length (buf input)) read_digits_body (input, parsed_num).

Definition LoadNumber (input : istream) (tokens : list Token)
  : loop_end (istream * list Token) :=
  let '(r, input) := peek input in
  let digits :=
    if peek_is "0" r then read_char (input, "") else read_digits (input, "") in
  match digits with
  | Thrown msg => Thrown msg
  | Done (input, parsed_num) =>
      match stoi parsed_num with
      | Some v => Done (input, tokens ++ [token_type.Number v])
      | Datatypes.None => Thrown "Unknown error while stoi(parsed_num)"
      end
  end.

(** *** [Lexer::LoadString] *)

Definition dquote : ascii := "034"%char.
Definition squote : ascii := "039"%char.
Definition backslash : ascii := "092"%char.

Fixpoint skip_ws (l : list ascii) : list ascii :=
  match l with
  | c :: r => if isspace c then skip_ws r else l
  | [] => []
  end.

(** [input >> quote]: formatted extraction of one character, which skips
    leading white space ([skipws] is set by default). *)
Definition extract_char (s : istream) : option ascii * istream :=
  if good s then
    match skip_ws (buf s) with
    | [] => (Datatypes.None, mk_istream [] true true)
    | c :: r => (Some c, mk_istream r false false)
    end
  else (Datatypes.None, setstate_fail s).

(** The loop over [std::istreambuf_iterator<char>]: it reads the unread
    bytes directly and leaves the state bits of the stream alone. *)
Definition LoadString_body (quote : ascii) (st : list ascii * string)
  : loop_ctl (list ascii * string) :=
  let '(it, s) := st in
  match it with
  | [] => Throw "Eof after opened double quote"
  | ch :: it1 =>
      if (ch =? quote)%char then Break (it1, s)
      else if (ch =? backslash)%char then
        match it1 with
        | [] => Throw "Eof after opened double quote"
        | escaped_char :: it2 =>
            if (escaped_char =? "n")%char then Continue (it2, push_back s nl)
            else if (escaped_char =? "t")%char then Continue (it2, push_back s tab)
            else if (escaped_char =? "r")%char then Continue (it2, push_back s cr)
            else if (escaped_char =? dquote)%char then Continue (it2, push_back s dquote)
            else if (escaped_char =? squote)%char then Continue (it2, push_back s squote)
            else if (escaped_char =? backslash)%char then Continue (it2, push_back s backslash)
            else Throw (push_back (push_back "Unrecognized escape sequence " backslash)
                          escaped_char)
        end
      else Continue (it1, push_back s ch)
  end.

Definition LoadString (input : istream) (tokens : list Token)
  : loop_end (istream * list Token) :=
  let '(r, input) := extract_char input in
  let quote := to_char r in
  match while_ (1 + length (buf input)) (LoadString_body quote) (buf input, "") with
  | Thrown msg => Thrown msg
  | Done (it, s) =>
      Done (mk_istream it (eofbit input) (failbit input), tokens ++ [token_type.String s])
  end.

(** *** [Lexer::LoadKeyWordOrId] *)

(** Modelled from the spec: the table [key_words_] and the enumeration
    [KeyWords] are declared in [lexer.h], which is not part of the sources
    under study; the twelve reserved words are those the specification
    lists, each mapped to the token the [switch] emits for it. *)
Definition key_word (s : string) : option Token :=
  if String.eqb s "class" then Some token_type.Class
  else if String.eqb s "return" then Some token_type.Return
  else if String.eqb s "if" then Some token_type.If
  else if String.eqb s "else" then Some token_type.Else
  else if String.eqb s "def" then Some token_type.Def
  else if String.eqb s "print" then Some token_type.Print
  else if String.eqb s "and" then Some token_type.And
  else if String.eqb s "or" then Some token_type.Or
  else if String.eqb s "not" then Some token_type.Not
  else if String.eqb s "None" then Some token_type.None
  else if String.eqb s "True" then Some token_type.True
  else if String.eqb s "False" then Some token_type.False
  else Datatypes.None.

Definition LoadKeyWordOrId_body (st : istream * string) : loop_ctl (istream * string) :=
  let '(input, s) := st in
  if to_bool input then
    let '(r, input) := get input in
    let c := to_char r in
    if negb (good input) then Break (input, s)
    else if (c =? space)%char || (c =? nl)%char || (c =? "#")%char then
      Break (putback c input, s)
    else if negb (isalpha c) && negb (isdigit c) && negb (c =? "_")%char then
      Break (putback c input, s)
    else Continue (input, push_back s c)
  else Break (input, s).

Definition LoadKeyWordOrId (input : istream) (tokens : list Token) : istream * list Token :=
  match while_ (2 + length (buf input)) LoadKeyWordOrId_body (input, "") with
  | Done (input, s) =>
      match key_word s with
      | Some t => (input, tokens ++ [t])
      | Datatypes.None => (input, tokens ++ [token_type.Id s])
      end
  | Thrown _ => (input, tokens)
  end.

(** *** [Lexer::ReadInput] *)

(** Modelled from the spec: the constant [operations_] is declared in
    [lexer.h], which is not part of the sources under study; the
    specification gives the single-character punctuation set. *)
Definition operations_ : list ascii :=
  ["+"; "-"; "*"; "/"; "("; ")"; "["; "]"; ":"; ","; "."]%char.

Definition is_operation (c : ascii) : bool := existsb (Ascii.eqb c) operations_.

(** The local variables of [ReadInput], the stream and [tokens_]. *)
Record ReadState : Type := mkRS {
  input : istream;
  tokens_ : list Token;
  is_stream_begin : bool;
  is_line_begin : bool;
  indent_count : Z
}.

Definition is_empty (tokens : list Token) : bool :=
  match tokens with [] => true | _ => false end.

(** [tokens_.back().Is<token_type::Newline>()] on a non-empty vector. *)
Definition back_is_Newline (tokens : list Token) : bool :=
  match last tokens with Some t => is_Newline t | Datatypes.None => false end.

(** An operator that may be followed by [=]: [with_eq] is the token of the
    digraph, [alone] the token, if any, of the single character. *)
Definition digraph (input : istream) (tokens : list Token)
    (with_eq : Token) (alone : option Token) : istream * list Token :=
  let '(r, input) := peek input in
  if peek_is "=" r then
    let '(_, input) := get input in (input, tokens ++ [with_eq])
  else
    match alone with
    | Some t => (input, tokens ++ [t])
    | Datatypes.None => (input, tokens)
    end.

(** One turn of the [while (input)] loop. *)
Definition ReadInput_body (st : ReadState) : loop_ctl ReadState :=
  let '(mkRS input tokens stream_begin line_begin indent) := st in
  if negb (to_bool input) then Break st
  else
    let '(r, input) := get input in
    let c := to_char r in
    if negb (good input) then Break (mkRS input tokens stream_begin line_begin indent)
    else if stream_begin && (c =? space)%char then
      Throw "Space in the begining of istream"
    else if line_begin then
      if (c =? nl)%char then Continue (mkRS input tokens false true indent)
      else if (c =? "#")%char then
        Continue (mkRS (SkipComment input) tokens false true indent)
      else if (c =? space)%char then
        let '(space_count, input) := IsNonemptyLine (putback c input) in
        if space_count =? 0 then Continue (mkRS input tokens false true indent)
        else if is_empty tokens then Throw "Trying to indent before any token appears"
        else
          match AdjustIndentCount tokens indent space_count with
          | Thrown msg => Throw msg
          | Done (indent, tokens) => Continue (mkRS input tokens false false indent)
          end
      else
        match AdjustIndentCount tokens indent 0 with
        | Thrown msg => Throw msg
        | Done (indent, tokens) =>
            Continue (mkRS (putback c input) tokens false false indent)
        end
    else if isdigit c then
      match LoadNumber (putback c input) tokens with
      | Thrown msg => Throw msg
      | Done (input, tokens) => Continue (mkRS input tokens false false indent)
      end
    else if (c =? squote)%char || (c =? dquote)%char then
      match LoadString (putback c input) tokens with
      | Thrown msg => Throw msg
      | Done (input, tokens) => Continue (mkRS input tokens false false indent)
      end
    else if (c =? "_")%char || isalpha c then
      let '(input, tokens) := LoadKeyWordOrId (putback c input) tokens in
      Continue (mkRS input tokens false false indent)
    else if is_operation c then
      Continue (mkRS input (tokens ++ [token_type.Char c]) false false indent)
    else if (c =? "=")%char then
      let '(input, tokens) :=
        digraph input tokens token_type.Eq (Some (token_type.Char c)) in
      Continue (mkRS input tokens false false indent)
    else if (c =? "!")%char then
      let '(input, tokens) := digraph input tokens token_type.NotEq Datatypes.None in
      Continue (mkRS input tokens false false indent)
    else if (c =? "<")%char then
      let '(input, tokens) :=
        digraph input tokens token_type.LessOrEq (Some (token_type.Char c)) in
      Continue (mkRS input tokens false false indent)
    else if (c =? ">")%char then
      let '(input, tokens) :=
        digraph input tokens token_type.GreaterOrEq (Some (token_type.Char c)) in
      Continue (mkRS input tokens false false indent)
    else if (c =? "#")%char then
      let input := SkipComment input in
      let input := if good input then putback nl input else input in
      Continue (mkRS input tokens false false indent)
    else if (c =? nl)%char then
      Continue (mkRS input (tokens ++ [token_type.Newline]) false true indent)
    else if (c =? space)%char then
      Continue (mkRS input tokens false false indent)
    else
      Continue (mkRS input (tokens ++ [token_type.Char c]) false false indent).

(** What [ReadInput] does after the loop. *)
Definition ReadInput_finish (tokens : list Token) (indent_count : Z) : list Token :=
  let tokens :=
    if negb (is_empty tokens) && negb (back_is_Newline tokens)
    then tokens ++ [token_type.Newline] else tokens in
  let tokens :=
    if indent_count >? 0
    then snd (emit_dedents (Z.to_nat indent_count) indent_count tokens)
    else tokens in
  tokens ++ [token_type.Eof].

Definition ReadInput_start (bytes : list ascii) : ReadState :=
  mkRS (from_bytes bytes) [] true true 0.

(** The measure that every turn of the loop decreases. *)
Definition ReadInput_measure (st : ReadState) : nat :=
  (2 * length (buf (input st)) + (if is_line_begin st then 1 else 0))%nat.

(** [Lexer::ReadInput] on a stream holding [bytes], from an empty
    [tokens_]: the tokens of the lexer, or the message of the
    [LexerError] thrown. [ReadInput_loop] is the state in which the loop
    is left. *)
Definition ReadInput_loop (bytes : list ascii) : loop_end ReadState :=
  let st := ReadInput_start bytes in
  while_ (S (ReadInput_measure st)) ReadInput_body st.

Definition ReadInput (bytes : list ascii) : loop_end (list Token) :=
  match ReadInput_loop bytes with
  | Thrown msg => Thrown msg
  | Done st => Done (ReadInput_finish (tokens_ st) (indent_count st))
  end.

Definition lex (source : string) : loop_end (list Token) :=
  ReadInput (String.list_ascii_of_string source).

(** *** Vocabulary of the lexer properties *)

(** The measure that every turn of the loop of [SkipComment] decreases. *)
Definition SkipComment_measure (s : istream) : nat :=
  (length (buf s) + (if to_bool s then 1 else 0))%nat.

Definition count_Indent (tokens : list Token) : Z :=
  Z.of_nat (length (List.filter is_Indent tokens)).
Definition count_Dedent (tokens : list Token) : Z :=
  Z.of_nat (length (List.filter is_Dedent tokens)).

(** Neither [Indent] nor [Dedent]. *)
Definition plain (t : Token) : bool := negb (is_Indent t) && negb (is_Dedent t).

(** The invariant of the loop of [ReadInput]: [indent_count] is the number
    of [Indent] tokens not yet closed by a [Dedent], and is not negative. *)
Definition balanced (tokens : list Token) (indent : Z) : Prop :=
  0 <= indent /\ count_Indent tokens = count_Dedent tokens + indent.

(** *** A sample program *)

Definition newline_str : string := String.String nl String.EmptyString.

(** A two-level program: [a:], an indented [b:], a twice indented [c]. *)
Definition nested_source : string :=
  "a:" +:+ newline_str +:+ "  b:" +:+ newline_str +:+ "    c".

End parse.

(** ** The value runtime and the evaluator ([runtime.cpp], [statement.cpp]) *)

Module runtime.

#[local] Set Warnings "-register-all".

(** *** Handles and objects

    Objects of the classes [runtime::Class] and [runtime::ClassInstance] are
    reached through pointers and references; they are named here by their
    address. [Number], [String] and [Bool] objects are immutable, so a
    handle to one is modelled by its value. *)

Abbreviation ClassPtr := nat.
Abbreviation InstancePtr := nat.

Inductive Object : Type :=
| Number (value : Z)
| String (value : string)
| Bool (value : bool)
| ClassRef (cls : ClassPtr)           (* a [runtime::Class] object *)
| InstanceRef (inst : InstancePtr).   (* a [runtime::ClassInstance] object *)

(** [ObjectHolder]: an empty holder ([ObjectHolder::None()]) is [None]. *)
Abbreviation ObjectHolder := (option Object).

Abbreviation Closure := (gmap string ObjectHolder).

(** [holder.TryAs<T>()]: a null pointer for an empty holder or another type. *)
Definition TryAs_Number (h : ObjectHolder) : option Z :=
  match h with Some (Number v) => Some v | _ => None end.
Definition TryAs_String (h : ObjectHolder) : option string :=
  match h with Some (String v) => Some v | _ => None end.
Definition TryAs_Bool (h : ObjectHolder) : option bool :=
  match h with Some (Bool v) => Some v | _ => None end.
Definition TryAs_Class (h : ObjectHolder) : option ClassPtr :=
  match h with Some (ClassRef c) => Some c | _ => None end.
Definition TryAs_ClassInstance (h : ObjectHolder) : option InstancePtr :=
  match h with Some (InstanceRef p) => Some p | _ => None end.

(** *** The AST ([namespace ast]) *)

(** The six functions a [Comparison] node can hold in [cmp_]. *)
Inductive Comparator : Type :=
| cmp_Equal | cmp_NotEqual | cmp_Less | cmp_Greater | cmp_LessOrEqual | cmp_GreaterOrEqual.

(** The nodes, each with the data members its [Execute] reads. The first
    four are the literal nodes (see [literal_Execute]). The target of a
    [FieldAssignment] is a [VariableValue], given by its dotted names. A
    [NewInstance] node owns a [ClassInstance] member ([cls_inst_]); the
    node carries the address of that member. The [ObjectHolder] of a
    [ClassDefinition] holds a [Class] (its constructor refuses anything
    else); the node carries the address of that class. *)
Inductive Statement : Type :=
| NumericConst (value : Z)
| StringConst (value : string)
| BoolConst (value : bool)
| NoneConst
| VariableValue (dotted_ids : list string)
| Assignment (var_name : string) (value : Statement)
| FieldAssignment (object : list string) (field_name : string) (field_value : Statement)
| Print (args : list Statement)
| MethodCall (object : Statement) (method_name : string) (args : list Statement)
| NewInstance (cls_inst : InstancePtr) (args : list Statement)
| Stringify (arg : Statement)
| Add (lhs rhs : Statement)
| Sub (lhs rhs : Statement)
| Mult (lhs rhs : Statement)
| Div (lhs rhs : Statement)
| Or (lhs rhs : Statement)
| And (lhs rhs : Statement)
| Not (arg : Statement)
| Compound (args : list Statement)
| MethodBody (body : Statement)
| Return (statement : Statement)
| ClassDefinition (cls : ClassPtr)
| IfElse (condition if_body : Statement) (else_body : option Statement)
| Comparison (cmp : Comparator) (lhs rhs : Statement).

(** *** Classes and instances *)

Record Method : Type := mkMethod {
  name : string;
  formal_params : list string;
  body : Statement
}.

(** [runtime::Class]. A class is immutable once built, so the parent, a
    pointer in the source, is held by value. *)
Inductive Class : Type :=
| mkClass (name_ : string) (methods_ : list Method) (parent_ : option Class).

Definition name_ (c : Class) : string := let '(mkClass n _ _) := c in n.
Definition methods_ (c : Class) : list Method := let '(mkClass _ m _) := c in m.
Definition parent_ (c : Class) : option Class := let '(mkClass _ _ p) := c in p.

(** [runtime::ClassInstance]: a reference to its class and its fields. *)
Record ClassInstance : Type := mkClassInstance {
  cls_ : ClassPtr;
  fields_ : Closure
}.

(** The memory an evaluation works on: the instances, by address, and the
    characters written so far to the output stream of the [Context]. *)
Record World : Type := mkWorld {
  heap : gmap InstancePtr ClassInstance;
  output : string
}.

(** [Class::GetMethod]. *)
Fixpoint GetMethod (c : Class) (method : string) : option Method :=
  match List.find (fun m => String.eqb method (name m)) (methods_ c) with
  | Some m => Some m
  | None =>
      match c with
      | mkClass _ _ (Some parent) => GetMethod parent method
      | mkClass _ _ None => None
      end
  end.

(** *** Outcomes

    A call either returns, or leaves by the exception [detail::ReturnObj],
    or by a [std::runtime_error], or has undefined behaviour (a null or
    dangling pointer is dereferenced), or, in the model only, has not
    finished within the given number of nested calls. *)
Inductive Outcome (A : Type) : Type :=
| Normal (a : A)
| ReturnObj (obj : ObjectHolder)
| runtime_error (msg : string)
| Undefined
| OutOfFuel.
Arguments Normal {A} a.
Arguments ReturnObj {A} obj.
Arguments runtime_error {A} msg.
Arguments Undefined {A}.
Arguments OutOfFuel {A}.

(** A computation over a state [S] that is changed in place: the state
    reached is kept whatever the outcome. *)
Definition St (S A : Type) : Type := S -> Outcome A * S.

Definition ret {S A : Type} (a : A) : St S A := fun s => (Normal a, s).

Definition bind {S A B : Type} (m : St S A) (k : A -> St S B) : St S B :=
  fun s =>
    match m s with
    | (Normal a, s') => k a s'
    | (ReturnObj obj, s') => (ReturnObj obj, s')
    | (runtime_error msg, s') => (runtime_error msg, s')
    | (Undefined, s') => (Undefined, s')
    | (OutOfFuel, s') => (OutOfFuel, s')
    end.

Definition throw {S A : Type} (msg : string) : St S A := fun s => (runtime_error msg, s).
Definition undefined {S A : Type} : St S A := fun s => (Undefined, s).
Definition out_of_fuel {S A : Type} : St S A := fun s => (OutOfFuel, s).

Notation "'let*' x ':=' m 'in' k" := (bind m (fun x => k))
  (at level 10, x name, m at level 200, k at level 200, only parsing).

(** A computation on the [World] alone, run where a closure is at hand. *)
Definition in_world {A : Type} (m : St World A) : St (Closure * World) A :=
  fun '(closure, w) => let '(o, w') := m w in (o, (closure, w')).

(** A body run on a closure of its own, which is dropped at the end. *)
Definition run_body {A : Type} (m : St (Closure * World) A) (closure : Closure)
  : St World A :=
  fun w => let '(o, (_, w')) := m (closure, w) in (o, w').

(** [try { ... } catch (detail::ReturnObj& return_obj)]. *)
Definition catch_ReturnObj {S A : Type} (m : St S A) (normal : A -> St S ObjectHolder)
  : St S ObjectHolder :=
  fun s =>
    match m s with
    | (Normal a, s') => normal a s'
    | (ReturnObj obj, s') => (Normal obj, s')
    | (runtime_error msg, s') => (runtime_error msg, s')
    | (Undefined, s') => (Undefined, s')
    | (OutOfFuel, s') => (OutOfFuel, s')
    end.

(** [os << text] on the output stream of the context. *)
Definition write (text : string) : St World unit :=
  fun w => (Normal tt, mkWorld (heap w) (output w +:+ text)).

(** 32-bit [int] arithmetic, wrapping as two's complement does. *)
Definition wrap_int (z : Z) : Z := (z + 2147483648) mod 4294967296 - 2147483648.

(** [os << this]: an address; the digits stand for the pointer value. *)
Definition show_pointer (p : InstancePtr) : string := "0x" +:+ pretty p.

(** A text between double quotes, as the messages of the source have it. *)
Definition quoted (s : string) : string :=
  let dq := String.String "034"%char String.EmptyString in dq +:+ s +:+ dq.

(** [IsTrue]. *)
Definition IsTrue (object : ObjectHolder) : bool :=
  match object with
  | None => false
  | Some _ =>
      match TryAs_Number object with
      | Some v => negb (v =? 0)
      | None =>
          match TryAs_String object with
          | Some v => negb (String.eqb v "")
          | None =>
              match TryAs_Bool object with
              | Some v => v
              | None => false
              end
          end
      end
  end.

(** *** The runtime functions and the nodes

    [Execute] is virtual and is reached again through method bodies, and
    [ClassInstance::Print] calls itself on the result of [__str__]. Both
    are taken here as parameters ([exec], [print_instance]); the knot is
    tied by [Execute] below. [classes] is the table of the [Class] objects
    of the program, which evaluation never changes. *)

Section Nodes.
Variable classes : ClassPtr -> option Class.
Variable exec : Statement -> St (Closure * World) ObjectHolder.
Variable print_instance : InstancePtr -> St World string.

Definition ADD_METHOD : string := "__add__".
Definition INIT_METHOD : string := "__init__".

(** The class an instance refers to ([cls_]); nothing if the instance
    or its class is not there. *)
Definition class_of (w : World) (inst : InstancePtr) : option Class :=
  match heap w !! inst with
  | Some obj => classes (cls_ obj)
  | None => None
  end.

(** [ClassInstance::HasMethod]. *)
Definition HasMethod (inst : InstancePtr) (method : string) (argument_count : nat)
  : St World bool :=
  fun w =>
    match class_of w inst with
    | None => (Undefined, w)
    | Some c =>
        match GetMethod c method with
        | None => (Normal false, w)
        | Some method_ptr =>
            if negb (length (formal_params method_ptr) =? argument_count)%nat
            then (Normal false, w) else (Normal true, w)
        end
    end.

(** The loop of [Call] that binds the formal parameters. *)
Fixpoint bind_args (formal_params : list string) (actual_args : list ObjectHolder)
    (arg_name_to_obj : Closure) : Closure :=
  match formal_params, actual_args with
  | name :: formal_params', arg :: actual_args' =>
      bind_args formal_params' actual_args' (<[name := arg]> arg_name_to_obj)
  | _, _ => arg_name_to_obj
  end.

(** [ClassInstance::Call]. The closure of the call is a local variable:
    it is dropped when the body is left. *)
Definition Call (inst : InstancePtr) (method : string) (actual_args : list ObjectHolder)
  : St World ObjectHolder :=
  let* has := HasMethod inst method (length actual_args) in
  if negb has then
    throw ("No such method " +:+ quoted method +:+ " or wrong count of arguments")
  else
    fun w =>
      match class_of w inst with
      | None => (Undefined, w)
      | Some c =>
          match GetMethod c method with
          | None => (Undefined, w)
          | Some method_ptr =>
              let arg_name_to_obj : Closure :=
                bind_args (formal_params method_ptr) actual_args
                  (<["self" := Some (InstanceRef inst)]> ∅) in
              run_body (exec (body method_ptr)) arg_name_to_obj w
          end
      end.

(** [Class::Print]. *)
Definition Class_Print (cls : ClassPtr) : St World string :=
  match classes cls with
  | Some c => ret ("Class " +:+ name_ c)
  | None => undefined
  end.

(** [ClassInstance::Print]: the text sent to [os], once the call of
    [__str__] has had its effects. *)
Definition ClassInstance_Print (inst : InstancePtr) : St World string :=
  let* has := HasMethod inst "__str__" 0 in
  if has then
    let* obj := Call inst "__str__" [] in
    match obj with
    | Some (Number v) => ret (pretty v)
    | Some (String v) => ret v
    | Some (ClassRef c) => Class_Print c
    | Some (InstanceRef p) => print_instance p
    | _ => ret ""
    end
  else ret (show_pointer inst).

(** Modelled from the spec: [Print] of the value objects [Number] and
    [String] is declared in [runtime.h], which is not part of the sources
    under study; a number prints as the decimal digits of its signed
    value, a string as its raw characters. *)
Definition Number_Print (v : Z) : string := pretty v.
Definition String_Print (v : string) : string := v.

(** The virtual [Object::Print]. *)
Definition Object_Print (obj : Object) : St World string :=
  match obj with
  | Number v => ret (Number_Print v)
  | String v => ret (String_Print v)
  | Bool v => ret (if v then "True" else "False")
  | ClassRef c => Class_Print c
  | InstanceRef p => print_instance p
  end.

(** [Equal]. *)
Definition Equal (lhs rhs : ObjectHolder) : St World bool :=
  match lhs, rhs with
  | None, None => ret true
  | None, Some _ | Some _, None => throw "Cannot compare objects for equality"
  | Some _, Some _ =>
      match TryAs_Number lhs, TryAs_Number rhs with
      | Some l, Some r => ret (l =? r)
      | _, _ =>
      match TryAs_String lhs, TryAs_String rhs with
      | Some l, Some r => ret (String.eqb l r)
      | _, _ =>
      match TryAs_Bool lhs, TryAs_Bool rhs with
      | Some l, Some r => ret (Bool.eqb l r)
      | _, _ =>
      match TryAs_ClassInstance lhs with
      | Some lhs_cls_inst_ptr =>
          let* has := HasMethod lhs_cls_inst_ptr "__eq__" 1 in
          if has then
            let* res := Call lhs_cls_inst_ptr "__eq__" [rhs] in
            match TryAs_Bool res with
            | Some b => ret b
            | None => undefined   (* [->GetValue()] on a null pointer *)
            end
          else throw "Cannot compare objects for equality"
      | None => throw "Cannot compare objects for equality"
      end end end end
  end.

(** [Less]. [std::string] is ordered as bytes, [false < true]. *)
Definition Less (lhs rhs : ObjectHolder) : St World bool :=
  match lhs, rhs with
  | None, _ | _, None => throw "Cannot compare objects for less"
  | Some _, Some _ =>
      match TryAs_Number lhs, TryAs_Number rhs with
      | Some l, Some r => ret (l <? r)
      | _, _ =>
      match TryAs_String lhs, TryAs_String rhs with
      | Some l, Some r => ret (String.ltb l r)
      | _, _ =>
      match TryAs_Bool lhs, TryAs_Bool rhs with
      | Some l, Some r => ret (negb l && r)
      | _, _ =>
      match TryAs_ClassInstance lhs with
      | Some lhs_cls_inst_ptr =>
          let* has := HasMethod lhs_cls_inst_ptr "__lt__" 1 in
          if has then
            let* res := Call lhs_cls_inst_ptr "__lt__" [rhs] in
            match TryAs_Bool res with
            | Some b => ret b
            | None => undefined   (* [->GetValue()] on a null pointer *)
            end
          else throw "Cannot compare objects for less"
      | None => throw "Cannot compare objects for less"
      end end end end
  end.

(** [NotEqual], [Greater], [LessOrEqual], [GreaterOrEqual]. In [Greater],
    [&&] calls [Equal] only when [Less] has returned [false]. *)
Definition NotEqual (lhs rhs : ObjectHolder) : St World bool :=
  let* e := Equal lhs rhs in ret (negb e).

Definition Greater (lhs rhs : ObjectHolder) : St World bool :=
  let* l := Less lhs rhs in
  if negb l then let* e := Equal lhs rhs in ret (negb e) else ret false.

Definition LessOrEqual (lhs rhs : ObjectHolder) : St World bool :=
  let* g := Greater lhs rhs in ret (negb g).

Definition GreaterOrEqual (lhs rhs : ObjectHolder) : St World bool :=
  let* l := Less lhs rhs in ret (negb l).

Definition apply_Comparator (cmp : Comparator) : ObjectHolder -> ObjectHolder -> St World bool :=
  match cmp with
  | cmp_Equal => Equal
  | cmp_NotEqual => NotEqual
  | cmp_Less => Less
  | cmp_Greater => Greater
  | cmp_LessOrEqual => LessOrEqual
  | cmp_GreaterOrEqual => GreaterOrEqual
  end.

(** **** [detail::ThrowClassIntanceCastError] *)

Definition ThrowClassIntanceCastError {A : Type} (obj : ObjectHolder) (where_ : string)
  : St World A :=
  match obj with
  | None => throw ("Trying to " +:+ where_ +:+ " in <None> object")
  | Some (Number v) =>
      throw ("Trying to " +:+ where_ +:+ " in <number> object: " +:+ pretty v)
  | Some (String v) =>
      throw ("Trying to " +:+ where_ +:+ " in <string> object: " +:+ quoted v)
  | Some (Bool _) => throw ("Trying to " +:+ where_ +:+ " in <bool> object")
  | Some (ClassRef c) =>
      match classes c with
      | Some cls =>
          throw ("Trying to " +:+ where_ +:+ " in <class> object: " +:+ quoted (name_ cls))
      | None => undefined
      end
  | Some (InstanceRef _) =>
      throw ("Fail on cast to <runtime::ClassInstance> in " +:+ where_)
  end.

(** **** [VariableValue::Execute] *)

(** The fields of an instance; a dangling pointer has none to give. *)
Definition Fields (inst : InstancePtr) : St World Closure :=
  fun w =>
    match heap w !! inst with
    | Some obj => (Normal (fields_ obj), w)
    | None => (Undefined, w)
    end.

(** The walk along [dotted_ids_[1..]], from the instance [cls_inst_ptr]:
    the intermediate names must be fields holding instances, the last
    name is the field returned. *)
Fixpoint VariableValue_fields (cls_inst_ptr : InstancePtr) (ids : list string)
  : St World ObjectHolder :=
  match ids with
  | [] => undefined
  | [back] =>
      let* fields := Fields cls_inst_ptr in
      match fields !! back with
      | None => throw ("No field with name " +:+ quoted back)
      | Some obj => ret obj
      end
  | id :: ids' =>
      let* fields := Fields cls_inst_ptr in
      match fields !! id with
      | None => throw ("No field with name " +:+ quoted id)
      | Some obj =>
          match TryAs_ClassInstance obj with
          | None => throw ("Failed to cast " +:+ quoted id +:+ " to <ClassInstance>")
          | Some next => VariableValue_fields next ids'
          end
      end
  end.

Definition VariableValue_Execute (dotted_ids : list string)
  : St (Closure * World) ObjectHolder :=
  fun '(closure, w) =>
    match dotted_ids with
    | [] => (Undefined, (closure, w))          (* [front()] of an empty vector *)
    | front :: ids =>
        match closure !! front with
        | None => (runtime_error ("No field with name " +:+ quoted front), (closure, w))
        | Some obj =>
            match ids with
            | [] => (Normal obj, (closure, w))
            | _ :: _ =>
                match TryAs_ClassInstance obj with
                | None =>
                    (runtime_error ("Failed to cast " +:+ quoted front
                                      +:+ " to <ClassInstance>"), (closure, w))
                | Some cls_inst_ptr =>
                    in_world (VariableValue_fields cls_inst_ptr ids) (closure, w)
                end
            end
        end
    end.

(** **** Assignments *)

(** [closure[var_name] = obj]. *)
Definition set_variable (var_name : string) (obj : ObjectHolder) : St (Closure * World) unit :=
  fun '(closure, w) => (Normal tt, (<[var_name := obj]> closure, w)).

(** [cls_inst_ptr->Fields()[field_name] = obj]. *)
Definition set_field (inst : InstancePtr) (field_name : string) (obj : ObjectHolder)
  : St World unit :=
  fun w =>
    match heap w !! inst with
    | Some ci =>
        (Normal tt,
         mkWorld (<[inst := mkClassInstance (cls_ ci) (<[field_name := obj]> (fields_ ci))]>
                    (heap w))
                 (output w))
    | None => (Undefined, w)
    end.

(** The right operand of [=] is evaluated before [closure[var_name_]]
    is looked up. *)
Definition Assignment_Execute (var_name : string) (value : Statement)
  : St (Closure * World) ObjectHolder :=
  let* obj := exec value in
  let* _ := set_variable var_name obj in
  ret obj.

Definition FieldAssignment_Execute (object : list string) (field_name : string)
    (field_value : Statement) : St (Closure * World) ObjectHolder :=
  let* target := VariableValue_Execute object in
  match TryAs_ClassInstance target with
  | None =>
      let* again := VariableValue_Execute object in
      in_world (ThrowClassIntanceCastError again "FieldAssignment")
  | Some cls_inst_ptr =>
      let* obj := exec field_value in
      let* _ := in_world (set_field cls_inst_ptr field_name obj) in
      ret obj
  end.

(** **** [Print::Execute] and [Stringify::Execute] *)

(** What [Print] and [Stringify] send to their stream for one value. *)
Definition print_holder (obj : ObjectHolder) : St World string :=
  match obj with
  | None => ret "None"
  | Some o => Object_Print o
  end.

Fixpoint Print_loop (args : list Statement) (is_not_first : bool)
  : St (Closure * World) unit :=
  match args with
  | [] => ret tt
  | arg :: args' =>
      let* _ := in_world (if is_not_first then write " " else ret tt) in
      let* obj := exec arg in
      let* text := in_world (print_holder obj) in
      let* _ := in_world (write text) in
      Print_loop args' true
  end.

Definition endl : string := String.String "010"%char String.EmptyString.

Definition Print_Execute (args : list Statement) : St (Closure * World) ObjectHolder :=
  let* _ := Print_loop args false in
  let* _ := in_world (write endl) in
  ret None.

Definition Stringify_Execute (arg : Statement) : St (Closure * World) ObjectHolder :=
  let* obj := exec arg in
  let* text := in_world (print_holder obj) in
  ret (Some (String text)).

(** **** [MethodCall::Execute] and [NewInstance::Execute] *)

(** [for (const auto& arg : args_) actual_args.emplace_back(arg->Execute(...))]. *)
Fixpoint Execute_args (args : list Statement) : St (Closure * World) (list ObjectHolder) :=
  match args with
  | [] => ret []
  | arg :: args' =>
      let* obj := exec arg in
      let* objs := Execute_args args' in
      ret (obj :: objs)
  end.

Definition MethodCall_Execute (object : Statement) (method_name : string)
    (args : list Statement) : St (Closure * World) ObjectHolder :=
  let* receiver := exec object in
  match TryAs_ClassInstance receiver with
  | None =>
      let* again := exec object in
      in_world (ThrowClassIntanceCastError again "MethodCall")
  | Some cls_inst_ptr =>
      let* actual_args := Execute_args args in
      in_world (Call cls_inst_ptr method_name actual_args)
  end.

(** The instance is the member [cls_inst_] of the node: the handle
    returned is [ObjectHolder::Share(cls_inst_)]. *)
Definition NewInstance_Execute (cls_inst : InstancePtr) (args : list Statement)
  : St (Closure * World) ObjectHolder :=
  let* has := in_world (HasMethod cls_inst INIT_METHOD (length args)) in
  let* _ :=
    if has then
      let* actual_args := Execute_args args in
      let* _ := in_world (Call cls_inst INIT_METHOD actual_args) in
      ret tt
    else ret tt in
  ret (Some (InstanceRef cls_inst)).

(** **** Arithmetic *)

Definition Add_Execute (lhs rhs : Statement) : St (Closure * World) ObjectHolder :=
  let* lhs_obj := exec lhs in
  let* rhs_obj := exec rhs in
  match TryAs_Number lhs_obj, TryAs_Number rhs_obj with
  | Some l, Some r => ret (Some (Number (wrap_int (l + r))))
  | _, _ =>
  match TryAs_String lhs_obj, TryAs_String rhs_obj with
  | Some l, Some r => ret (Some (String (l +:+ r)))
  | _, _ =>
  match TryAs_ClassInstance lhs_obj with
  | Some lhs_cls_inst_ptr =>
      let* has := in_world (HasMethod lhs_cls_inst_ptr ADD_METHOD 1) in
      if has then in_world (Call lhs_cls_inst_ptr ADD_METHOD [rhs_obj])
      else throw "Failed on Add operation"
  | None => throw "Failed on Add operation"
  end end end.

Definition Sub_Execute (lhs rhs : Statement) : St (Closure * World) ObjectHolder :=
  let* lhs_obj := exec lhs in
  let* rhs_obj := exec rhs in
  match TryAs_Number lhs_obj, TryAs_Number rhs_obj with
  | Some l, Some r => ret (Some (Number (wrap_int (l - r))))
  | _, _ => throw "Failed on Sub operation"
  end.

Definition Mult_Execute (lhs rhs : Statement) : St (Closure * World) ObjectHolder :=
  let* lhs_obj := exec lhs in
  let* rhs_obj := exec rhs in
  match TryAs_Number lhs_obj, TryAs_Number rhs_obj with
  | Some l, Some r => ret (Some (Number (wrap_int (l * r))))
  | _, _ => throw "Failed on Mult operation"
  end.

(** [/] on [int] truncates toward zero. The quotient of [INT_MIN] by [-1]
    is not an [int]: that division has no defined result. *)
Definition Div_Execute (lhs rhs : Statement) : St (Closure * World) ObjectHolder :=
  let* lhs_obj := exec lhs in
  let* rhs_obj := exec rhs in
  match TryAs_Number lhs_obj, TryAs_Number rhs_obj with
  | Some l, Some r =>
      if negb (r =? 0) then
        if (l =? -2147483648) && (r =? -1) then undefined
        else ret (Some (Number (wrap_int (Z.quot l r))))
      else throw "Failed on Div operation"
  | _, _ => throw "Failed on Div operation"
  end.

(** **** Logic *)

Definition Or_Execute (lhs rhs : Statement) : St (Closure * World) ObjectHolder :=
  let* lhs_obj := exec lhs in
  let* rhs_obj := exec rhs in
  if IsTrue lhs_obj || IsTrue rhs_obj then ret (Some (Bool true))
  else ret (Some (Bool false)).

Definition And_Execute (lhs rhs : Statement) : St (Closure * World) ObjectHolder :=
  let* lhs_obj := exec lhs in
  let* rhs_obj := exec rhs in
  if IsTrue lhs_obj && IsTrue rhs_obj then ret (Some (Bool true))
  else ret (Some (Bool false)).

Definition Not_Execute (arg : Statement) : St (Closure * World) ObjectHolder :=
  let* obj := exec arg in
  if negb (IsTrue obj) then ret (Some (Bool true)) else ret (Some (Bool false)).

(** **** Control *)

Fixpoint Compound_loop (args : list Statement) : St (Closure * World) unit :=
  match args with
  | [] => ret tt
  | arg :: args' => let* _ := exec arg in Compound_loop args'
  end.

Definition Compound_Execute (args : list Statement) : St (Closure * World) ObjectHolder :=
  let* _ := Compound_loop args in ret None.

Definition MethodBody_Execute (body : Statement) : St (Closure * World) ObjectHolder :=
  catch_ReturnObj (exec body) (fun _ => ret None).

Definition Return_Execute (statement : Statement) : St (Closure * World) ObjectHolder :=
  let* obj := exec statement in
  match obj with
  | Some _ => fun s => (ReturnObj obj, s)      (* [throw detail::ReturnObj(obj)] *)
  | None => ret obj
  end.

Definition ClassDefinition_Execute (cls : ClassPtr) : St (Closure * World) ObjectHolder :=
  match classes cls with
  | Some c =>
      let* _ := set_variable (name_ c) (Some (ClassRef cls)) in
      ret (Some (ClassRef cls))
  | None => undefined
  end.

Definition IfElse_Execute (condition if_body : Statement) (else_body : option Statement)
  : St (Closure * World) ObjectHolder :=
  let* c := exec condition in
  if IsTrue c then exec if_body
  else
    match else_body with
    | Some else_body => exec else_body
    | None => ret None
    end.

Definition Comparison_Execute (cmp : Comparator) (lhs rhs : Statement)
  : St (Closure * World) ObjectHolder :=
  let* lhs_obj := exec lhs in
  let* rhs_obj := exec rhs in
  let* b := in_world (apply_Comparator cmp lhs_obj rhs_obj) in
  ret (Some (Bool b)).

(** Modelled from the spec: the literal nodes [NumericConst], [StringConst],
    [BoolConst] and [NoneConst] are declared in [statement.h], which is not
    part of the sources under study; each yields a handle to its literal,
    [NoneConst] the empty holder. *)
Definition literal_Execute (literal : ObjectHolder) : St (Closure * World) ObjectHolder :=
  ret literal.

(** The virtual call [stmt->Execute(closure, context)], one node deep. *)
Definition Execute_node (stmt : Statement) : St (Closure * World) ObjectHolder :=
  match stmt with
  | NumericConst v => literal_Execute (Some (Number v))
  | StringConst v => literal_Execute (Some (String v))
  | BoolConst v => literal_Execute (Some (Bool v))
  | NoneConst => literal_Execute None
  | VariableValue dotted_ids => VariableValue_Execute dotted_ids
  | Assignment var_name value => Assignment_Execute var_name value
  | FieldAssignment object field_name field_value =>
      FieldAssignment_Execute object field_name field_value
  | Print args => Print_Execute args
  | MethodCall object method_name args => MethodCall_Execute object method_name args
  | NewInstance cls_inst args => NewInstance_Execute cls_inst args
  | Stringify arg => Stringify_Execute arg
  | Add lhs rhs => Add_Execute lhs rhs
  | Sub lhs rhs => Sub_Execute lhs rhs
  | Mult lhs rhs => Mult_Execute lhs rhs
  | Div lhs rhs => Div_Execute lhs rhs
  | Or lhs rhs => Or_Execute lhs rhs
  | And lhs rhs => And_Execute lhs rhs
  | Not arg => Not_Execute arg
  | Compound args => Compound_Execute args
  | MethodBody body => MethodBody_Execute body
  | Return statement => Return_Execute statement
  | ClassDefinition cls => ClassDefinition_Execute cls
  | IfElse condition if_body else_body => IfElse_Execute condition if_body else_body
  | Comparison cmp lhs rhs => Comparison_Execute cmp lhs rhs
  end.

End Nodes.

(** *** Tying the knot

    [fuel] bounds the depth of nested [Execute] and [ClassInstance::Print]
    calls; [OutOfFuel] is the outcome when the bound is reached. *)

Fixpoint Execute (classes : ClassPtr -> option Class) (fuel : nat) (stmt : Statement)
  : St (Closure * World) ObjectHolder :=
  match fuel with
  | O => out_of_fuel
  | S fuel' =>
      Execute_node classes (Execute classes fuel') (Print_instance classes fuel') stmt
  end
with Print_instance (classes : ClassPtr -> option Class) (fuel : nat) (inst : InstancePtr)
  : St World string :=
  match fuel with
  | O => out_of_fuel
  | S fuel' =>
      ClassInstance_Print classes (Execute classes fuel') (Print_instance classes fuel') inst
  end.

(** *** Building the nodes

    [ClassInstance::ClassInstance]: the fields start with [self], a
    non-owning handle to the instance itself. *)
Definition ClassInstance_ctor (cls : ClassPtr) (this : InstancePtr) : ClassInstance :=
  mkClassInstance cls (<["self" := Some (InstanceRef this)]> ∅).

(** [NewInstance::NewInstance]: the member [cls_inst_] is constructed, at
    an address [this] not in use, when the node is. *)
Definition NewInstance_ctor (cls : ClassPtr) (args : list Statement) (w : World)
  : Statement * World :=
  let this : InstancePtr := fresh (dom (heap w)) in
  (NewInstance this args,
   mkWorld (<[this := ClassInstance_ctor cls this]> (heap w)) (output w)).

Definition empty_World : World := mkWorld ∅ "".

End runtime.

(** ** Vocabulary of the evaluator properties *)

Module runtime_spec.
Import runtime.

(** Two objects of the same primitive kind ([Number], [String] or [Bool]). *)
Definition same_kind (l r : Object) : bool :=
  match l, r with
  | Number _, Number _ | String _, String _ | Bool _, Bool _ => true
  | _, _ => false
  end.

(** The operand pairs that [Equal] (with [method] = [__eq__]) and [Less]
    (with [__lt__]) have no rule for, given that two empty holders are
    ([both_None_ok]) or are not acceptable: exactly one holder is empty,
    or both hold objects that are not of one primitive kind while the left
    one is not an instance whose class has [method] with one parameter. *)
Definition unsupported (classes : ClassPtr -> option Class) (method : string)
    (both_None_ok : bool) (w : World) (lhs rhs : ObjectHolder) : Prop :=
  match lhs, rhs with
  | None, None => both_None_ok = false
  | Some l, Some r =>
      same_kind l r = false /\
      forall p, l = InstanceRef p -> HasMethod classes p method 1 w = (Normal false, w)
  | _, _ => True
  end.

(** The way a call is left, whatever it carries. *)
Inductive Kind : Type :=
| KNormal | KReturnObj | Kruntime_error | KUndefined | KOutOfFuel.

Definition kind {A : Type} (o : Outcome A) : Kind :=
  match o with
  | Normal _ => KNormal
  | ReturnObj _ => KReturnObj
  | runtime_error _ => Kruntime_error
  | Undefined => KUndefined
  | OutOfFuel => KOutOfFuel
  end.

Definition is_KReturnObj (k : Kind) : bool :=
  match k with KReturnObj => true | _ => false end.
Definition is_KOutOfFuel (k : Kind) : bool :=
  match k with KOutOfFuel => true | _ => false end.
Definition no_Kind (k : Kind) : bool := false.

(** Two results agree up to [bl] and [br]: they are equal, unless the
    first is left in a way [bl] accepts or the second in a way [br]
    accepts. *)
Definition agree (bl br : Kind -> bool) {S A : Type} (r' r : Outcome A * S) : Prop :=
  bl (kind (fst r')) = true \/ br (kind (fst r)) = true \/ r' = r.

(** [r'] is [r], unless [r] is left by the exception [ReturnObj]. *)
Definition same_unless_ReturnObj {S A : Type} (r' r : Outcome A * S) : Prop :=
  agree no_Kind is_KReturnObj r' r.

(** [r'] is [r], unless [r'] ran out of fuel. *)
Definition same_unless_OutOfFuel {S A : Type} (r' r : Outcome A * S) : Prop :=
  agree is_KOutOfFuel no_Kind r' r.

(** The ways a call is left other than by a normal return. *)
Inductive Abrupt : Type :=
| AReturnObj (obj : ObjectHolder)
| Aruntime_error (msg : string)
| AUndefined
| AOutOfFuel.

Definition abrupt {A : Type} (a : Abrupt) : Outcome A :=
  match a with
  | AReturnObj obj => ReturnObj obj
  | Aruntime_error msg => runtime_error msg
  | AUndefined => Undefined
  | AOutOfFuel => OutOfFuel
  end.

(** The result [r], in which an exception [ReturnObj] is replaced by what
    [h] makes of the object carried, in the same state. *)
Definition rethrown {S A : Type} (h : ObjectHolder -> Abrupt) (r : Outcome A * S)
  : Outcome A * S :=
  match r with
  | (ReturnObj obj, s') => (abrupt (h obj), s')
  | _ => r
  end.

(** The computation [m], with every [ReturnObj] that leaves it replaced
    through [h]. *)
Definition rethrow {S A : Type} (h : ObjectHolder -> Abrupt) (m : St S A) : St S A :=
  fun s => rethrown h (m s).

(** [stmt], executed from [s], reaches a [Return] whose expression yields
    the present value [v] and leaves the state [s']: the [Return] is [stmt]
    itself, or it is reached in a statement of a [Compound] whose earlier
    statements have returned normally, or in the branch that an [IfElse]
    takes. [fuel] is that of the execution of [stmt]. *)
Inductive reaches_Return (classes : ClassPtr -> option Class)
  : nat -> Statement -> Closure * World -> Object -> Closure * World -> Prop :=
| reaches_here fuel statement s v s' :
    Execute classes fuel statement s = (Normal (Some v), s') ->
    reaches_Return classes (S fuel) (Return statement) s v s'
| reaches_in_Compound fuel before stmt after s s1 v s' :
    Compound_loop (Execute classes fuel) before s = (Normal tt, s1) ->
    reaches_Return classes fuel stmt s1 v s' ->
    reaches_Return classes (S fuel) (Compound (before ++ stmt :: after)) s v s'
| reaches_in_if_body fuel condition if_body else_body s c s1 v s' :
    Execute classes fuel condition s = (Normal c, s1) ->
    IsTrue c = true ->
    reaches_Return classes fuel if_body s1 v s' ->
    reaches_Return classes (S fuel) (IfElse condition if_body else_body) s v s'
| reaches_in_else_body fuel condition if_body else_body s c s1 v s' :
    Execute classes fuel condition s = (Normal c, s1) ->
    IsTrue c = false ->
    reaches_Return classes fuel else_body s1 v s' ->
    reaches_Return classes (S fuel) (IfElse condition if_body (Some else_body)) s v s'.

(** A computation keeps [P] when the state it leaves satisfies [P]
    whenever the state it starts from does, whatever the outcome. *)
Definition preserves {S A : Type} (P : S -> Prop) (m : St S A) : Prop :=
  forall s, P s -> P (snd (m s)).

(** A property of the [World], seen from a node, which also has a closure. *)
Definition on_world (P : World -> Prop) (s : Closure * World) : Prop := P (snd s).

(** The statements a node holds. *)
Definition children (stmt : Statement) : list Statement :=
  match stmt with
  | NumericConst _ | StringConst _ | BoolConst _ | NoneConst
  | VariableValue _ | ClassDefinition _ => []
  | Assignment _ value => [value]
  | FieldAssignment _ _ field_value => [field_value]
  | Print args => args
  | MethodCall object _ args => object :: args
  | NewInstance _ args => args
  | Stringify arg | Not arg => [arg]
  | Add lhs rhs | Sub lhs rhs | Mult lhs rhs | Div lhs rhs
  | Or lhs rhs | And lhs rhs | Comparison _ lhs rhs => [lhs; rhs]
  | Compound args => args
  | MethodBody body => [body]
  | Return statement => [statement]
  | IfElse condition if_body else_body =>
      condition :: if_body :: match else_body with Some e => [e] | None => [] end
  end.

(** Whether a [FieldAssignment] to the field [self] occurs in a statement. *)
Fixpoint assigns_self (stmt : Statement) : bool :=
  match stmt with
  | NumericConst _ | StringConst _ | BoolConst _ | NoneConst
  | VariableValue _ | ClassDefinition _ => false
  | Assignment _ value => assigns_self value
  | FieldAssignment _ field_name field_value =>
      String.eqb field_name "self" || assigns_self field_value
  | Print args => existsb assigns_self args
  | MethodCall object _ args => assigns_self object || existsb assigns_self args
  | NewInstance _ args => existsb assigns_self args
  | Stringify arg | Not arg => assigns_self arg
  | Add lhs rhs | Sub lhs rhs | Mult lhs rhs | Div lhs rhs
  | Or lhs rhs | And lhs rhs | Comparison _ lhs rhs =>
      assigns_self lhs || assigns_self rhs
  | Compound args => existsb assigns_self args
  | MethodBody body => assigns_self body
  | Return statement => assigns_self statement
  | IfElse condition if_body else_body =>
      assigns_self condition || assigns_self if_body ||
      match else_body with Some e => assigns_self e | None => false end
  end.

(** No method that a lookup in the class table can find assigns to [self]. *)
Definition methods_keep_self (classes : ClassPtr -> option Class) : Prop :=
  forall cls c method m,
    classes cls = Some c -> GetMethod c method = Some m ->
    assigns_self (body m) = false.

(** In every instance, the field [self] holds a handle to the instance. *)
Definition self_ok (w : World) : Prop :=
  forall p obj, heap w !! p = Some obj ->
    fields_ obj !! "self" = Some (Some (InstanceRef p)).

End runtime_spec.

(** ** A sample program

    Four classes and the instances that the [NewInstance] nodes of the
    program own:
<<
    class Thing:                      # class 0, no method

    class Maker:                      # class 1
      def make():
        return Thing()                # the node that owns instance 0

    class Odd:                        # class 2
      def __eq__(other):
        return 1
      def __lt__(other):
        return None

    class Point:                      # class 3
      def __init__(x):
        self.x = x
      def __eq__(other):
        return self.x == other.x
      def __lt__(other):
        return self.x < other.x
>>
*)

Module samples.
Import runtime.

Definition Thing : Class := mkClass "Thing" [] None.

Definition Maker : Class :=
  mkClass "Maker"
    [ mkMethod "make" [] (MethodBody (Return (NewInstance 0%nat []))) ]
    None.

Definition Odd : Class :=
  mkClass "Odd"
    [ mkMethod "__eq__" ["other"] (MethodBody (Return (NumericConst 1)));
      mkMethod "__lt__" ["other"] (MethodBody (Return NoneConst)) ]
    None.

Definition Point : Class :=
  mkClass "Point"
    [ mkMethod "__init__" ["x"]
        (MethodBody (FieldAssignment ["self"] "x" (VariableValue ["x"])));
      mkMethod "__eq__" ["other"]
        (MethodBody (Return (Comparison cmp_Equal (VariableValue ["self"; "x"])
                                                  (VariableValue ["other"; "x"]))));
      mkMethod "__lt__" ["other"]
        (MethodBody (Return (Comparison cmp_Less (VariableValue ["self"; "x"])
                                                 (VariableValue ["other"; "x"])))) ]
    None.

Definition classes (cls : ClassPtr) : option Class :=
  match cls with
  | 0%nat => Some Thing
  | 1%nat => Some Maker
  | 2%nat => Some Odd
  | 3%nat => Some Point
  | _ => None
  end.

(** The nodes [Thing()], [Maker()], [Odd()], [Point(3)] and [Point(4)], built
    in this order: their instances get the addresses 0 to 4. *)
Definition build : list Statement * World :=
  let '(thing, w) := NewInstance_ctor 0%nat [] empty_World in
  let '(maker, w) := NewInstance_ctor 1%nat [] w in
  let '(odd, w) := NewInstance_ctor 2%nat [] w in
  let '(p3, w) := NewInstance_ctor 3%nat [NumericConst 3] w in
  let '(p4, w) := NewInstance_ctor 3%nat [NumericConst 4] w in
  ([thing; maker; odd; p3; p4], w).

Definition world : World := snd build.

(** The world once [Point(3)] and [Point(4)] have been executed. *)
Definition world_with_points : World :=
  snd (snd (Execute classes 5
              (Compound [NewInstance 3%nat [NumericConst 3];
                         NewInstance 4%nat [NumericConst 4]])
              (∅, world))).

(** <<
    m = Maker()
    a = m.make()
    a.v = 1
    b = m.make()
    b.v = 2
    print a.v
>> *)
Definition two_makes : Statement :=
  Compound
    [ Assignment "m" (NewInstance 1%nat []);
      Assignment "a" (MethodCall (VariableValue ["m"]) "make" []);
      FieldAssignment ["a"] "v" (NumericConst 1);
      Assignment "b" (MethodCall (VariableValue ["m"]) "make" []);
      FieldAssignment ["b"] "v" (NumericConst 2);
      Print [VariableValue ["a"; "v"]] ].

(** [x.self = 5], where [x] holds the instance 0. *)
Definition x_is_thing : Closure := <["x" := Some (InstanceRef 0%nat)]> ∅.
Definition assign_self : Statement := FieldAssignment ["x"] "self" (NumericConst 5).


(** A method body with a [return] under an [if], as in
<<
    def f(x):
      if x < 0:
        return 0
      return x + 1
>> *)
Definition early_return : Statement :=
  MethodBody
    (Compound
       [ IfElse (Comparison cmp_Less (VariableValue ["x"]) (NumericConst 0))
           (Return (NumericConst 0)) None;
         Return (Add (VariableValue ["x"]) (NumericConst 1)) ]).

(** A body in which [return None] does not leave the method. *)
Definition return_None_goes_on : Statement :=
  MethodBody (Compound [ Return NoneConst; Return (NumericConst 1) ]).

End samples.

(** ** The rest of the lexer: token comparison and the cursor *)

Module lexer.
Import parse.

(** [lhs.index() == rhs.index()]: the two tokens hold the same alternative
    of the variant. *)
Definition same_alternative (lhs rhs : Token) : bool :=
  match lhs, rhs with
  | token_type.Number _, token_type.Number _
  | token_type.Id _, token_type.Id _
  | token_type.Char _, token_type.Char _
  | token_type.String _, token_type.String _
  | token_type.Class, token_type.Class
  | token_type.Return, token_type.Return
  | token_type.If, token_type.If
  | token_type.Else, token_type.Else
  | token_type.Def, token_type.Def
  | token_type.Newline, token_type.Newline
  | token_type.Print, token_type.Print
  | token_type.Indent, token_type.Indent
  | token_type.Dedent, token_type.Dedent
  | token_type.And, token_type.And
  | token_type.Or, token_type.Or
  | token_type.Not, token_type.Not
  | token_type.Eq, token_type.Eq
  | token_type.NotEq, token_type.NotEq
  | token_type.LessOrEq, token_type.LessOrEq
  | token_type.GreaterOrEq, token_type.GreaterOrEq
  | token_type.None, token_type.None
  | token_type.True, token_type.True
  | token_type.False, token_type.False
  | token_type.Eof, token_type.Eof => true
  | _, _ => false
  end.

(** [operator==(const Token&, const Token&)]: after the test of the
    indices, the values of the four valued alternatives are compared; the
    [rhs.As<T>()] of each test is of the alternative of [lhs]. *)
Definition Token_eq (lhs rhs : Token) : bool :=
  if negb (same_alternative lhs rhs) then false
  else
    match lhs, rhs with
    | token_type.Char l, token_type.Char r => (l =? r)%char
    | token_type.Number l, token_type.Number r => l =? r
    | token_type.String l, token_type.String r => String.eqb l r
    | token_type.Id l, token_type.Id r => String.eqb l r
    | _, _ => true
    end.

(** [operator!=]. *)
Definition Token_neq (lhs rhs : Token) : bool := negb (Token_eq lhs rhs).

(** The [Lexer]: the tokens and the position of the iterator [iter_]. *)
Record Lexer : Type := mkLexer {
  tokens_ : list Token;
  iter_ : nat
}.

(** [Lexer::Lexer]: [ReadInput], then [iter_ = tokens_.begin()]. *)
Definition Lexer_ctor (bytes : list ascii) : loop_end Lexer :=
  match ReadInput bytes with
  | Done tokens => Done (mkLexer tokens 0)
  | Thrown msg => Thrown msg
  end.

(** [Lexer::CurrentToken]: [*iter_]; nothing when [iter_] is not the
    position of a token. *)
Definition CurrentToken (l : Lexer) : option Token := tokens_ l !! iter_ l.

(** [Lexer::NextToken]: the lexer after the call and the token returned. *)
Definition NextToken (l : Lexer) : Lexer * option Token :=
  let l' :=
    if negb (S (iter_ l) =? length (tokens_ l))%nat
    then mkLexer (tokens_ l) (S (iter_ l)) else l in
  (l', CurrentToken l').

(** [n] calls of [NextToken]. *)
Fixpoint advance (n : nat) (l : Lexer) : Lexer :=
  match n with
  | O => l
  | S n' => advance n' (fst (NextToken l))
  end.

Definition is_Eof (t : Token) : bool :=
  match t with token_type.Eof => true | _ => false end.

(** Neither [Indent], nor [Dedent], nor [Eof]. *)
Definition ordinary (t : Token) : bool :=
  negb (is_Indent t) && negb (is_Dedent t) && negb (is_Eof t).

(** [Eof] does not occur in the sequence. *)
Definition no_Eof (tokens : list Token) : Prop :=
  Forall (fun t => is_Eof t = false) tokens.

(** At no point of the sequence have more [Dedent]s than [Indent]s been
    seen. *)
Definition never_below_zero (tokens : list Token) : Prop :=
  forall n, count_Dedent (take n tokens) <= count_Indent (take n tokens).

(** What one turn of the loop of [ReadInput] may append, with the
    indentation level before and after: nothing or one ordinary token, or
    one [Indent] as the level goes up by one, or as many [Dedent]s as the
    level goes down, not below zero. *)
Definition turn_appends (indent : Z) (added : list Token) (indent' : Z) : Prop :=
  (indent' = indent /\ (added = [] \/ exists t, ordinary t = true /\ added = [t])) \/
  (added = [token_type.Indent] /\ indent' = indent + 1) \/
  (exists n, added = repeat token_type.Dedent n /\
             indent' = indent - Z.of_nat n /\ 0 <= indent').

(** The stream does not start with a space. *)
Definition no_leading_space (bytes : list ascii) : Prop :=
  match bytes with c :: _ => c <> space | [] => True end.

(** The tokens and the indentation level of a state of [ReadInput], which
    are all that the end of [ReadInput] reads. *)
Definition tokens_and_level (r : loop_end ReadState) : loop_end (list Token * Z) :=
  match r with
  | Done st => Done (parse.tokens_ st, indent_count st)
  | Thrown msg => Thrown msg
  end.

(** What [AdjustIndentCount] appends when the level goes from
    [indent_count] to [level]. *)
Definition indent_tokens (indent_count level : Z) : list Token :=
  if level >? indent_count then [token_type.Indent]
  else repeat token_type.Dedent (Z.to_nat (indent_count - level)).

End lexer.

(** ** Vocabulary of further properties of the evaluator *)

Module runtime_more_spec.
Import runtime.

(** The relation on integers that each comparator stands for. *)
Definition Z_relation (cmp : Comparator) (a b : Z) : bool :=
  match cmp with
  | cmp_Equal => a =? b
  | cmp_NotEqual => negb (a =? b)
  | cmp_Less => a <? b
  | cmp_Greater => a >? b
  | cmp_LessOrEqual => a <=? b
  | cmp_GreaterOrEqual => a >=? b
  end.

(** The four comparators that go through [Less]. *)
Definition uses_Less (cmp : Comparator) : bool :=
  match cmp with
  | cmp_Equal | cmp_NotEqual => false
  | _ => true
  end.

(** [None], a [Number], a [String] or a [Bool]: printed without any call. *)
Definition is_plain_value (v : ObjectHolder) : bool :=
  match v with
  | Some (ClassRef _) | Some (InstanceRef _) => false
  | _ => true
  end.

(** The text that stands for a plain value on the output. *)
Definition show (v : ObjectHolder) : string :=
  match v with
  | None => "None"
  | Some (Number n) => pretty n
  | Some (String s) => s
  | Some (Bool b) => if b then "True" else "False"
  | Some (ClassRef _) | Some (InstanceRef _) => ""
  end.

(** Texts with one space between two neighbours. *)
Fixpoint join_spaces (texts : list string) : string :=
  match texts with
  | [] => ""
  | [text] => text
  | text :: texts' => text +:+ " " +:+ join_spaces texts'
  end.

(** A closure in which [x] holds the instance 0 of the sample world. *)
Definition x_is_instance_0 : Closure := <["x" := Some (InstanceRef 0%nat)]> ∅.

(** A sample method with two parameters. *)
Definition sample_method : Method :=
  mkMethod "set" ["a"; "b"]
    (MethodBody (FieldAssignment ["self"] "a" (VariableValue ["b"]))).

(** A table in which every class pointer stands for a class [Setter] with
    that one method. *)
Definition setter_classes (cls : ClassPtr) : option Class :=
  Some (mkClass "Setter" [sample_method] None).

(** A closure in which [m] holds the instance 1 of the sample world, a
    [Maker]. *)
Definition m_is_instance_1 : Closure := <["m" := Some (InstanceRef 1%nat)]> ∅.

End runtime_more_spec.
(** ** Properties of the lexer *)

Section WhileFacts.
Context {S : Type} (body : S -> loop_ctl S).

(** A property kept by every turn holds when the loop stops. *)
Lemma while_invariant (P : S -> Prop) :
  (forall s s', P s -> body s = Continue s' -> P s') ->
  (forall s s', P s -> body s = Break s' -> P s') ->
  forall n s s', P s -> while_ n body s = Done s' -> P s'.
Proof.
  intros HC HB n. induction n as [|n IH]; intros s s' Hs Hw; simpl in Hw.
  - congruence.
  - destruct (body s) as [s1|s1|msg] eqn:Hb.
    + eapply IH; [eapply HC; eassumption | exact Hw].
    + inversion Hw; subst. eapply HB; eassumption.
    + discriminate.
Qed.

(** Above a measure that every [Continue] decreases, the counter of
    [while_] does not matter: the loop has stopped before it runs out. *)
Lemma while_fuel (m : S -> nat) :
  (forall s s', body s = Continue s' -> (m s' < m s)%nat) ->
  forall n k s, (m s < n)%nat -> (n <= k)%nat ->
    while_ n body s = while_ k body s.
Proof.
  intros Hdec n. induction n as [|n IH]; intros k s Hm Hk; [lia|].
  destruct k as [|k]; [lia|]. simpl.
  destruct (body s) as [s1|s1|msg] eqn:Hb; try reflexivity.
  apply IH; [|lia]. specialize (Hdec _ _ Hb). lia.
Qed.
End WhileFacts.

Module lexer_facts.
Import parse.

Lemma count_Indent_app l1 l2 :
  count_Indent (l1 ++ l2) = count_Indent l1 + count_Indent l2.
Proof. unfold count_Indent. rewrite List.filter_app, length_app. lia. Qed.

Lemma count_Dedent_app l1 l2 :
  count_Dedent (l1 ++ l2) = count_Dedent l1 + count_Dedent l2.
Proof. unfold count_Dedent. rewrite List.filter_app, length_app. lia. Qed.

Lemma count_Indent_repeat_Dedent n :
  count_Indent (repeat token_type.Dedent n) = 0.
Proof. induction n as [|n IH]; [reflexivity|]. simpl. exact IH. Qed.

Lemma count_Dedent_repeat_Dedent n :
  count_Dedent (repeat token_type.Dedent n) = Z.of_nat n.
Proof.
  induction n as [|n IH]; [reflexivity|].
  unfold count_Dedent in *. simpl. lia.
Qed.

Lemma count_plain t :
  plain t = true -> count_Indent [t] = 0 /\ count_Dedent [t] = 0.
Proof. destruct t; simpl; intros H; try discriminate; split; reflexivity. Qed.

Lemma emit_dedents_spec n indent tokens :
  emit_dedents n indent tokens =
  (indent - Z.of_nat n, tokens ++ repeat token_type.Dedent n).
Proof.
  revert indent tokens. induction n as [|n IH]; intros indent tokens.
  - simpl. f_equal; [lia | by rewrite app_nil_r].
  - cbn [emit_dedents]. rewrite IH. f_equal; [lia|].
    rewrite <- app_assoc. reflexivity.
Qed.

Lemma balanced_plain tokens indent t :
  plain t = true -> balanced tokens indent -> balanced (tokens ++ [t]) indent.
Proof.
  intros Ht [H0 Hb]. destruct (count_plain t Ht) as [Hi Hd]. split; [exact H0|].
  rewrite count_Indent_app, count_Dedent_app, Hi, Hd. lia.
Qed.

Lemma AdjustIndentCount_balanced tokens indent space_count indent' tokens' :
  AdjustIndentCount tokens indent space_count = Done (indent', tokens') ->
  balanced tokens indent -> balanced tokens' indent'.
Proof.
  unfold AdjustIndentCount. intros H [H0 Hb].
  destruct (negb (Z.rem space_count 2 =? 0)); [discriminate|].
  destruct (Z.quot space_count 2 - indent >? 1); [discriminate|].
  destruct (Z.quot space_count 2 - indent =? 1).
  { inversion H; subst. split; [lia|].
    rewrite count_Indent_app, count_Dedent_app.
    change (count_Indent [token_type.Indent]) with 1.
    change (count_Dedent [token_type.Indent]) with 0. lia. }
  destruct (Z.quot space_count 2 - indent <? 0) eqn:Hneg.
  - rewrite emit_dedents_spec in H.
    destruct (indent - Z.of_nat (Z.to_nat (- (Z.quot space_count 2 - indent))) <? 0) eqn:Hlt;
      [discriminate|].
    inversion H; subst. apply Z.ltb_ge in Hlt. split; [exact Hlt|].
    rewrite count_Indent_app, count_Dedent_app,
      count_Indent_repeat_Dedent, count_Dedent_repeat_Dedent. lia.
  - inversion H; subst. split; assumption.
Qed.

Lemma LoadNumber_tokens input tokens input' tokens' :
  LoadNumber input tokens = Done (input', tokens') ->
  exists t, plain t = true /\ tokens' = tokens ++ [t].
Proof.
  unfold LoadNumber. destruct (peek input) as [r i1].
  destruct (if peek_is "0" r then _ else _) as [[i2 parsed]|]; [|discriminate].
  destruct (stoi parsed) as [v|]; [|discriminate].
  intros H; inversion H; subst. eexists; split; [|reflexivity]. reflexivity.
Qed.

Lemma LoadString_tokens input tokens input' tokens' :
  LoadString input tokens = Done (input', tokens') ->
  exists t, plain t = true /\ tokens' = tokens ++ [t].
Proof.
  unfold LoadString. destruct (extract_char input) as [r i1].
  destruct (while_ _ _ _) as [[it s]|]; [|discriminate].
  intros H; inversion H; subst. eexists; split; [|reflexivity]. reflexivity.
Qed.

Lemma key_word_plain s t : key_word s = Some t -> plain t = true.
Proof.
  unfold key_word.
  repeat (destruct (String.eqb s _); [intros H; inversion H; reflexivity|]).
  discriminate.
Qed.

Lemma LoadKeyWordOrId_tokens input tokens input' tokens' :
  LoadKeyWordOrId input tokens = (input', tokens') ->
  tokens' = tokens \/ exists t, plain t = true /\ tokens' = tokens ++ [t].
Proof.
  unfold LoadKeyWordOrId.
  destruct (while_ _ _ _) as [[i1 s]|].
  - destruct (key_word s) as [t|] eqn:Hk; intros H; inversion H; subst; right.
    + exists t. split; [eapply key_word_plain; eassumption | reflexivity].
    + eexists; split; [|reflexivity]. reflexivity.
  - intros H; inversion H; subst. left; reflexivity.
Qed.

Lemma digraph_tokens input tokens with_eq alone input' tokens' :
  plain with_eq = true ->
  (forall t, alone = Some t -> plain t = true) ->
  digraph input tokens with_eq alone = (input', tokens') ->
  tokens' = tokens \/ exists t, plain t = true /\ tokens' = tokens ++ [t].
Proof.
  unfold digraph. intros Hw Ha. destruct (peek input) as [r i1].
  destruct (peek_is "=" r).
  - destruct (get i1) as [r2 i2]. intros H; inversion H; subst.
    right; eauto.
  - destruct alone as [t|]; intros H; inversion H; subst; [right|left]; eauto.
Qed.

Ltac break_match_hyp H :=
  match type of H with
  | context [match ?x with _ => _ end] =>
      match type of x with
      | sumbool _ _ => destruct x
      | _ => destruct x eqn:?
      end
  end.

Lemma ReadInput_body_balanced st st' :
  ReadInput_body st = Continue st' \/ ReadInput_body st = Break st' ->
  balanced (tokens_ st) (indent_count st) ->
  balanced (tokens_ st') (indent_count st').
Proof.
  destruct st as [inp tokens sb lb indent]. unfold ReadInput_body.
  intros H Hbal. cbn [tokens_ indent_count] in Hbal.
  assert (Hstep : forall tokens',
      tokens' = tokens \/ (exists t, plain t = true /\ tokens' = tokens ++ [t]) ->
      balanced tokens' indent).
  { intros tokens' [->|(t & Ht & ->)]; [assumption|]. by apply balanced_plain. }
  destruct H as [H|H];
    repeat (break_match_hyp H; try discriminate);
    inversion H; subst; clear H; cbn [tokens_ indent_count];
    try assumption;
    try (eapply AdjustIndentCount_balanced; eassumption);
    try (apply Hstep; first
           [ eapply LoadKeyWordOrId_tokens; eassumption
           | right; eapply LoadNumber_tokens; eassumption
           | right; eapply LoadString_tokens; eassumption
           | eapply digraph_tokens; [| |eassumption];
               [reflexivity | intros ? [= <-]; reflexivity]
           | eapply digraph_tokens; [| |eassumption];
               [reflexivity | intros ? [=]]
           | right; eexists; split; [|reflexivity]; reflexivity ]).
Qed.

(** The state in which the loop of [ReadInput] is left is balanced. *)
Lemma ReadInput_loop_balanced bytes st :
  ReadInput_loop bytes = Done st -> balanced (tokens_ st) (indent_count st).
Proof.
  unfold ReadInput_loop.
  apply (while_invariant ReadInput_body
           (fun st => balanced (tokens_ st) (indent_count st))).
  - intros s s' Hs Hb. eapply ReadInput_body_balanced; eauto.
  - intros s s' Hs Hb. eapply ReadInput_body_balanced; eauto.
  - split; [cbn; lia | reflexivity].
Qed.

Lemma ReadInput_inv bytes tokens :
  ReadInput bytes = Done tokens ->
  exists st, ReadInput_loop bytes = Done st /\
             tokens = ReadInput_finish (tokens_ st) (indent_count st).
Proof.
  unfold ReadInput. destruct (ReadInput_loop bytes) as [st|]; [|discriminate].
  intros [= <-]. eauto.
Qed.

Lemma back_is_Newline_true tokens :
  back_is_Newline tokens = true -> exists pre, tokens = pre ++ [token_type.Newline].
Proof.
  unfold back_is_Newline. destruct (last tokens) as [t|] eqn:Hl; [|discriminate].
  intros Ht. apply last_Some in Hl as [pre ->]. exists pre.
  destruct t; try discriminate. reflexivity.
Qed.

(** The tokens that [ReadInput] appends after the loop. *)
Lemma ReadInput_finish_shape tokens indent :
  balanced tokens indent ->
  match tokens with
  | [] => ReadInput_finish tokens indent = [token_type.Eof]
  | _ :: _ =>
      exists pre,
        (tokens = pre ++ [token_type.Newline] \/
         (back_is_Newline tokens = false /\ tokens = pre)) /\
        ReadInput_finish tokens indent =
          pre ++ [token_type.Newline]
              ++ repeat token_type.Dedent (Z.to_nat indent) ++ [token_type.Eof] /\
        count_Indent pre = count_Dedent pre + indent
  end.
Proof.
  intros [H0 Hb]. destruct tokens as [|t0 tokens'] eqn:Htok.
  - unfold ReadInput_finish. cbn [is_empty negb andb].
    change (count_Indent []) with 0 in Hb. change (count_Dedent []) with 0 in Hb.
    assert (indent = 0) as -> by lia. reflexivity.
  - rewrite <- Htok in *. unfold ReadInput_finish.
    assert (is_empty tokens = false) as -> by (subst; reflexivity).
    cbn [negb andb].
    assert (Hd : forall l,
      (if indent >? 0 then snd (emit_dedents (Z.to_nat indent) indent l) else l)
      = l ++ repeat token_type.Dedent (Z.to_nat indent)).
    { intros l. destruct (indent >? 0) eqn:Hpos.
      - rewrite emit_dedents_spec. reflexivity.
      - assert (indent = 0) as -> by lia. cbn. by rewrite app_nil_r. }
    rewrite Hd. destruct (back_is_Newline tokens) eqn:Hnl; cbn [negb].
    + destruct (back_is_Newline_true _ Hnl) as [pre Hpre]. exists pre.
      split; [left; exact Hpre|]. split.
      * rewrite Hpre, <- !app_assoc. reflexivity.
      * rewrite Hpre, count_Indent_app, count_Dedent_app in Hb.
        change (count_Indent [token_type.Newline]) with 0 in Hb.
        change (count_Dedent [token_type.Newline]) with 0 in Hb. lia.
    + exists tokens. split; [right; split; [reflexivity|reflexivity]|]. split.
      * rewrite <- !app_assoc. reflexivity.
      * exact Hb.
Qed.

(** *** The loops of the lexer stop

    Every loop of the lexer is run by [while_] with a counter above a
    measure that each turn decreases, so no loop is cut short: by
    [while_fuel] a larger counter gives the same result. *)

Lemma get_spec s r s' :
  get s = (r, s') ->
  (length (buf s') <= length (buf s))%nat /\
  (to_bool s' = true -> good s' = true /\ exists c, r = Some c /\ buf s = c :: buf s') /\
  (to_bool s = false -> to_bool s' = false) /\
  (to_bool s' = false -> r = Datatypes.None).
Proof.
  unfold get, good, to_bool. destruct s as [b e f]. cbn.
  destruct e, f, b as [|c b']; cbn; intros [= <- <-]; cbn;
    repeat split; try lia; try discriminate; try reflexivity; eauto.
Qed.

Lemma peek_spec s r s' :
  peek s = (r, s') ->
  buf s' = buf s /\
  (forall c, r = Some c -> s' = s /\ good s = true /\ exists rest, buf s = c :: rest).
Proof.
  unfold peek. destruct (good s) eqn:Hg.
  - destruct (buf s) as [|c b'] eqn:Hb; intros [= <- <-]; cbn.
    + split; [reflexivity | discriminate].
    + split; [exact Hb|]. intros c' [= <-]. eauto.
  - intros [= <- <-]. cbn. split; [reflexivity | discriminate].
Qed.

Lemma putback_good c s :
  good s = true -> putback c s = mk_istream (c :: buf s) false false.
Proof.
  unfold good, putback. destruct (eofbit s), (failbit s); cbn; try discriminate.
  reflexivity.
Qed.

Lemma to_char_not_EOF r c : to_char r = c -> c <> EOF_char -> r = Some c.
Proof. destruct r; cbn; congruence. Qed.

(** The first turn of a loop. *)
Lemma while_unfold {S} n (body : S -> loop_ctl S) s :
  while_ (Datatypes.S n) body s =
  match body s with
  | Continue s' => while_ n body s'
  | Break s' => Done s'
  | Throw msg => Thrown msg
  end.
Proof. reflexivity. Qed.

(** **** [SkipComment] *)

Lemma SkipComment_body_decreases s s' :
  SkipComment_body s = Continue s' ->
  (SkipComment_measure s' < SkipComment_measure s)%nat.
Proof.
  unfold SkipComment_body, SkipComment_measure.
  destruct (to_bool s) eqn:Hb; [|discriminate].
  destruct (get s) as [r s1] eqn:Hg.
  destruct (to_char r =? nl)%char; [discriminate|]. intros [= <-].
  destruct (get_spec _ _ _ Hg) as (Hlen & Hok & _ & _).
  destruct (to_bool s1) eqn:Hb1; [|lia].
  destruct (Hok eq_refl) as (_ & c & _ & Hbuf). rewrite Hbuf. cbn. lia.
Qed.

Lemma SkipComment_fuel input k :
  (2 + length (buf input) <= k)%nat ->
  while_ k SkipComment_body input =
  while_ (2 + length (buf input)) SkipComment_body input.
Proof.
  intros Hk. symmetry.
  apply (while_fuel SkipComment_body SkipComment_measure SkipComment_body_decreases);
    [|exact Hk].
  unfold SkipComment_measure. destruct (to_bool input); lia.
Qed.

Lemma SkipComment_body_length s s' :
  SkipComment_body s = Continue s' \/ SkipComment_body s = Break s' ->
  (length (buf s') <= length (buf s))%nat /\
  (good s' = true -> (length (buf s') < length (buf s))%nat).
Proof.
  unfold SkipComment_body, good, to_bool.
  destruct (negb (failbit s)) eqn:Hb.
  - destruct (get s) as [r s1] eqn:Hg.
    destruct (get_spec _ _ _ Hg) as (Hlen & Hok & _ & _).
    intros H. assert (s' = s1) as ->.
    { destruct (to_char r =? nl)%char; destruct H as [H|H]; congruence. }
    split; [exact Hlen|]. intros Hgood.
    unfold to_bool, good in Hok.
    destruct (failbit s1); [rewrite andb_false_r in Hgood; discriminate|].
    destruct (Hok eq_refl) as (_ & c & _ & Hbuf). rewrite Hbuf. cbn. lia.
  - intros [H|H]; [discriminate|]. injection H as <-. split; [lia|].
    rewrite Hb, andb_false_r. discriminate.
Qed.

Lemma SkipComment_length input :
  (length (buf (SkipComment input)) <= length (buf input))%nat /\
  (good (SkipComment input) = true ->
   (length (buf (SkipComment input)) < length (buf input))%nat).
Proof.
  unfold SkipComment. change (2 + length (buf input))%nat with (S (S (length (buf input)))).
  rewrite while_unfold.
  destruct (SkipComment_body input) as [s1|s1|msg] eqn:Hb.
  - destruct (SkipComment_body_length input s1 (or_introl Hb)) as [H1 H2].
    destruct (while_ _ SkipComment_body s1) as [s2|msg] eqn:Hw.
    + pose proof (while_invariant SkipComment_body
        (fun s => (length (buf s) <= length (buf input))%nat /\
                  (good s = true -> (length (buf s) < length (buf input))%nat))) as Hinv.
      apply (Hinv) with (s' := s2) in Hw; [exact Hw| | |split; assumption].
      * intros s s' [Ha Hb'] Hc.
        destruct (SkipComment_body_length s s' (or_introl Hc)) as [H3 H4].
        split; [lia|]. intros Hg. specialize (H4 Hg). lia.
      * intros s s' [Ha Hb'] Hc.
        destruct (SkipComment_body_length s s' (or_intror Hc)) as [H3 H4].
        split; [lia|]. intros Hg. specialize (H4 Hg). lia.
    + split; [lia|]. intros Hg.
      unfold SkipComment_body in Hb. destruct (to_bool input) eqn:Htb; [|discriminate].
      destruct (get input) as [r s0] eqn:Hget.
      destruct (to_char r =? nl)%char eqn:Hc; [discriminate|].
      exfalso. clear H1 H2.
      assert (Hnever : forall n s, while_ n SkipComment_body s <> Thrown msg).
      { intros n. induction n as [|n IH]; intros s; cbn; [discriminate|].
        unfold SkipComment_body at 1. destruct (to_bool s); [|discriminate].
        destruct (get s) as [r' s'']. destruct (to_char r' =? nl)%char; [discriminate|].
        apply IH. }
      eapply Hnever. exact Hw.
  - apply (SkipComment_body_length input s1). right. exact Hb.
  - unfold SkipComment_body in Hb. destruct (to_bool input); [|discriminate].
    destruct (get input) as [r s0]. destruct (to_char r =? nl)%char; discriminate.
Qed.

(** **** [IsNonemptyLine] *)

Lemma IsNonemptyLine_body_decreases st st' :
  IsNonemptyLine_body st = Continue st' ->
  (length (buf (fst (fst st'))) < length (buf (fst (fst st))))%nat.
Proof.
  destruct st as [[i c] n]. unfold IsNonemptyLine_body.
  destruct (to_bool i); [|discriminate].
  destruct (get i) as [r i1] eqn:Hg.
  destruct (negb (to_char r =? space)%char) eqn:Hc; [discriminate|].
  intros [= <-]. cbn.
  apply negb_false_iff, Ascii.eqb_eq in Hc.
  apply to_char_not_EOF in Hc; [|discriminate].
  unfold get in Hg. destruct (good i); [|congruence].
  destruct (buf i) as [|c0 b]; [congruence|].
  injection Hg as _ <-. cbn. lia.
Qed.

Lemma IsNonemptyLine_fuel input k :
  (2 + length (buf input) <= k)%nat ->
  while_ k IsNonemptyLine_body (input, EOF_char, 0) =
  while_ (2 + length (buf input)) IsNonemptyLine_body (input, EOF_char, 0).
Proof.
  intros Hk. symmetry.
  apply (while_fuel IsNonemptyLine_body (fun st => length (buf (fst (fst st))))
           IsNonemptyLine_body_decreases); [cbn; lia | exact Hk].
Qed.

(** After a turn, [c] is the character that was read, if one was. *)
Lemma IsNonemptyLine_body_length st st' :
  IsNonemptyLine_body st = Continue st' \/ IsNonemptyLine_body st = Break st' ->
  to_bool (fst (fst st)) = true ->
  (length (buf (fst (fst st'))) <= length (buf (fst (fst st))))%nat /\
  snd st <= snd st' /\
  (to_bool (fst (fst st')) = true ->
   good (fst (fst st')) = true /\
   (length (buf (fst (fst st'))) < length (buf (fst (fst st))))%nat).
Proof.
  destruct st as [[i c] n]. unfold IsNonemptyLine_body. cbn [fst snd].
  intros H Hb. rewrite Hb in H.
  destruct (get i) as [r i1] eqn:Hg.
  destruct (get_spec _ _ _ Hg) as (Hlen & Hok & _ & _).
  assert (Hst : fst (fst st') = i1 /\ n <= snd st').
  { destruct (negb (to_char r =? space)%char); destruct H as [H|H];
      try discriminate; injection H as <-; cbn; split; try reflexivity; lia. }
  destruct Hst as [-> Hn]. split; [exact Hlen|]. split; [exact Hn|].
  intros Hb1. destruct (Hok Hb1) as (Hgood & c0 & _ & Hbuf).
  split; [exact Hgood|]. rewrite Hbuf. cbn. lia.
Qed.

Lemma IsNonemptyLine_length input1 space_count input2 :
  good input1 = true ->
  IsNonemptyLine (putback space input1) = (space_count, input2) ->
  (length (buf input2) <= S (length (buf input1)))%nat /\
  (space_count = 0 -> (length (buf input2) <= length (buf input1))%nat).
Proof.
  intros Hgood. rewrite (putback_good _ _ Hgood). unfold IsNonemptyLine.
  cbn [buf]. change (2 + length (space :: buf input1))%nat
    with (S (S (S (length (buf input1))))).
  rewrite while_unfold.
  change (IsNonemptyLine_body (mk_istream (space :: buf input1) false false, EOF_char, 0))
    with (@Continue (istream * ascii * Z) (mk_istream (buf input1) false false, space, 0 + 1)).
  cbv iota.
  destruct (while_ _ IsNonemptyLine_body _) as [[[i c] n]|msg] eqn:Hw.
  - pose proof (while_invariant IsNonemptyLine_body
      (fun st => (length (buf (fst (fst st))) <= length (buf input1))%nat /\
                 1 <= snd st /\
                 (to_bool (fst (fst st)) = true ->
                  good (fst (fst st)) = true /\
                  (snd (fst st) <> space ->
                   (length (buf (fst (fst st))) < length (buf input1))%nat)))) as Hinv.
    apply Hinv in Hw; clear Hinv.
    + cbn [fst snd] in Hw. destruct Hw as (Hlen & Hn & Hok).
      destruct (negb (to_bool i)) eqn:Hb.
      { intros [= <- <-]. split; intros; lia. }
      apply negb_false_iff in Hb. destruct (Hok Hb) as [Hg Hlt].
      destruct (c =? nl)%char eqn:Hnl.
      { intros [= <- <-]. split; intros; lia. }
      destruct (c =? "#")%char eqn:Hsh.
      { intros [= <- <-]. pose proof (proj1 (SkipComment_length i)). split; intros; lia. }
      intros [= <- <-]. rewrite (putback_good _ _ Hg). cbn [buf length].
      split; [lia|]. intros ->. lia.
    + intros st st' (Hlen & Hn & Hok) Hc.
      destruct (to_bool (fst (fst st))) eqn:Hb.
      * destruct (IsNonemptyLine_body_length st st' (or_introl Hc) Hb) as (H1 & H2 & H3).
        split; [lia|]. split; [lia|]. intros Hb'. destruct (H3 Hb') as [Hg Hlt].
        split; [exact Hg|]. intros _. lia.
      * destruct st as [[i0 c0] n0]. cbn in Hb. unfold IsNonemptyLine_body in Hc.
        rewrite Hb in Hc. discriminate.
    + intros st st' (Hlen & Hn & Hok) Hc.
      destruct (to_bool (fst (fst st))) eqn:Hb.
      * destruct (IsNonemptyLine_body_length st st' (or_intror Hc) Hb) as (H1 & H2 & H3).
        split; [lia|]. split; [lia|]. intros Hb'. destruct (H3 Hb') as [Hg Hlt].
        split; [exact Hg|]. intros _. lia.
      * destruct st as [[i0 c0] n0]. cbn in Hb. unfold IsNonemptyLine_body in Hc.
        rewrite Hb in Hc. injection Hc as <-. cbn [fst snd] in *.
        split; [lia|]. split; [lia|]. rewrite Hb. discriminate.
    + cbn [fst snd buf]. split; [lia|]. split; [lia|].
      intros _. split; [reflexivity|]. intros Hne. exfalso. apply Hne. reflexivity.
  - intros [= <- <-]. cbn [buf length]. split; [lia|]. intros _.
    exfalso.
    assert (Hnever : forall n st, while_ n IsNonemptyLine_body st <> Thrown msg).
    { intros n. induction n as [|n IH]; intros [[i0 c0] n0]; cbn; [discriminate|].
      destruct (to_bool i0); [|discriminate].
      destruct (get i0) as [r' i']. destruct (negb _); [discriminate|]. apply IH. }
    eapply Hnever. exact Hw.
Qed.

(** **** [LoadNumber] *)

Lemma read_char_length i p i' p' :
  read_char (i, p) = Done (i', p') ->
  (length (buf i') <= length (buf i))%nat /\
  good i' = true /\ exists c, buf i = c :: buf i'.
Proof.
  unfold read_char. destruct (get i) as [r i1] eqn:Hg.
  destruct (negb (to_bool i1)) eqn:Hb; [discriminate|]. intros [= <- <-].
  apply negb_false_iff in Hb.
  destruct (get_spec _ _ _ Hg) as (Hlen & Hok & _ & _).
  destruct (Hok Hb) as (Hgood & c & _ & Hbuf). eauto.
Qed.

Lemma read_digits_body_decreases st st' :
  read_digits_body st = Continue st' ->
  good (fst st') = true /\
  (length (buf (fst st')) < length (buf (fst st)))%nat.
Proof.
  destruct st as [i p]. unfold read_digits_body.
  destruct (peek i) as [r i1] eqn:Hp.
  destruct (isdigit_int r) eqn:Hd; [|discriminate].
  destruct (read_char (i1, p)) as [[i2 p2]|msg] eqn:Hr; [|discriminate].
  intros [= <-]. cbn [fst].
  destruct (peek_spec _ _ _ Hp) as [Hbuf _].
  destruct (read_char_length _ _ _ _ Hr) as (_ & Hg & c & Hc).
  split; [exact Hg|]. rewrite <- Hbuf, Hc. cbn. lia.
Qed.

Lemma read_digits_body_Break st st' :
  read_digits_body st = Break st' -> buf (fst st') = buf (fst st).
Proof.
  destruct st as [i p]. unfold read_digits_body.
  destruct (peek i) as [r i1] eqn:Hp.
  destruct (isdigit_int r); [destruct (read_char (i1, p)) as [[? ?]|]; discriminate|].
  intros [= <-]. cbn. apply (peek_spec _ _ _ Hp).
Qed.

Lemma read_digits_fuel input parsed_num k :
  (2 + length (buf input) <= k)%nat ->
  while_ k read_digits_body (input, parsed_num) =
  while_ (2 + length (buf input)) read_digits_body (input, parsed_num).
Proof.
  intros Hk. symmetry.
  apply (while_fuel read_digits_body (fun st => length (buf (fst st)))); [|cbn; lia|exact Hk].
  intros st st' H. apply (read_digits_body_decreases st st' H).
Qed.

Lemma read_digits_loop_length n st st' :
  while_ n read_digits_body st = Done st' ->
  (length (buf (fst st')) <= length (buf (fst st)))%nat.
Proof.
  apply (while_invariant read_digits_body
           (fun s => (length (buf (fst s)) <= length (buf (fst st)))%nat)).
  - intros s s' Hs Hc. pose proof (proj2 (read_digits_body_decreases s s' Hc)). lia.
  - intros s s' Hs Hc. rewrite (read_digits_body_Break s s' Hc). exact Hs.
  - lia.
Qed.

(** [LoadNumber], called on a stream that starts with a digit, consumes
    at least that digit. *)
Lemma LoadNumber_length c input1 tokens input' tokens' :
  good input1 = true -> isdigit c = true ->
  LoadNumber (putback c input1) tokens = Done (input', tokens') ->
  (length (buf input') <= length (buf input1))%nat.
Proof.
  intros Hgood Hd. rewrite (putback_good _ _ Hgood). unfold LoadNumber.
  change (peek (mk_istream (c :: buf input1) false false))
    with (Some c, mk_istream (c :: buf input1) false false).
  cbv iota. destruct (peek_is "0" (Some c)).
  - unfold read_char. cbn [get good eofbit failbit buf negb andb to_bool].
    destruct (stoi _); [|discriminate]. intros [= <- _]. cbn. lia.
  - unfold read_digits.
    change (peek (mk_istream (c :: buf input1) false false))
      with (Some c, mk_istream (c :: buf input1) false false).
    cbv iota. cbn [isdigit_int]. rewrite Hd. cbn [negb].
    cbn [buf]. change (2 + length (c :: buf input1))%nat
      with (S (S (S (length (buf input1))))).
    rewrite while_unfold.
    unfold read_digits_body at 1.
    change (peek (mk_istream (c :: buf input1) false false))
      with (Some c, mk_istream (c :: buf input1) false false).
    cbv iota. cbn [isdigit_int]. rewrite Hd.
    unfold read_char. cbn [get good eofbit failbit buf negb andb to_bool].
    destruct (while_ _ read_digits_body _) as [[i2 p2]|msg] eqn:Hw; [|discriminate].
    apply read_digits_loop_length in Hw. cbn [fst buf] in Hw.
    destruct (stoi p2); [|discriminate]. intros [= <- _]. exact Hw.
Qed.

(** **** [LoadString] *)

Lemma LoadString_body_decreases quote st st' :
  LoadString_body quote st = Continue st' \/ LoadString_body quote st = Break st' ->
  (length (fst st') < length (fst st))%nat.
Proof.
  destruct st as [it s]. unfold LoadString_body.
  destruct it as [|ch it1]; [intros [H|H]; discriminate|].
  destruct (ch =? quote)%char.
  { intros [H|H]; [discriminate|]. injection H as <-. cbn. lia. }
  destruct (ch =? backslash)%char.
  - destruct it1 as [|e it2]; [intros [H|H]; discriminate|].
    repeat (destruct (e =? _)%char;
            [intros [H|H]; [injection H as <-; cbn; lia | discriminate]|]).
    intros [H|H]; discriminate.
  - intros [H|H]; [injection H as <-; cbn; lia | discriminate].
Qed.

Lemma LoadString_fuel quote it k :
  (1 + length it <= k)%nat ->
  while_ k (LoadString_body quote) (it, "") =
  while_ (1 + length it) (LoadString_body quote) (it, "").
Proof.
  intros Hk. symmetry.
  apply (while_fuel (LoadString_body quote) (fun st => length (fst st)));
    [|cbn; lia|exact Hk].
  intros st st' H. apply (LoadString_body_decreases quote st st'). left. exact H.
Qed.

(** [LoadString], called on a stream that starts with a quote, consumes at
    least that quote. *)
Lemma LoadString_length c input1 tokens input' tokens' :
  good input1 = true -> isspace c = false ->
  LoadString (putback c input1) tokens = Done (input', tokens') ->
  (length (buf input') <= length (buf input1))%nat.
Proof.
  intros Hgood Hc. rewrite (putback_good _ _ Hgood). unfold LoadString, extract_char.
  cbn [good eofbit failbit negb andb buf skip_ws]. rewrite Hc. cbn [buf to_char].
  destruct (while_ _ (LoadString_body c) _) as [[it s]|msg] eqn:Hw; [|discriminate].
  intros [= <- _]. cbn [buf].
  apply (while_invariant (LoadString_body c)
           (fun st => (length (fst st) <= length (buf input1))%nat)) in Hw.
  - exact Hw.
  - intros st st' Hs H.
    pose proof (LoadString_body_decreases c st st' (or_introl H)). lia.
  - intros st st' Hs H.
    pose proof (LoadString_body_decreases c st st' (or_intror H)). lia.
  - cbn. lia.
Qed.

(** **** [LoadKeyWordOrId] *)

Lemma LoadKeyWordOrId_body_length st st' :
  LoadKeyWordOrId_body st = Continue st' \/ LoadKeyWordOrId_body st = Break st' ->
  (length (buf (fst st')) <= length (buf (fst st)))%nat /\
  (LoadKeyWordOrId_body st = Continue st' ->
   (length (buf (fst st')) < length (buf (fst st)))%nat).
Proof.
  destruct st as [i s]. unfold LoadKeyWordOrId_body. cbn [fst].
  destruct (to_bool i) eqn:Hb.
  2:{ intros [H|H]; [discriminate|]. injection H as <-. cbn. split; [lia|discriminate]. }
  destruct (get i) as [r i1] eqn:Hg.
  destruct (get_spec _ _ _ Hg) as (Hlen & Hok & _ & _).
  destruct (negb (good i1)) eqn:Hgood.
  { intros [H|H]; [discriminate|]. injection H as <-. cbn. split; [lia|discriminate]. }
  apply negb_false_iff in Hgood.
  assert (Hb1 : to_bool i1 = true).
  { unfold good, to_bool in *. destruct (failbit i1); [|reflexivity].
    rewrite andb_false_r in Hgood. discriminate. }
  destruct (Hok Hb1) as (_ & c & -> & Hbuf). cbn [to_char].
  rewrite (putback_good _ _ Hgood).
  destruct (_ || _ || _).
  { intros [H|H]; [discriminate|]. injection H as <-. rewrite Hbuf. cbn.
    split; [lia|discriminate]. }
  destruct (_ && _ && _).
  { intros [H|H]; [discriminate|]. injection H as <-. rewrite Hbuf. cbn.
    split; [lia|discriminate]. }
  intros [H|H]; [|discriminate]. injection H as <-. rewrite Hbuf. cbn.
  split; [lia|]. intros _. lia.
Qed.

Lemma LoadKeyWordOrId_fuel input k :
  (2 + length (buf input) <= k)%nat ->
  while_ k LoadKeyWordOrId_body (input, "") =
  while_ (2 + length (buf input)) LoadKeyWordOrId_body (input, "").
Proof.
  intros Hk. symmetry.
  apply (while_fuel LoadKeyWordOrId_body (fun st => length (buf (fst st))));
    [|cbn; lia|exact Hk].
  intros st st' H.
  apply (proj2 (LoadKeyWordOrId_body_length st st' (or_introl H)) H).
Qed.

(** [LoadKeyWordOrId], called on a stream that starts with a letter or an
    underscore, consumes at least that character. *)
Lemma LoadKeyWordOrId_length c input1 tokens input' tokens' :
  good input1 = true ->
  (c =? "_")%char || isalpha c = true ->
  LoadKeyWordOrId (putback c input1) tokens = (input', tokens') ->
  (length (buf input') <= length (buf input1))%nat.
Proof.
  intros Hgood Hc. rewrite (putback_good _ _ Hgood). unfold LoadKeyWordOrId.
  cbn [buf]. change (2 + length (c :: buf input1))%nat
    with (S (S (S (length (buf input1))))).
  rewrite while_unfold.
  assert (Hfirst : LoadKeyWordOrId_body (mk_istream (c :: buf input1) false false, "")
                   = Continue (mk_istream (buf input1) false false, push_back "" c)).
  { unfold LoadKeyWordOrId_body.
    cbn [to_bool get good eofbit failbit buf negb andb to_char].
    assert (H1 : (c =? space)%char || (c =? nl)%char || (c =? "#")%char = false).
    { destruct (c =? space)%char eqn:E1;
        [apply Ascii.eqb_eq in E1; subst; discriminate|].
      destruct (c =? nl)%char eqn:E2;
        [apply Ascii.eqb_eq in E2; subst; discriminate|].
      destruct (c =? "#")%char eqn:E3;
        [apply Ascii.eqb_eq in E3; subst; discriminate|]. reflexivity. }
    rewrite H1.
    assert (H2 : negb (isalpha c) && negb (isdigit c) && negb (c =? "_")%char = false).
    { apply orb_true_iff in Hc as [Hc|Hc]; rewrite Hc; cbn;
        [apply andb_false_r | reflexivity]. }
    rewrite H2. reflexivity. }
  rewrite Hfirst.
  destruct (while_ _ LoadKeyWordOrId_body _) as [[i2 s2]|msg] eqn:Hw.
  - apply (while_invariant LoadKeyWordOrId_body
             (fun st => (length (buf (fst st)) <= length (buf input1))%nat)) in Hw.
    + cbn [fst] in Hw. destruct (key_word s2); intros [= <- _]; exact Hw.
    + intros st st' Hs H.
      pose proof (proj1 (LoadKeyWordOrId_body_length st st' (or_introl H))). lia.
    + intros st st' Hs H.
      pose proof (proj1 (LoadKeyWordOrId_body_length st st' (or_intror H))). lia.
    + cbn. lia.
  - exfalso.
    assert (Hnever : forall n st, while_ n LoadKeyWordOrId_body st <> Thrown msg).
    { intros n. induction n as [|n IH]; intros [i0 s0]; cbn; [discriminate|].
      destruct (to_bool i0); [|discriminate]. destruct (get i0) as [r' i'].
      destruct (negb (good i')); [discriminate|].
      destruct (_ || _ || _); [discriminate|].
      destruct (_ && _ && _); [discriminate|]. apply IH. }
    eapply Hnever. exact Hw.
Qed.

(** **** Operators *)

Lemma digraph_length input tokens with_eq alone input' tokens' :
  digraph input tokens with_eq alone = (input', tokens') ->
  (length (buf input') <= length (buf input))%nat.
Proof.
  unfold digraph. destruct (peek input) as [r i1] eqn:Hp.
  destruct (peek_spec _ _ _ Hp) as [Hbuf _].
  destruct (peek_is "=" r).
  - destruct (get i1) as [r2 i2] eqn:Hg. intros [= <- _].
    pose proof (proj1 (get_spec _ _ _ Hg)). rewrite <- Hbuf. lia.
  - destruct alone; intros [= <- _]; rewrite Hbuf; lia.
Qed.

(** **** [ReadInput] *)

Lemma quote_not_space c :
  (c =? squote)%char || (c =? dquote)%char = true -> isspace c = false.
Proof.
  intros H. apply orb_true_iff in H as [H|H]; apply Ascii.eqb_eq in H; subst; reflexivity.
Qed.

Lemma ReadInput_body_decreases st st' :
  ReadInput_body st = Continue st' ->
  (ReadInput_measure st' < ReadInput_measure st)%nat.
Proof.
  destruct st as [inp tokens sb lb indent]. unfold ReadInput_body, ReadInput_measure.
  cbn [input is_line_begin]. intros H.
  destruct (negb (to_bool inp)); [discriminate|].
  destruct (get inp) as [r i1] eqn:Hg.
  destruct (negb (good i1)) eqn:Hgood; [discriminate|]. apply negb_false_iff in Hgood.
  destruct (get_spec _ _ _ Hg) as (_ & Hok & _ & _).
  assert (Hb1 : to_bool i1 = true).
  { unfold good, to_bool in *. destruct (failbit i1); [|reflexivity].
    rewrite andb_false_r in Hgood. discriminate. }
  destruct (Hok Hb1) as (_ & c & -> & Hbuf). cbn [to_char] in H.
  rewrite Hbuf. cbn [length]. clear Hg Hok Hbuf inp.
  destruct (sb && (c =? space)%char); [discriminate|].
  pose proof (SkipComment_length i1) as [Hsk1 Hsk2].
  destruct lb.
  - destruct (c =? nl)%char.
    { injection H as <-. cbn [input is_line_begin]. lia. }
    destruct (c =? "#")%char.
    { injection H as <-. cbn [input is_line_begin]. lia. }
    destruct (c =? space)%char eqn:Hsp.
    + apply Ascii.eqb_eq in Hsp. subst c.
      destruct (IsNonemptyLine (putback space i1)) as [space_count i2] eqn:HI.
      destruct (IsNonemptyLine_length _ _ _ Hgood HI) as [HI1 HI2].
      destruct (space_count =? 0) eqn:Hz.
      { apply Z.eqb_eq in Hz. specialize (HI2 Hz).
        injection H as <-. cbn [input is_line_begin]. lia. }
      destruct (is_empty tokens); [discriminate|].
      destruct (AdjustIndentCount tokens indent space_count) as [[i' t']|];
        [|discriminate].
      injection H as <-. cbn [input is_line_begin]. lia.
    + destruct (AdjustIndentCount tokens indent 0) as [[i' t']|]; [|discriminate].
      injection H as <-. cbn [input is_line_begin].
      rewrite (putback_good _ _ Hgood). cbn [buf length]. lia.
  - destruct (isdigit c) eqn:Hd.
    { destruct (LoadNumber (putback c i1) tokens) as [[i2 t2]|] eqn:HL; [|discriminate].
      pose proof (LoadNumber_length _ _ _ _ _ Hgood Hd HL).
      injection H as <-. cbn [input is_line_begin]. lia. }
    destruct ((c =? squote)%char || (c =? dquote)%char) eqn:Hq.
    { destruct (LoadString (putback c i1) tokens) as [[i2 t2]|] eqn:HL; [|discriminate].
      pose proof (LoadString_length _ _ _ _ _ Hgood (quote_not_space _ Hq) HL).
      injection H as <-. cbn [input is_line_begin]. lia. }
    destruct ((c =? "_")%char || isalpha c) eqn:Ha.
    { destruct (LoadKeyWordOrId (putback c i1) tokens) as [i2 t2] eqn:HL.
      pose proof (LoadKeyWordOrId_length _ _ _ _ _ Hgood Ha HL).
      injection H as <-. cbn [input is_line_begin]. lia. }
    destruct (is_operation c).
    { injection H as <-. cbn [input is_line_begin]. lia. }
    repeat match type of H with
    | (if ?b then _ else _) = _ =>
        destruct b;
        [ try (destruct (digraph i1 tokens _ _) as [i2 t2] eqn:HD;
               apply digraph_length in HD);
          injection H as <-; cbn [input is_line_begin]; try lia
        | ]
    end.
    + destruct (good (SkipComment i1)) eqn:Hg2.
      * specialize (Hsk2 eq_refl). rewrite (putback_good _ _ Hg2). cbn [buf length]. lia.
      * lia.
    + injection H as <-. cbn [input is_line_begin]. lia.
Qed.

(** The loop of [ReadInput] is not cut short by its counter. *)
Lemma ReadInput_fuel bytes k :
  (S (ReadInput_measure (ReadInput_start bytes)) <= k)%nat ->
  while_ k ReadInput_body (ReadInput_start bytes) = ReadInput_loop bytes.
Proof.
  intros Hk. unfold ReadInput_loop. symmetry.
  apply (while_fuel ReadInput_body ReadInput_measure ReadInput_body_decreases);
    [lia | exact Hk].
Qed.

(** *** The settled claims about the lexer *)

(** C6 (as amended): when the lexer succeeds, either no token was emitted
    before the end of the input and the result is the single token [Eof],
    or tokens were emitted and the result is those tokens, one [Newline]
    added unless the last of them is a [Newline], then one [Dedent] for
    each indentation level still open ([indent_count]), then [Eof]. *)
Theorem ReadInput_terminator bytes tokens :
  ReadInput bytes = Done tokens ->
  exists st,
    ReadInput_loop bytes = Done st /\
    match tokens_ st with
    | [] => tokens = [token_type.Eof]
    | _ :: _ =>
        exists pre,
          (tokens_ st = pre ++ [token_type.Newline] \/
           (back_is_Newline (tokens_ st) = false /\ tokens_ st = pre)) /\
          tokens = pre ++ [token_type.Newline]
                     ++ repeat token_type.Dedent (Z.to_nat (indent_count st))
                     ++ [token_type.Eof] /\
          count_Indent pre = count_Dedent pre + indent_count st
    end.
Proof.
  intros H. apply ReadInput_inv in H as (st & Hloop & ->).
  exists st. split; [exact Hloop|].
  pose proof (ReadInput_finish_shape _ _ (ReadInput_loop_balanced _ _ Hloop)) as Hs.
  destruct (tokens_ st); exact Hs.
Qed.

Lemma ReadInput_terminator_witness :
  exists st,
    ReadInput_loop (String.list_ascii_of_string nested_source) = Done st /\
    match tokens_ st with
    | [] => True
    | _ :: _ =>
        exists pre,
          (tokens_ st = pre ++ [token_type.Newline] \/
           (back_is_Newline (tokens_ st) = false /\ tokens_ st = pre)) /\
          [ token_type.Id "a"; token_type.Char ":"; token_type.Newline;
            token_type.Indent; token_type.Id "b"; token_type.Char ":";
            token_type.Newline; token_type.Indent; token_type.Id "c";
            token_type.Newline; token_type.Dedent; token_type.Dedent;
            token_type.Eof ]
          = pre ++ [token_type.Newline]
                ++ repeat token_type.Dedent (Z.to_nat (indent_count st))
                ++ [token_type.Eof] /\
          count_Indent pre = count_Dedent pre + indent_count st
    end.
Proof.
  destruct (ReadInput_terminator (String.list_ascii_of_string nested_source)
              [ token_type.Id "a"; token_type.Char ":"; token_type.Newline;
                token_type.Indent; token_type.Id "b"; token_type.Char ":";
                token_type.Newline; token_type.Indent; token_type.Id "c";
                token_type.Newline; token_type.Dedent; token_type.Dedent;
                token_type.Eof ]) as (st & Hloop & Hshape).
  - vm_compute. reflexivity.
  - exists st. split; [exact Hloop|].
    destruct (tokens_ st); [exact I | exact Hshape].
Defined.

(** C6 (as stated) fails on the empty stream: it lexes successfully to the
    single token [Eof], which no [Newline] precedes. *)
Lemma ReadInput_empty_no_Newline :
  ReadInput [] = Done [token_type.Eof] /\
  ~ (exists pre k,
       [token_type.Eof] =
       pre ++ [token_type.Newline] ++ repeat token_type.Dedent k ++ [token_type.Eof]).
Proof.
  split; [reflexivity|].
  intros (pre & k & H).
  apply (f_equal (fun l => length l)) in H.
  rewrite !length_app in H. cbn in H. lia.
Qed.

(** C7: when the lexer succeeds, its token sequence has as many [Indent]
    tokens as [Dedent] tokens. *)
Theorem ReadInput_Indent_Dedent_balance bytes tokens :
  ReadInput bytes = Done tokens ->
  count_Indent tokens = count_Dedent tokens.
Proof.
  intros H. apply ReadInput_inv in H as (st & Hloop & ->).
  pose proof (ReadInput_loop_balanced _ _ Hloop) as Hbal.
  pose proof (ReadInput_finish_shape _ _ Hbal) as Hs.
  destruct Hbal as [H0 _].
  destruct (tokens_ st) as [|t0 ts].
  - rewrite Hs. reflexivity.
  - destruct Hs as (pre & _ & -> & Hpre).
    rewrite !count_Indent_app, !count_Dedent_app,
      count_Indent_repeat_Dedent, count_Dedent_repeat_Dedent.
    change (count_Indent [token_type.Newline]) with 0.
    change (count_Dedent [token_type.Newline]) with 0.
    change (count_Indent [token_type.Eof]) with 0.
    change (count_Dedent [token_type.Eof]) with 0.
    lia.
Qed.

Lemma ReadInput_Indent_Dedent_balance_witness :
  count_Indent
    [ token_type.Id "a"; token_type.Char ":"; token_type.Newline;
      token_type.Indent; token_type.Id "b"; token_type.Char ":";
      token_type.Newline; token_type.Indent; token_type.Id "c";
      token_type.Newline; token_type.Dedent; token_type.Dedent;
      token_type.Eof ]
  = count_Dedent
    [ token_type.Id "a"; token_type.Char ":"; token_type.Newline;
      token_type.Indent; token_type.Id "b"; token_type.Char ":";
      token_type.Newline; token_type.Indent; token_type.Id "c";
      token_type.Newline; token_type.Dedent; token_type.Dedent;
      token_type.Eof ].
Proof.
  apply (ReadInput_Indent_Dedent_balance
           (String.list_ascii_of_string nested_source)).
  vm_compute. reflexivity.
Defined.

(** *** Lex errors *)

Example lex_leading_space :
  lex " x" = Thrown "Space in the begining of istream".
Proof. vm_compute. reflexivity. Qed.

Example lex_odd_indent :
  lex ("x" +:+ newline_str +:+ "   x = 1") = Thrown "Odd space count in indent".
Proof. vm_compute. reflexivity. Qed.

Example lex_too_much_indent :
  lex ("x" +:+ newline_str +:+ "    x = 1")
  = Thrown "Trying to make more indent than needs".
Proof. vm_compute. reflexivity. Qed.

(** A stream of blank lines and comments only has no token but [Eof]. *)
Example lex_comment_only :
  lex (newline_str +:+ "# nothing here" +:+ newline_str +:+ newline_str)
  = Done [token_type.Eof].
Proof. vm_compute. reflexivity. Qed.

End lexer_facts.

(** ** Unfolding lemmas *)

Module runtime_basics.
Import runtime runtime_spec.

Lemma Execute_S classes fuel stmt :
  Execute classes (S fuel) stmt =
  Execute_node classes (Execute classes fuel) (Print_instance classes fuel) stmt.
Proof. reflexivity. Qed.

Lemma Print_instance_S classes fuel inst :
  Print_instance classes (S fuel) inst =
  ClassInstance_Print classes (Execute classes fuel) (Print_instance classes fuel) inst.
Proof. reflexivity. Qed.

Lemma HasMethod_state classes p method argc w :
  snd (HasMethod classes p method argc w) = w.
Proof.
  unfold HasMethod. destruct (class_of classes w p) as [c|]; [|reflexivity].
  destruct (GetMethod c method) as [m|]; [|reflexivity].
  destruct (negb _); reflexivity.
Qed.

(** The functions that read the state and leave it as it is. *)

Lemma Fields_state inst w : snd (Fields inst w) = w.
Proof. unfold Fields. destruct (heap w !! inst); reflexivity. Qed.

Lemma VariableValue_fields_state inst ids w :
  snd (VariableValue_fields inst ids w) = w.
Proof.
  revert inst. induction ids as [|id ids IH]; intros inst; [reflexivity|].
  cbn [VariableValue_fields]. unfold bind, Fields.
  destruct ids as [|id2 ids'].
  - destruct (heap w !! inst) as [obj|]; [|reflexivity]. cbn.
    destruct (fields_ obj !! id); reflexivity.
  - destruct (heap w !! inst) as [obj|]; [|reflexivity]. cbn.
    destruct (fields_ obj !! id) as [v|]; [|reflexivity].
    destruct (TryAs_ClassInstance v) as [next|]; [|reflexivity].
    apply IH.
Qed.

Lemma VariableValue_Execute_state dotted_ids s :
  snd (VariableValue_Execute dotted_ids s) = s.
Proof.
  destruct s as [closure w]. unfold VariableValue_Execute.
  destruct dotted_ids as [|front ids]; [reflexivity|].
  destruct (closure !! front) as [obj|]; [|reflexivity].
  destruct ids as [|id ids]; [reflexivity|].
  destruct (TryAs_ClassInstance obj) as [p|]; [|reflexivity].
  cbn [in_world]. pose proof (VariableValue_fields_state p (id :: ids) w) as H.
  destruct (VariableValue_fields p (id :: ids) w) as [o w1]. cbn in *. congruence.
Qed.

Lemma ThrowClassIntanceCastError_state {A} classes obj where_ w :
  snd (@ThrowClassIntanceCastError classes A obj where_ w) = w.
Proof.
  destruct obj as [[v|v|v|c|p]|]; try reflexivity.
  cbn. destruct (classes c); reflexivity.
Qed.

(** The loop of [Compound] over two lists, one after the other. *)
Lemma Compound_loop_app exec a b s :
  Compound_loop exec (a ++ b) s
  = match Compound_loop exec a s with
    | (Normal _, s1) => Compound_loop exec b s1
    | r => r
    end.
Proof.
  revert s. induction a as [|stmt a IH]; intros s; [reflexivity|].
  cbn [app Compound_loop]. unfold bind.
  destruct (exec stmt s) as [[v| | | |] s1]; try reflexivity. apply IH.
Qed.

End runtime_basics.

(** ** Results that agree: the evaluator only looks at normal returns

    Every node and runtime function treats the outcomes of the calls it
    makes through [bind]; only [MethodBody] looks for [ReturnObj]. So
    two evaluators whose results [agree] give nodes whose results
    [agree]. This is used twice: for the exception [ReturnObj] and for
    the fuel. *)

Module agree_facts.
Import runtime runtime_spec.

Section Agree.
Variables bl br : Kind -> bool.
Hypothesis bl_Normal : bl KNormal = false.
Hypothesis br_Normal : br KNormal = false.

Local Notation "r' ~ r" := (agree bl br r' r) (at level 70).

Lemma agree_refl {S A} (r : Outcome A * S) : r ~ r.
Proof. right; right; reflexivity. Qed.

Lemma agree_bind {S A B} (m' m : St S A) (k' k : A -> St S B) s :
  m' s ~ m s ->
  (forall a s1, k' a s1 ~ k a s1) ->
  bind m' k' s ~ bind m k s.
Proof.
  intros [Hl|[Hr|He]] Hk; unfold agree, bind in *.
  - left. destruct (m' s) as [[a| | | |] s1]; cbn in *; try assumption. congruence.
  - right; left. destruct (m s) as [[a| | | |] s1]; cbn in *; try assumption. congruence.
  - rewrite He. destruct (m s) as [[a| | | |] s1]; try (right; right; reflexivity).
    apply Hk.
Qed.

Lemma agree_in_world {A} (m' m : St World A) s :
  (forall w, m' w ~ m w) -> in_world m' s ~ in_world m s.
Proof.
  intros H. destruct s as [c w]. specialize (H w). unfold agree, in_world in *.
  destruct (m' w) as [o' w1'], (m w) as [o w1]. cbn in *.
  destruct H as [H|[H|H]]; [left; exact H | right; left; exact H |].
  right; right. congruence.
Qed.

Lemma agree_run_body {A} (m' m : St (Closure * World) A) closure w :
  m' (closure, w) ~ m (closure, w) -> run_body m' closure w ~ run_body m closure w.
Proof.
  unfold agree, run_body.
  destruct (m' (closure, w)) as [o' [c1' w1']], (m (closure, w)) as [o [c1 w1]]. cbn.
  intros [H|[H|H]]; [left; exact H | right; left; exact H |].
  right; right. congruence.
Qed.

Lemma agree_catch {S A} (m' m : St S A) (n' n : A -> St S ObjectHolder) s :
  bl KReturnObj = false -> br KReturnObj = false ->
  m' s ~ m s ->
  (forall a s1, n' a s1 ~ n a s1) ->
  catch_ReturnObj m' n' s ~ catch_ReturnObj m n s.
Proof.
  intros Hbl Hbr [Hl|[Hr|He]] Hn; unfold agree, catch_ReturnObj in *.
  - left. destruct (m' s) as [[a| | | |] s1]; cbn in *; try assumption; congruence.
  - right; left. destruct (m s) as [[a| | | |] s1]; cbn in *; try assumption; congruence.
  - rewrite He. destruct (m s) as [[a| | | |] s1]; try (right; right; reflexivity).
    apply Hn.
Qed.

Section Nodes.
Variable classes : ClassPtr -> option Class.
Variables exec' exec : Statement -> St (Closure * World) ObjectHolder.
Variables print_instance' print_instance : InstancePtr -> St World string.
Hypothesis exec_agree : forall stmt s, exec' stmt s ~ exec stmt s.
Hypothesis print_instance_agree : forall p w, print_instance' p w ~ print_instance p w.

(** One step of a proof that two results agree: the two sides are the
    same code, over [exec'] on one side and [exec] on the other. *)
Ltac agree_step :=
  match goal with
  | |- agree _ _ (bind _ _ _) (bind _ _ _) => apply agree_bind; [|intros ? ?]
  | |- agree _ _ (in_world _ _) (in_world _ _) => apply agree_in_world; intros ?
  | |- agree _ _ (run_body _ _ _) (run_body _ _ _) => apply agree_run_body
  | |- agree _ _ (exec' _ _) (exec _ _) => apply exec_agree
  | |- agree _ _ (print_instance' _ _) (print_instance _ _) =>
      apply print_instance_agree
  | |- agree _ _ ?x ?x => apply agree_refl
  | |- agree _ _ (match ?x with _ => _ end _) _ => destruct x
  | |- agree _ _ (match ?x with _ => _ end) _ => destruct x
  | |- agree _ _ ((if ?b then _ else _) _) _ => destruct b
  end.

Lemma Call_agree inst method actual_args w :
  Call classes exec' inst method actual_args w
  ~ Call classes exec inst method actual_args w.
Proof. unfold Call. repeat agree_step. Qed.

Lemma ClassInstance_Print_agree inst w :
  ClassInstance_Print classes exec' print_instance' inst w
  ~ ClassInstance_Print classes exec print_instance inst w.
Proof.
  unfold ClassInstance_Print. agree_step; [apply agree_refl|].
  agree_step; [|apply agree_refl].
  agree_step; [apply Call_agree|]. repeat agree_step.
Qed.

Lemma print_holder_agree obj w :
  print_holder classes print_instance' obj w ~ print_holder classes print_instance obj w.
Proof. unfold print_holder, Object_Print. repeat agree_step. Qed.

Lemma Equal_agree lhs rhs w :
  Equal classes exec' lhs rhs w ~ Equal classes exec lhs rhs w.
Proof.
  unfold Equal. repeat agree_step; try apply Call_agree.
Qed.

Lemma Less_agree lhs rhs w :
  Less classes exec' lhs rhs w ~ Less classes exec lhs rhs w.
Proof.
  unfold Less. repeat agree_step; try apply Call_agree.
Qed.

Lemma apply_Comparator_agree cmp lhs rhs w :
  apply_Comparator classes exec' cmp lhs rhs w
  ~ apply_Comparator classes exec cmp lhs rhs w.
Proof.
  destruct cmp; cbn [apply_Comparator];
    unfold NotEqual, LessOrEqual, GreaterOrEqual, Greater;
    repeat first [apply Equal_agree | apply Less_agree | agree_step].
Qed.

Lemma Execute_args_agree args s :
  Execute_args exec' args s ~ Execute_args exec args s.
Proof.
  revert s. induction args as [|arg args IH]; intros s; cbn [Execute_args].
  - apply agree_refl.
  - repeat first [apply IH | agree_step].
Qed.

Lemma Print_loop_agree args is_not_first s :
  Print_loop classes exec' print_instance' args is_not_first s
  ~ Print_loop classes exec print_instance args is_not_first s.
Proof.
  revert is_not_first s.
  induction args as [|arg args IH]; intros is_not_first s; cbn [Print_loop].
  - apply agree_refl.
  - repeat first [apply IH | apply print_holder_agree | agree_step].
Qed.

Lemma Compound_loop_agree args s :
  Compound_loop exec' args s ~ Compound_loop exec args s.
Proof.
  revert s. induction args as [|arg args IH]; intros s; cbn [Compound_loop].
  - apply agree_refl.
  - repeat first [apply IH | agree_step].
Qed.

(** A node over [exec'] agrees with the same node over [exec]; for a
    [MethodBody], which catches [ReturnObj], this needs results that
    are left by [ReturnObj] to be equal. *)
Lemma Execute_node_agree stmt s :
  (bl KReturnObj = false /\ br KReturnObj = false) \/
    (forall body, stmt <> MethodBody body) ->
  Execute_node classes exec' print_instance' stmt s
  ~ Execute_node classes exec print_instance stmt s.
Proof.
  intros Hcatch.
  destruct stmt; cbn [Execute_node];
    unfold Assignment_Execute, FieldAssignment_Execute, Print_Execute,
      MethodCall_Execute, NewInstance_Execute, Stringify_Execute, Add_Execute,
      Sub_Execute, Mult_Execute, Div_Execute, Or_Execute, And_Execute, Not_Execute,
      Compound_Execute, Return_Execute, ClassDefinition_Execute, IfElse_Execute,
      Comparison_Execute, MethodBody_Execute;
    try (repeat first
           [ apply Call_agree | apply print_holder_agree
           | apply apply_Comparator_agree | apply Execute_args_agree
           | apply Print_loop_agree | apply Compound_loop_agree
           | agree_step ]; fail).
  destruct Hcatch as [[Hl Hr]|Hnot].
  - apply agree_catch; [exact Hl | exact Hr | apply exec_agree |].
    intros ? ?. apply agree_refl.
  - exfalso. eapply Hnot. reflexivity.
Qed.

End Nodes.
End Agree.

End agree_facts.

(** ** The exception [ReturnObj] passes through the nodes

    A node that is neither a [Return], which raises the exception, nor a
    [MethodBody], which catches it, does nothing with a [ReturnObj] that
    leaves one of the calls it makes: replacing that exception, in the
    calls, by another way to leave that is made from the object carried
    replaces it in the same way in the result of the node. *)

Module rethrow_facts.
Import runtime runtime_spec.

Section Rethrow.
Variable h : ObjectHolder -> Abrupt.

Lemma abrupt_bind {S A B} (a : Abrupt) (k : A -> St S B) s' :
  bind (fun s => (abrupt a, s)) k s' = (abrupt a, s').
Proof. unfold bind. destruct a; reflexivity. Qed.

Lemma rethrown_bind {S A B} (m' m : St S A) (k' k : A -> St S B) s :
  m' s = rethrown h (m s) ->
  (forall a s1, k' a s1 = rethrown h (k a s1)) ->
  bind m' k' s = rethrown h (bind m k s).
Proof.
  intros Hm Hk. unfold bind. rewrite Hm.
  destruct (m s) as [[a|obj| | |] s1]; cbn [rethrown]; try reflexivity.
  - apply Hk.
  - destruct (h obj); reflexivity.
Qed.

Lemma rethrown_in_world {A} (m' m : St World A) s :
  (forall w, m' w = rethrown h (m w)) ->
  in_world m' s = rethrown h (in_world m s).
Proof.
  intros H. destruct s as [c w]. unfold in_world. rewrite H.
  destruct (m w) as [[a|obj| | |] w1]; cbn [rethrown]; try reflexivity;
    destruct (h obj); reflexivity.
Qed.

Lemma rethrown_run_body {A} (m' m : St (Closure * World) A) closure w :
  m' (closure, w) = rethrown h (m (closure, w)) ->
  run_body m' closure w = rethrown h (run_body m closure w).
Proof.
  intros H. unfold run_body. rewrite H.
  destruct (m (closure, w)) as [[a|obj| | |] [c1 w1]]; cbn [rethrown]; try reflexivity;
    destruct (h obj); reflexivity.
Qed.

(** What leaves no [ReturnObj] is not changed. *)
Lemma rethrown_same {S A} (r : Outcome A * S) :
  (forall obj, fst r <> ReturnObj obj) -> r = rethrown h r.
Proof.
  destruct r as [[a|obj| | |] s]; cbn; intros H; try reflexivity.
  exfalso. eapply H. reflexivity.
Qed.

Section Nodes.
Variable classes : ClassPtr -> option Class.
Variable exec : Statement -> St (Closure * World) ObjectHolder.
Variable print_instance : InstancePtr -> St World string.

Lemma HasMethod_rethrown inst method argc w :
  HasMethod classes inst method argc w = rethrown h (HasMethod classes inst method argc w).
Proof.
  unfold HasMethod. destruct (class_of classes w inst) as [c|]; [|reflexivity].
  destruct (GetMethod c method) as [m|]; [|reflexivity].
  destruct (negb _); reflexivity.
Qed.

Lemma Fields_rethrown inst w : Fields inst w = rethrown h (Fields inst w).
Proof. unfold Fields. destruct (heap w !! inst); reflexivity. Qed.

Lemma VariableValue_fields_rethrown inst ids w :
  VariableValue_fields inst ids w = rethrown h (VariableValue_fields inst ids w).
Proof.
  revert inst w. induction ids as [|id ids IH]; intros inst w; [reflexivity|].
  cbn [VariableValue_fields]. destruct ids as [|id2 ids'].
  - apply rethrown_bind; [apply Fields_rethrown|]. intros fields w1.
    destruct (fields !! id); reflexivity.
  - apply rethrown_bind; [apply Fields_rethrown|]. intros fields w1.
    destruct (fields !! id) as [v|]; [|reflexivity].
    destruct (TryAs_ClassInstance v) as [next|]; [|reflexivity].
    apply IH.
Qed.

Lemma VariableValue_Execute_rethrown dotted_ids s :
  VariableValue_Execute dotted_ids s = rethrown h (VariableValue_Execute dotted_ids s).
Proof.
  destruct s as [closure w]. unfold VariableValue_Execute.
  destruct dotted_ids as [|front ids]; [reflexivity|].
  destruct (closure !! front) as [obj|]; [|reflexivity].
  destruct ids as [|id ids]; [reflexivity|].
  destruct (TryAs_ClassInstance obj) as [p|]; [|reflexivity].
  apply (rethrown_in_world _ _ (closure, w)). intros w1.
  apply VariableValue_fields_rethrown.
Qed.

Lemma ThrowClassIntanceCastError_rethrown {A} obj where_ w :
  @ThrowClassIntanceCastError classes A obj where_ w
  = rethrown h (@ThrowClassIntanceCastError classes A obj where_ w).
Proof.
  destruct obj as [[v|v|v|c|p]|]; try reflexivity.
  cbn. destruct (classes c); reflexivity.
Qed.

Lemma set_field_rethrown inst field_name obj w :
  set_field inst field_name obj w = rethrown h (set_field inst field_name obj w).
Proof. unfold set_field. destruct (heap w !! inst); reflexivity. Qed.

Lemma Class_Print_rethrown cls w :
  Class_Print classes cls w = rethrown h (Class_Print classes cls w).
Proof. unfold Class_Print. destruct (classes cls); reflexivity. Qed.

(** One step of a proof that a result is the other one rethrown: the two
    sides are the same code, over the calls rethrown on the left. *)
Ltac rethrown_step :=
  match goal with
  | |- bind _ _ _ = rethrown _ (bind _ _ _) => apply rethrown_bind; [|intros ? ?]
  | |- in_world _ _ = rethrown _ (in_world _ _) => apply rethrown_in_world; intros ?
  | |- run_body _ _ _ = rethrown _ (run_body _ _ _) => apply rethrown_run_body
  | |- rethrow _ _ _ = rethrown _ _ => reflexivity
  | |- HasMethod _ _ _ _ _ = _ => apply HasMethod_rethrown
  | |- Class_Print _ _ _ = _ => apply Class_Print_rethrown
  | |- set_field _ _ _ _ = _ => apply set_field_rethrown
  | |- VariableValue_Execute _ _ = _ => apply VariableValue_Execute_rethrown
  | |- ThrowClassIntanceCastError _ _ _ _ = _ => apply ThrowClassIntanceCastError_rethrown
  | |- match ?x with _ => _ end _ = _ => destruct x
  | |- match ?x with _ => _ end = _ => destruct x
  | |- (if ?b then _ else _) _ = _ => destruct b
  | |- _ = rethrown _ _ => reflexivity
  end.

Lemma Call_rethrown inst method actual_args w :
  Call classes (fun stmt => rethrow h (exec stmt)) inst method actual_args w
  = rethrown h (Call classes exec inst method actual_args w).
Proof. unfold Call. repeat rethrown_step. Qed.

Lemma ClassInstance_Print_rethrown inst w :
  ClassInstance_Print classes (fun stmt => rethrow h (exec stmt))
    (fun p => rethrow h (print_instance p)) inst w
  = rethrown h (ClassInstance_Print classes exec print_instance inst w).
Proof.
  unfold ClassInstance_Print. rethrown_step; [rethrown_step|].
  destruct a; [|reflexivity].
  rethrown_step; [apply Call_rethrown|]. repeat rethrown_step.
Qed.

Lemma print_holder_rethrown obj w :
  print_holder classes (fun p => rethrow h (print_instance p)) obj w
  = rethrown h (print_holder classes print_instance obj w).
Proof. unfold print_holder, Object_Print. repeat rethrown_step. Qed.

Lemma Equal_rethrown lhs rhs w :
  Equal classes (fun stmt => rethrow h (exec stmt)) lhs rhs w
  = rethrown h (Equal classes exec lhs rhs w).
Proof. unfold Equal. repeat first [apply Call_rethrown | rethrown_step]. Qed.

Lemma Less_rethrown lhs rhs w :
  Less classes (fun stmt => rethrow h (exec stmt)) lhs rhs w
  = rethrown h (Less classes exec lhs rhs w).
Proof. unfold Less. repeat first [apply Call_rethrown | rethrown_step]. Qed.

Lemma apply_Comparator_rethrown cmp lhs rhs w :
  apply_Comparator classes (fun stmt => rethrow h (exec stmt)) cmp lhs rhs w
  = rethrown h (apply_Comparator classes exec cmp lhs rhs w).
Proof.
  destruct cmp; cbn [apply_Comparator];
    unfold NotEqual, LessOrEqual, GreaterOrEqual, Greater;
    repeat first [apply Equal_rethrown | apply Less_rethrown | rethrown_step].
Qed.

Lemma Execute_args_rethrown args s :
  Execute_args (fun stmt => rethrow h (exec stmt)) args s
  = rethrown h (Execute_args exec args s).
Proof.
  revert s. induction args as [|arg args IH]; intros s; cbn [Execute_args].
  - reflexivity.
  - repeat first [apply IH | rethrown_step].
Qed.

Lemma Print_loop_rethrown args is_not_first s :
  Print_loop classes (fun stmt => rethrow h (exec stmt))
    (fun p => rethrow h (print_instance p)) args is_not_first s
  = rethrown h (Print_loop classes exec print_instance args is_not_first s).
Proof.
  revert is_not_first s.
  induction args as [|arg args IH]; intros is_not_first s; cbn [Print_loop].
  - reflexivity.
  - repeat first [apply IH | apply print_holder_rethrown | rethrown_step].
Qed.

Lemma Compound_loop_rethrown args s :
  Compound_loop (fun stmt => rethrow h (exec stmt)) args s
  = rethrown h (Compound_loop exec args s).
Proof.
  revert s. induction args as [|arg args IH]; intros s; cbn [Compound_loop].
  - reflexivity.
  - repeat first [apply IH | rethrown_step].
Qed.

(** A node that is neither a [Return] nor a [MethodBody], over the calls
    rethrown, is the node rethrown. *)
Lemma Execute_node_rethrown stmt s :
  (forall statement, stmt <> Return statement) ->
  (forall body, stmt <> MethodBody body) ->
  Execute_node classes (fun st => rethrow h (exec st))
    (fun p => rethrow h (print_instance p)) stmt s
  = rethrown h (Execute_node classes exec print_instance stmt s).
Proof.
  intros HnotR HnotM.
  destruct stmt; cbn [Execute_node];
    try (exfalso; eapply HnotR; reflexivity);
    try (exfalso; eapply HnotM; reflexivity);
    unfold literal_Execute, Assignment_Execute, FieldAssignment_Execute, Print_Execute,
      MethodCall_Execute, NewInstance_Execute, Stringify_Execute, Add_Execute,
      Sub_Execute, Mult_Execute, Div_Execute, Or_Execute, And_Execute, Not_Execute,
      Compound_Execute, ClassDefinition_Execute, IfElse_Execute,
      Comparison_Execute, set_variable;
    repeat first
      [ apply Call_rethrown | apply print_holder_rethrown
      | apply apply_Comparator_rethrown | apply Execute_args_rethrown
      | apply Print_loop_rethrown | apply Compound_loop_rethrown
      | rethrown_step ].
Qed.

End Nodes.
End Rethrow.

End rethrow_facts.

(** ** Properties of the world that every node keeps *)

Module preserve_facts.
Import runtime runtime_spec runtime_basics.

Lemma preserves_ret {S A} (P : S -> Prop) (a : A) : preserves P (ret a).
Proof. intros s Hs. exact Hs. Qed.

Lemma preserves_throw {S A} (P : S -> Prop) msg : preserves P (@throw S A msg).
Proof. intros s Hs. exact Hs. Qed.

Lemma preserves_undefined {S A} (P : S -> Prop) : preserves P (@undefined S A).
Proof. intros s Hs. exact Hs. Qed.

Lemma preserves_out_of_fuel {S A} (P : S -> Prop) : preserves P (@out_of_fuel S A).
Proof. intros s Hs. exact Hs. Qed.

Lemma preserves_bind {S A B} (P : S -> Prop) (m : St S A) (k : A -> St S B) :
  preserves P m -> (forall a, preserves P (k a)) -> preserves P (bind m k).
Proof.
  intros Hm Hk s Hs. unfold bind. specialize (Hm s Hs).
  destruct (m s) as [[a| | | |] s1]; cbn in *; try exact Hm.
  apply Hk. exact Hm.
Qed.

Lemma preserves_catch {S A} (P : S -> Prop) (m : St S A) (n : A -> St S ObjectHolder) :
  preserves P m -> (forall a, preserves P (n a)) -> preserves P (catch_ReturnObj m n).
Proof.
  intros Hm Hn s Hs. unfold catch_ReturnObj. specialize (Hm s Hs).
  destruct (m s) as [[a| | | |] s1]; cbn in *; try exact Hm.
  apply Hn. exact Hm.
Qed.

Lemma preserves_in_world {A} (P : World -> Prop) (m : St World A) :
  preserves P m -> preserves (on_world P) (in_world m).
Proof.
  intros Hm [c w] Hs. unfold on_world, in_world in *. cbn in *.
  specialize (Hm w Hs). destruct (m w) as [o w1]. exact Hm.
Qed.

Lemma preserves_run_body {A} (P : World -> Prop) (m : St (Closure * World) A) closure :
  preserves (on_world P) m -> preserves P (run_body m closure).
Proof.
  intros Hm w Hs. unfold run_body. specialize (Hm (closure, w) Hs).
  unfold on_world in Hm. destruct (m (closure, w)) as [o [c1 w1]]. exact Hm.
Qed.

Section Preserve.
Variable classes : ClassPtr -> option Class.
Variable P : World -> Prop.
Variable good : Statement -> Prop.

Hypothesis P_write : forall text, preserves P (write text).
Hypothesis P_set_field :
  forall object field_name field_value,
    good (FieldAssignment object field_name field_value) ->
    forall inst obj, preserves P (set_field inst field_name obj).
Hypothesis good_children :
  forall stmt c, good stmt -> In c (children stmt) -> good c.
Hypothesis good_methods :
  forall cls c method m,
    classes cls = Some c -> GetMethod c method = Some m -> good (body m).

Section Nodes.
Variable exec : Statement -> St (Closure * World) ObjectHolder.
Variable print_instance : InstancePtr -> St World string.
Hypothesis exec_preserves : forall stmt, good stmt -> preserves (on_world P) (exec stmt).
Hypothesis print_instance_preserves : forall p, preserves P (print_instance p).

Ltac preserves_step :=
  match goal with
  | |- preserves _ (bind _ _) => apply preserves_bind; [|intros ?]
  | |- preserves _ (in_world _) => apply preserves_in_world
  | |- preserves _ (ret _) => apply preserves_ret
  | |- preserves _ (throw _) => apply preserves_throw
  | |- preserves _ undefined => apply preserves_undefined
  | |- preserves _ (write _) => apply P_write
  | |- preserves _ (print_instance _) => apply print_instance_preserves
  | |- preserves _ (match ?x with _ => _ end) => destruct x
  | |- preserves _ (if ?b then _ else _) => destruct b
  end.

Lemma HasMethod_preserves inst method argc :
  preserves P (HasMethod classes inst method argc).
Proof. intros w Hw. rewrite HasMethod_state. exact Hw. Qed.


Lemma Call_preserves inst method actual_args :
  preserves P (Call classes exec inst method actual_args).
Proof.
  unfold Call. apply preserves_bind; [apply HasMethod_preserves|].
  intros has. destruct (negb has); [apply preserves_throw|].
  intros w Hw. unfold class_of.
  destruct (heap w !! inst) as [obj|]; [|exact Hw].
  destruct (classes (cls_ obj)) as [c|] eqn:Hc; [|exact Hw].
  destruct (GetMethod c method) as [m|] eqn:Hm; [|exact Hw].
  apply preserves_run_body; [|exact Hw].
  apply exec_preserves. eapply good_methods; eassumption.
Qed.

Lemma Class_Print_preserves cls : preserves P (Class_Print classes cls).
Proof. unfold Class_Print. repeat preserves_step. Qed.

Lemma ClassInstance_Print_preserves inst :
  preserves P (ClassInstance_Print classes exec print_instance inst).
Proof.
  unfold ClassInstance_Print.
  apply preserves_bind; [apply HasMethod_preserves|]. intros has.
  destruct has; [|apply preserves_ret].
  apply preserves_bind; [apply Call_preserves|]. intros obj.
  repeat first [apply Class_Print_preserves | preserves_step].
Qed.

Lemma print_holder_preserves obj :
  preserves P (print_holder classes print_instance obj).
Proof.
  unfold print_holder, Object_Print.
  repeat first [apply Class_Print_preserves | preserves_step].
Qed.

Lemma Equal_preserves lhs rhs : preserves P (Equal classes exec lhs rhs).
Proof.
  unfold Equal.
  repeat first [apply HasMethod_preserves | apply Call_preserves | preserves_step].
Qed.

Lemma Less_preserves lhs rhs : preserves P (Less classes exec lhs rhs).
Proof.
  unfold Less.
  repeat first [apply HasMethod_preserves | apply Call_preserves | preserves_step].
Qed.

Lemma apply_Comparator_preserves cmp lhs rhs :
  preserves P (apply_Comparator classes exec cmp lhs rhs).
Proof.
  destruct cmp; cbn [apply_Comparator];
    unfold NotEqual, LessOrEqual, GreaterOrEqual, Greater;
    repeat first [apply Equal_preserves | apply Less_preserves | preserves_step].
Qed.

Lemma ThrowClassIntanceCastError_preserves {A} obj where_ :
  preserves P (@ThrowClassIntanceCastError classes A obj where_).
Proof. intros w Hw. rewrite ThrowClassIntanceCastError_state. exact Hw. Qed.

Lemma VariableValue_Execute_preserves dotted_ids :
  preserves (on_world P) (VariableValue_Execute dotted_ids).
Proof. intros s Hs. rewrite VariableValue_Execute_state. exact Hs. Qed.

Lemma set_variable_preserves var_name obj :
  preserves (on_world P) (set_variable var_name obj).
Proof. intros [c w] Hs. exact Hs. Qed.

Lemma Execute_args_preserves args :
  (forall c, In c args -> good c) ->
  preserves (on_world P) (Execute_args exec args).
Proof.
  induction args as [|arg args IH]; intros Hgood; cbn [Execute_args].
  - apply preserves_ret.
  - apply preserves_bind; [apply exec_preserves, Hgood; left; reflexivity|].
    intros obj. apply preserves_bind; [|intros; apply preserves_ret].
    apply IH. intros c Hc. apply Hgood. right; exact Hc.
Qed.

Lemma Print_loop_preserves args is_not_first :
  (forall c, In c args -> good c) ->
  preserves (on_world P) (Print_loop classes exec print_instance args is_not_first).
Proof.
  revert is_not_first.
  induction args as [|arg args IH]; intros is_not_first Hgood; cbn [Print_loop].
  - apply preserves_ret.
  - apply preserves_bind; [repeat preserves_step|]. intros _.
    apply preserves_bind; [apply exec_preserves, Hgood; left; reflexivity|].
    intros obj.
    apply preserves_bind;
      [apply preserves_in_world, print_holder_preserves|]. intros text.
    apply preserves_bind; [repeat preserves_step|]. intros _.
    apply IH. intros c Hc. apply Hgood. right; exact Hc.
Qed.

Lemma Compound_loop_preserves args :
  (forall c, In c args -> good c) ->
  preserves (on_world P) (Compound_loop exec args).
Proof.
  induction args as [|arg args IH]; intros Hgood; cbn [Compound_loop].
  - apply preserves_ret.
  - apply preserves_bind; [apply exec_preserves, Hgood; left; reflexivity|].
    intros _. apply IH. intros c Hc. apply Hgood. right; exact Hc.
Qed.

(** A good node keeps [P], over an [exec] that does on good statements. *)
Lemma Execute_node_preserves stmt :
  good stmt ->
  preserves (on_world P) (Execute_node classes exec print_instance stmt).
Proof.
  intros Hgood.
  pose proof (good_children stmt) as Hch. specialize (fun c => Hch c Hgood).
  assert (Hex : forall c, In c (children stmt) ->
                  preserves (on_world P) (exec c)).
  { intros c Hc. apply exec_preserves, Hch, Hc. }
  destruct stmt; cbn [Execute_node children] in *;
    unfold Assignment_Execute, FieldAssignment_Execute, Print_Execute,
      MethodCall_Execute, NewInstance_Execute, Stringify_Execute, Add_Execute,
      Sub_Execute, Mult_Execute, Div_Execute, Or_Execute, And_Execute, Not_Execute,
      Compound_Execute, Return_Execute, ClassDefinition_Execute, IfElse_Execute,
      Comparison_Execute, MethodBody_Execute;
    repeat first
      [ apply VariableValue_Execute_preserves
      | apply set_variable_preserves
      | apply ThrowClassIntanceCastError_preserves
      | apply HasMethod_preserves
      | apply Call_preserves
      | apply print_holder_preserves
      | apply apply_Comparator_preserves
      | apply Execute_args_preserves; intros; apply Hch; cbn; tauto
      | apply Print_loop_preserves; intros; apply Hch; cbn; tauto
      | apply Compound_loop_preserves; intros; apply Hch; cbn; tauto
      | apply Hex; cbn; tauto
      | eapply P_set_field; exact Hgood
      | apply preserves_catch; [|intros ?]
      | (intros s Hs; exact Hs)
      | preserves_step ].
Qed.

End Nodes.

(** With any fuel, executing a good statement keeps [P]. *)
Lemma Execute_preserves fuel :
  (forall stmt, good stmt -> preserves (on_world P) (Execute classes fuel stmt)) /\
  (forall inst, preserves P (Print_instance classes fuel inst)).
Proof.
  induction fuel as [|fuel [IHe IHp]].
  - split; intros; apply preserves_out_of_fuel.
  - split.
    + intros stmt Hgood. rewrite Execute_S.
      apply Execute_node_preserves; assumption.
    + intros inst. rewrite Print_instance_S.
      apply ClassInstance_Print_preserves; assumption.
Qed.

End Preserve.

End preserve_facts.

(** ** Properties of the runtime and of the evaluator *)

Module runtime_facts.
Import runtime runtime_spec runtime_basics agree_facts rethrow_facts preserve_facts.

(** *** Small programs *)

Example print_hello :
  Execute samples.classes 3 (Print [StringConst "hello"]) (∅, empty_World)
  = (Normal None, (∅, mkWorld ∅ ("hello" +:+ endl))).
Proof. vm_compute. reflexivity. Qed.

Example print_seven_by_two :
  Execute samples.classes 4 (Print [Div (NumericConst 7) (NumericConst 2)])
    (∅, empty_World)
  = (Normal None, (∅, mkWorld ∅ ("3" +:+ endl))).
Proof. vm_compute. reflexivity. Qed.

Example print_one_by_zero :
  Execute samples.classes 4 (Print [Div (NumericConst 1) (NumericConst 0)])
    (∅, empty_World)
  = (runtime_error "Failed on Div operation", (∅, empty_World)).
Proof. vm_compute. reflexivity. Qed.

Example print_INT_MIN_by_minus_one :
  fst (Execute samples.classes 4
         (Print [Div (NumericConst (-2147483648)) (NumericConst (-1))])
         (∅, empty_World))
  = Undefined.
Proof. vm_compute. reflexivity. Qed.

(** *** Logical operators *)

(** C5: [Or] and [And] execute the left operand, then the right operand in
    the state the left one leaves, whatever the truth value of the left
    operand; an outcome of the right operand other than a normal return
    is the outcome of the node; otherwise the node yields the [Bool] of the
    disjunction (conjunction) of the two truth values. *)
Theorem Or_And_execute_both_operands classes fuel lhs rhs s :
  Execute classes (S fuel) (Or lhs rhs) s =
    match Execute classes fuel lhs s with
    | (Normal lhs_obj, s1) =>
        match Execute classes fuel rhs s1 with
        | (Normal rhs_obj, s2) =>
            (Normal (Some (Bool (IsTrue lhs_obj || IsTrue rhs_obj))), s2)
        | (o, s2) => (o, s2)
        end
    | (o, s1) => (o, s1)
    end
  /\
  Execute classes (S fuel) (And lhs rhs) s =
    match Execute classes fuel lhs s with
    | (Normal lhs_obj, s1) =>
        match Execute classes fuel rhs s1 with
        | (Normal rhs_obj, s2) =>
            (Normal (Some (Bool (IsTrue lhs_obj && IsTrue rhs_obj))), s2)
        | (o, s2) => (o, s2)
        end
    | (o, s1) => (o, s1)
    end.
Proof.
  rewrite !Execute_S. cbn [Execute_node]. unfold Or_Execute, And_Execute, bind.
  split.
  - destruct (Execute classes fuel lhs s) as [[l| | | |] s1]; try reflexivity.
    destruct (Execute classes fuel rhs s1) as [[r| | | |] s2]; try reflexivity.
    destruct (IsTrue l || IsTrue r); reflexivity.
  - destruct (Execute classes fuel lhs s) as [[l| | | |] s1]; try reflexivity.
    destruct (Execute classes fuel rhs s1) as [[r| | | |] s2]; try reflexivity.
    destruct (IsTrue l && IsTrue r); reflexivity.
Qed.

(** The right operand of [or] prints, and fails, though the left one is
    true. *)
Example Or_right_operand_prints :
  Execute samples.classes 4 (Or (BoolConst true) (Print [StringConst "x"]))
    (∅, empty_World)
  = (Normal (Some (Bool true)), (∅, mkWorld ∅ ("x" +:+ endl))).
Proof. vm_compute. reflexivity. Qed.

Example Or_right_operand_fails :
  fst (Execute samples.classes 4
         (Or (BoolConst true) (Div (NumericConst 1) (NumericConst 0)))
         (∅, empty_World))
  = runtime_error "Failed on Div operation".
Proof. vm_compute. reflexivity. Qed.

Example And_right_operand_prints :
  Execute samples.classes 4 (And (BoolConst false) (Print [StringConst "x"]))
    (∅, empty_World)
  = (Normal (Some (Bool false)), (∅, mkWorld ∅ ("x" +:+ endl))).
Proof. vm_compute. reflexivity. Qed.

(** *** Comparisons *)

(** C3: [Equal] is [true] on two empty holders; compares two [Number]s,
    two [String]s, two [Bool]s by value; when both operands are present
    and the left one is an instance whose class has [__eq__] with one
    parameter, it is the result of calling that method of the left
    operand on the right operand, whatever the right operand is; any
    other pair of operands, one empty holder among them, is a runtime
    error. *)
Theorem Equal_cases classes exec :
  (forall w, Equal classes exec None None w = (Normal true, w)) /\
  (forall a b w,
     Equal classes exec (Some (Number a)) (Some (Number b)) w = (Normal (a =? b), w)) /\
  (forall a b w,
     Equal classes exec (Some (String a)) (Some (String b)) w = (Normal (String.eqb a b), w)) /\
  (forall a b w,
     Equal classes exec (Some (Bool a)) (Some (Bool b)) w = (Normal (Bool.eqb a b), w)) /\
  (forall p r w,
     HasMethod classes p "__eq__" 1 w = (Normal true, w) ->
     Equal classes exec (Some (InstanceRef p)) (Some r) w =
     (let* res := Call classes exec p "__eq__" [Some r] in
      match TryAs_Bool res with Some b => ret b | None => undefined end) w) /\
  (forall lhs rhs w,
     unsupported classes "__eq__" true w lhs rhs ->
     Equal classes exec lhs rhs w =
     (runtime_error "Cannot compare objects for equality", w)).
Proof.
  repeat split; try reflexivity.
  - intros p r w Hhas. unfold Equal. cbn [TryAs_Number TryAs_String TryAs_Bool TryAs_ClassInstance].
    unfold bind at 1. rewrite Hhas. reflexivity.
  - intros lhs rhs w Hun. unfold unsupported in Hun.
    destruct lhs as [l|], rhs as [r|]; try reflexivity; [|discriminate].
    destruct Hun as [Hk Hinst].
    destruct l, r; try discriminate; try reflexivity;
      unfold Equal; cbn [TryAs_Number TryAs_String TryAs_Bool TryAs_ClassInstance];
      unfold bind; rewrite (Hinst _ eq_refl); reflexivity.
Qed.

Lemma Equal_cases_witness :
  Equal samples.classes (Execute samples.classes 6)
    (Some (InstanceRef 3%nat)) (Some (InstanceRef 4%nat)) samples.world_with_points =
  (let* res := Call samples.classes (Execute samples.classes 6) 3%nat "__eq__"
                 [Some (InstanceRef 4%nat)] in
   match TryAs_Bool res with Some b => ret b | None => undefined end)
    samples.world_with_points
  /\
  Equal samples.classes (Execute samples.classes 6)
    (Some (Number 1)) None samples.world_with_points =
  (runtime_error "Cannot compare objects for equality", samples.world_with_points).
Proof.
  destruct (Equal_cases samples.classes (Execute samples.classes 6))
    as (_ & _ & _ & _ & Hdispatch & Hother).
  split.
  - apply Hdispatch. vm_compute. reflexivity.
  - apply Hother. exact I.
Defined.

(** The dispatch compares the two points by their field [x]. *)
Example Equal_Point_3_4 :
  fst (Equal samples.classes (Execute samples.classes 6)
         (Some (InstanceRef 3%nat)) (Some (InstanceRef 4%nat))
         samples.world_with_points) = Normal false.
Proof. vm_compute. reflexivity. Qed.


(** A number compared with a [Point], whose class has [__eq__]: the class
    of the right operand is not looked at. *)
Example Equal_Number_Point :
  fst (Equal samples.classes (Execute samples.classes 6)
         (Some (Number 3)) (Some (InstanceRef 3%nat)) samples.world_with_points)
  = runtime_error "Cannot compare objects for equality".
Proof. vm_compute. reflexivity. Qed.

(** C10: when the left operand is an instance whose [__eq__] (for [Equal])
    or [__lt__] (for [Less]) has one parameter and the call of that method
    returns a value that is not a [Bool], an empty holder included, the
    comparison raises no runtime error: the null pointer that [TryAs<Bool>]
    gives is dereferenced, which is undefined behaviour. *)
Theorem dunder_result_not_Bool_is_dereferenced classes exec p r w res w' :
  TryAs_Bool res = None ->
  (HasMethod classes p "__eq__" 1 w = (Normal true, w) ->
   Call classes exec p "__eq__" [Some r] w = (Normal res, w') ->
   Equal classes exec (Some (InstanceRef p)) (Some r) w = (Undefined, w')) /\
  (HasMethod classes p "__lt__" 1 w = (Normal true, w) ->
   Call classes exec p "__lt__" [Some r] w = (Normal res, w') ->
   Less classes exec (Some (InstanceRef p)) (Some r) w = (Undefined, w')).
Proof.
  intros Hres. split; intros Hhas Hcall.
  - unfold Equal. cbn [TryAs_Number TryAs_String TryAs_Bool TryAs_ClassInstance].
    unfold bind at 1. rewrite Hhas. cbv beta iota.
    unfold bind. rewrite Hcall, Hres. reflexivity.
  - unfold Less. cbn [TryAs_Number TryAs_String TryAs_Bool TryAs_ClassInstance].
    unfold bind at 1. rewrite Hhas. cbv beta iota.
    unfold bind. rewrite Hcall, Hres. reflexivity.
Qed.

Lemma dunder_result_not_Bool_is_dereferenced_witness :
  Equal samples.classes (Execute samples.classes 6)
    (Some (InstanceRef 2%nat)) (Some (Number 1)) samples.world
  = (Undefined, samples.world).
Proof.
  apply (proj1 (dunder_result_not_Bool_is_dereferenced samples.classes
                  (Execute samples.classes 6) 2%nat (Number 1) samples.world
                  (Some (Number 1)) samples.world eq_refl)).
  - vm_compute. reflexivity.
  - vm_compute. reflexivity.
Defined.

(** [__lt__] of [Odd] returns [None]: [Less] dereferences a null pointer. *)
Example Less_Odd_None :
  Less samples.classes (Execute samples.classes 6)
    (Some (InstanceRef 2%nat)) (Some (Number 1)) samples.world
  = (Undefined, samples.world).
Proof. vm_compute. reflexivity. Qed.


(** C4: where [Less] returns [l] and [Equal], called after it, returns
    [e], [Greater] returns [!l && !e], [LessOrEqual] the negation of that,
    [GreaterOrEqual] returns [!l]; and where [Equal] returns [e0],
    [NotEqual] returns [!e0]. The state is the one left by the calls that
    [&&] lets happen: [Equal] is not called by [Greater] when [l] holds. *)
Theorem derived_comparisons classes exec lhs rhs w l w1 e w2 :
  Less classes exec lhs rhs w = (Normal l, w1) ->
  Equal classes exec lhs rhs w1 = (Normal e, w2) ->
  Greater classes exec lhs rhs w = (Normal (negb l && negb e), if l then w1 else w2) /\
  LessOrEqual classes exec lhs rhs w =
    (Normal (negb (negb l && negb e)), if l then w1 else w2) /\
  GreaterOrEqual classes exec lhs rhs w = (Normal (negb l), w1) /\
  (forall e0 w0,
     Equal classes exec lhs rhs w = (Normal e0, w0) ->
     NotEqual classes exec lhs rhs w = (Normal (negb e0), w0)).
Proof.
  intros HL HE.
  assert (HG : Greater classes exec lhs rhs w =
               (Normal (negb l && negb e), if l then w1 else w2)).
  { unfold Greater, bind. rewrite HL. destruct l; cbn [negb andb]; [reflexivity|].
    rewrite HE. reflexivity. }
  split; [exact HG|]. split; [|split].
  - unfold LessOrEqual, bind. rewrite HG. reflexivity.
  - unfold GreaterOrEqual, bind. rewrite HL. reflexivity.
  - intros e0 w0 HE0. unfold NotEqual, bind. rewrite HE0. reflexivity.
Qed.

Lemma derived_comparisons_witness :
  Greater samples.classes (Execute samples.classes 6)
    (Some (InstanceRef 3%nat)) (Some (InstanceRef 4%nat)) samples.world_with_points
  = (Normal false, samples.world_with_points) /\
  LessOrEqual samples.classes (Execute samples.classes 6)
    (Some (InstanceRef 3%nat)) (Some (InstanceRef 4%nat)) samples.world_with_points
  = (Normal true, samples.world_with_points) /\
  GreaterOrEqual samples.classes (Execute samples.classes 6)
    (Some (InstanceRef 3%nat)) (Some (InstanceRef 4%nat)) samples.world_with_points
  = (Normal false, samples.world_with_points).
Proof.
  destruct (derived_comparisons samples.classes (Execute samples.classes 6)
              (Some (InstanceRef 3%nat)) (Some (InstanceRef 4%nat))
              samples.world_with_points true samples.world_with_points
              false samples.world_with_points) as (HG & HLE & HGE & _).
  - vm_compute. reflexivity.
  - vm_compute. reflexivity.
  - repeat split; assumption.
Defined.


(** *** Cast errors *)






(** *** Return *)

Lemma Return_Execute_spec classes fuel statement s :
  Execute classes (S fuel) (Return statement) s =
  match Execute classes fuel statement s with
  | (Normal (Some v), s1) => (ReturnObj (Some v), s1)
  | (Normal None, s1) => (Normal None, s1)
  | (o, s1) => (o, s1)
  end.
Proof.
  rewrite Execute_S. cbn [Execute_node]. unfold Return_Execute, bind.
  destruct (Execute classes fuel statement s) as [[[v|]| | | |] s1]; reflexivity.
Qed.

Lemma MethodBody_Execute_spec classes fuel body s :
  Execute classes (S fuel) (MethodBody body) s =
  match Execute classes fuel body s with
  | (Normal _, s1) => (Normal None, s1)
  | (ReturnObj obj, s1) => (Normal obj, s1)
  | (o, s1) => (o, s1)
  end.
Proof.
  rewrite Execute_S. cbn [Execute_node]. unfold MethodBody_Execute, catch_ReturnObj.
  destruct (Execute classes fuel body s) as [[v| | | |] s1]; reflexivity.
Qed.

(** *** Fuel *)

(** With more fuel the result is the same, unless the fuel ran out. *)
Lemma Execute_fuel_agree classes n :
  forall m, (n <= m)%nat ->
    (forall stmt s,
       same_unless_OutOfFuel (Execute classes n stmt s) (Execute classes m stmt s)) /\
    (forall inst w,
       same_unless_OutOfFuel (Print_instance classes n inst w)
                             (Print_instance classes m inst w)).
Proof.
  induction n as [|n IH]; intros m Hle.
  - split; intros; left; reflexivity.
  - destruct m as [|m]; [lia|]. destruct (IH m ltac:(lia)) as [IHe IHp].
    split.
    + intros stmt s. rewrite !Execute_S.
      apply Execute_node_agree; try reflexivity; try assumption.
      left; split; reflexivity.
    + intros inst w. rewrite !Print_instance_S.
      apply ClassInstance_Print_agree; try reflexivity; assumption.
Qed.

Lemma Execute_more_fuel classes n m stmt s o s' :
  Execute classes n stmt s = (o, s') -> o <> OutOfFuel -> (n <= m)%nat ->
  Execute classes m stmt s = (o, s').
Proof.
  intros H Ho Hle.
  destruct (Execute_fuel_agree classes n m Hle) as [He _].
  destruct (He stmt s) as [Hl|[Hr|Heq]].
  - rewrite H in Hl. cbn in Hl. destruct o; try discriminate. congruence.
  - discriminate.
  - congruence.
Qed.

(** *** The world under evaluation *)

(** Evaluation creates no instance and destroys none. *)
Lemma Execute_heap_dom classes fuel stmt s :
  dom (heap (snd (snd (Execute classes fuel stmt s)))) = dom (heap (snd s)).
Proof.
  pose (P := fun w : World => dom (heap w) = dom (heap (snd s))).
  assert (H : preserves (on_world P) (Execute classes fuel stmt)).
  { apply (Execute_preserves classes P (fun _ => True)); try (intros; exact I).
    - intros text w Hw. exact Hw.
    - intros _ field_name _ _ inst obj w Hw. unfold P, set_field in *.
      destruct (heap w !! inst) as [ci|] eqn:Hi; [|exact Hw]. cbn.
      rewrite dom_insert_lookup_L by eauto. exact Hw. }
  apply (H s). reflexivity.
Qed.

Lemma existsb_false_In {A} (f : A -> bool) l x :
  existsb f l = false -> In x l -> f x = false.
Proof.
  intros H Hx. destruct (f x) eqn:E; [|reflexivity].
  assert (existsb f l = true) by (apply existsb_exists; eauto). congruence.
Qed.

Lemma assigns_self_children stmt c :
  assigns_self stmt = false -> In c (children stmt) -> assigns_self c = false.
Proof.
  destruct stmt; cbn [assigns_self children]; intros H Hc;
    repeat match goal with
    | H : _ || _ = false |- _ => apply orb_false_elim in H as [? ?]
    end;
    try (eapply existsb_false_In; eassumption);
    try (destruct Hc as [<-|Hc]; [assumption|]);
    try (eapply existsb_false_In; eassumption);
    try (destruct Hc as [<-|Hc]; [assumption|]);
    try contradiction.
  destruct else_body as [e|]; [|contradiction].
  destruct Hc as [<-|[]]. assumption.
Qed.

Lemma set_field_self_ok inst field_name obj :
  field_name <> "self" -> preserves self_ok (set_field inst field_name obj).
Proof.
  intros Hne w Hw. unfold set_field.
  destruct (heap w !! inst) as [ci|] eqn:Hi; [|exact Hw]. cbn.
  intros p o Hp. cbn in Hp. destruct (decide (inst = p)) as [->|Hnp].
  - rewrite lookup_insert_eq in Hp. inversion Hp; subst. cbn.
    rewrite lookup_insert_ne by exact Hne. apply Hw. exact Hi.
  - rewrite lookup_insert_ne in Hp by exact Hnp. apply Hw. exact Hp.
Qed.

(** Evaluation keeps [self_ok], when no statement it can reach assigns to
    the field [self]. *)
Lemma Execute_self_ok classes fuel stmt :
  methods_keep_self classes ->
  assigns_self stmt = false ->
  preserves (on_world self_ok) (Execute classes fuel stmt).
Proof.
  intros Hm Hs.
  apply (Execute_preserves classes self_ok (fun st => assigns_self st = false)).
  - intros text w Hw. exact Hw.
  - intros object field_name field_value Hgood inst obj.
    apply set_field_self_ok. cbn in Hgood. apply orb_false_elim in Hgood as [Hf _].
    intros ->. discriminate.
  - intros st c. apply assigns_self_children.
  - exact Hm.
  - exact Hs.
Qed.

(** [ClassInstance::ClassInstance], run for the member of a new
    [NewInstance] node, seeds [self]. *)
Lemma NewInstance_ctor_self_ok cls args w :
  self_ok w -> self_ok (snd (NewInstance_ctor cls args w)).
Proof.
  intros Hw p obj. unfold NewInstance_ctor. cbn.
  destruct (decide (fresh (dom (heap w)) = p)) as [<-|Hne].
  - rewrite lookup_insert_eq. intros [= <-]. cbn. apply lookup_insert_eq.
  - rewrite lookup_insert_ne by exact Hne. apply Hw.
Qed.

Lemma NewInstance_ctor_fresh cls args w :
  exists this,
    heap w !! this = None /\
    fst (NewInstance_ctor cls args w) = NewInstance this args /\
    heap (snd (NewInstance_ctor cls args w)) =
      <[this := ClassInstance_ctor cls this]> (heap w).
Proof.
  exists (fresh (dom (heap w))). split; [|split; reflexivity].
  apply not_elem_of_dom. apply is_fresh.
Qed.

(** *** The exception [ReturnObj] *)

Lemma reaches_Return_raises classes fuel body s v s' :
  reaches_Return classes fuel body s v s' ->
  Execute classes fuel body s = (ReturnObj (Some v), s').
Proof.
  induction 1 as [fuel statement s v s' H
                 |fuel before stmt after s s1 v s' Hb _ IH
                 |fuel condition if_body else_body s c s1 v s' Hc Ht _ IH
                 |fuel condition if_body else_body s c s1 v s' Hc Ht _ IH].
  - rewrite Return_Execute_spec, H. reflexivity.
  - rewrite Execute_S. cbn [Execute_node]. unfold Compound_Execute.
    unfold bind at 1. rewrite Compound_loop_app, Hb.
    cbn [Compound_loop]. unfold bind at 1. rewrite IH. reflexivity.
  - rewrite Execute_S. cbn [Execute_node]. unfold IfElse_Execute, bind.
    rewrite Hc, Ht. exact IH.
  - rewrite Execute_S. cbn [Execute_node]. unfold IfElse_Execute, bind.
    rewrite Hc, Ht. exact IH.
Qed.

(** C2: [Return] executes its expression; on a present value it leaves by
    the exception [ReturnObj] carrying that value; on [None] it returns
    [None] normally, so that the statements after it are executed.
    [MethodBody] turns a [ReturnObj] of its body into a normal return of
    the value carried. No other node catches it or changes it:
    - the result of a node that is not a [MethodBody] stays the same when
      the calls it makes are replaced by calls that differ only where the
      original ones are left by [ReturnObj], unless the node itself is
      left by [ReturnObj];
    - when, in the calls that a node other than [Return] and [MethodBody]
      makes, every [ReturnObj] is replaced by another way to leave, made
      by [h] from the object carried, the result of the node is its
      result with [ReturnObj] replaced in the same way, in the same state:
      a [ReturnObj] that leaves the node is one that left a call, with its
      object, and none that left a call was caught;
    - a [Return] of a present value that is reached through [Compound]
      and [IfElse] nodes leaves them all, and the [MethodBody] around them
      returns that value in the state the [Return] left;
    - after a [Return] of [None] in a [Compound], the statements that
      follow are executed. *)
Theorem Return_raises_MethodBody_catches classes fuel :
  (forall statement s,
     Execute classes (S fuel) (Return statement) s =
     match Execute classes fuel statement s with
     | (Normal (Some v), s1) => (ReturnObj (Some v), s1)
     | (Normal None, s1) => (Normal None, s1)
     | (o, s1) => (o, s1)
     end) /\
  (forall body s,
     Execute classes (S fuel) (MethodBody body) s =
     match Execute classes fuel body s with
     | (Normal _, s1) => (Normal None, s1)
     | (ReturnObj obj, s1) => (Normal obj, s1)
     | (o, s1) => (o, s1)
     end) /\
  (forall stmt exec' print_instance',
     (forall body, stmt <> MethodBody body) ->
     (forall st s, same_unless_ReturnObj (exec' st s) (Execute classes fuel st s)) ->
     (forall p w,
        same_unless_ReturnObj (print_instance' p w) (Print_instance classes fuel p w)) ->
     forall s,
       same_unless_ReturnObj (Execute_node classes exec' print_instance' stmt s)
                             (Execute classes (S fuel) stmt s)) /\
  (forall (h : ObjectHolder -> Abrupt) stmt s,
     (forall statement, stmt <> Return statement) ->
     (forall body, stmt <> MethodBody body) ->
     Execute_node classes (fun st => rethrow h (Execute classes fuel st))
       (fun p => rethrow h (Print_instance classes fuel p)) stmt s
     = rethrown h (Execute classes (S fuel) stmt s)) /\
  (forall body s v s',
     reaches_Return classes fuel body s v s' ->
     Execute classes fuel body s = (ReturnObj (Some v), s') /\
     Execute classes (S fuel) (MethodBody body) s = (Normal (Some v), s')) /\
  (forall statement after s s1,
     Execute classes fuel statement s = (Normal None, s1) ->
     Execute classes (S (S fuel)) (Compound (Return statement :: after)) s
     = Execute classes (S (S fuel)) (Compound after) s1).
Proof.
  split; [|split; [|split; [|split; [|split]]]].
  - intros. apply Return_Execute_spec.
  - intros. apply MethodBody_Execute_spec.
  - intros stmt exec' print_instance' Hnot He Hp s. rewrite Execute_S.
    apply Execute_node_agree; try reflexivity; try assumption.
    right. exact Hnot.
  - intros h stmt s HnotR HnotM. rewrite Execute_S.
    apply Execute_node_rethrown; assumption.
  - intros body s v s' H. apply reaches_Return_raises in H. split; [exact H|].
    rewrite MethodBody_Execute_spec, H. reflexivity.
  - intros statement after s s1 H.
    rewrite !(Execute_S classes (S fuel)). cbn [Execute_node].
    unfold Compound_Execute. cbn [Compound_loop]. unfold bind.
    rewrite Return_Execute_spec, H. reflexivity.
Qed.

Lemma Return_raises_MethodBody_catches_witness :
  Execute samples.classes 5 samples.early_return
    (<["x" := Some (Number (-5))]> ∅, samples.world)
  = (Normal (Some (Number 0)), (<["x" := Some (Number (-5))]> ∅, samples.world)) /\
  Execute_node samples.classes
    (fun st => rethrow (fun _ => Aruntime_error "left") (Execute samples.classes 2 st))
    (fun p => rethrow (fun _ => Aruntime_error "left") (Print_instance samples.classes 2 p))
    (IfElse (BoolConst true) (Return (NumericConst 1)) None) (∅, samples.world)
  = (runtime_error "left", (∅, samples.world)).
Proof.
  split.
  - apply (proj1 (proj2 (proj2 (proj2 (proj2
             (Return_raises_MethodBody_catches samples.classes 4)))))).
    apply (reaches_in_Compound samples.classes 3 []
             (IfElse (Comparison cmp_Less (VariableValue ["x"]) (NumericConst 0))
                (Return (NumericConst 0)) None)
             [Return (Add (VariableValue ["x"]) (NumericConst 1))]
             _ (<["x" := Some (Number (-5))]> ∅, samples.world)).
    + reflexivity.
    + apply (reaches_in_if_body samples.classes 2 _ _ _ _ (Some (Bool true))
               (<["x" := Some (Number (-5))]> ∅, samples.world)).
      * reflexivity.
      * reflexivity.
      * apply reaches_here. reflexivity.
  - rewrite (proj1 (proj2 (proj2 (proj2
               (Return_raises_MethodBody_catches samples.classes 2))))
               (fun _ => Aruntime_error "left")).
    + reflexivity.
    + intros statement. discriminate.
    + intros body. discriminate.
Defined.

(** A [return] under an [if] leaves the method; [return None] does not. *)
Example early_return_negative :
  fst (Execute samples.classes 6 samples.early_return
         (<["x" := Some (Number (-5))]> ∅, samples.world))
  = Normal (Some (Number 0)).
Proof. vm_compute. reflexivity. Qed.

Example early_return_positive :
  fst (Execute samples.classes 6 samples.early_return
         (<["x" := Some (Number 4)]> ∅, samples.world))
  = Normal (Some (Number 5)).
Proof. vm_compute. reflexivity. Qed.

Example return_None_goes_on :
  fst (Execute samples.classes 6 samples.return_None_goes_on (∅, samples.world))
  = Normal (Some (Number 1)).
Proof. vm_compute. reflexivity. Qed.

(** *** [NewInstance] *)

(** C1 (as amended): executing a [NewInstance] node creates no instance.
    The node owns one instance, made when the node was built; when the
    class of that instance has [__init__] with as many parameters as the
    node has arguments, the arguments are executed in order and [__init__]
    is called on that instance, otherwise the arguments are not executed;
    the value returned is a handle to that same instance, every time. *)
Theorem NewInstance_Execute_member classes fuel cls_inst args s :
  Execute classes (S fuel) (NewInstance cls_inst args) s =
    (let* has := in_world (HasMethod classes cls_inst "__init__" (length args)) in
     let* _ :=
       if has then
         let* actual_args := Execute_args (Execute classes fuel) args in
         let* _ := in_world (Call classes (Execute classes fuel) cls_inst
                               "__init__" actual_args) in
         ret tt
       else ret tt in
     ret (Some (InstanceRef cls_inst))) s
  /\
  forall n o s',
    Execute classes n (NewInstance cls_inst args) s = (o, s') ->
    dom (heap (snd s')) = dom (heap (snd s)) /\
    forall v, o = Normal v ->
      v = Some (InstanceRef cls_inst) /\
      forall m v2 s2,
        Execute classes m (NewInstance cls_inst args) s' = (Normal v2, s2) -> v2 = v.
Proof.
  split; [reflexivity|].
  assert (Hval : forall n s0 v s1,
    Execute classes n (NewInstance cls_inst args) s0 = (Normal v, s1) ->
    v = Some (InstanceRef cls_inst)).
  { intros [|n] s0 v s1; [discriminate|].
    rewrite Execute_S. cbn [Execute_node]. unfold NewInstance_Execute, bind.
    destruct (in_world _ s0) as [[has| | | |] sa]; try discriminate.
    destruct has.
    - destruct (Execute_args _ args sa) as [[actual| | | |] sb]; try discriminate.
      destruct (in_world _ sb) as [[r| | | |] sc]; try discriminate.
      unfold ret. congruence.
    - unfold ret. congruence. }
  intros n o s' H. split.
  - pose proof (Execute_heap_dom classes n (NewInstance cls_inst args) s) as Hd.
    rewrite H in Hd. exact Hd.
  - intros v ->. split; [eapply Hval; exact H|].
    intros m v2 s2 H2. apply Hval in H2. apply Hval in H. congruence.
Qed.

Lemma NewInstance_Execute_member_witness :
  dom (heap (snd (snd (Execute samples.classes 5 (NewInstance 3%nat [NumericConst 3])
                         (∅, samples.world)))))
  = dom (heap samples.world) /\
  fst (Execute samples.classes 5 (NewInstance 3%nat [NumericConst 3]) (∅, samples.world))
  = Normal (Some (InstanceRef 3%nat)).
Proof.
  destruct (Execute samples.classes 5 (NewInstance 3%nat [NumericConst 3])
              (∅, samples.world)) as [o s'] eqn:E.
  destruct (proj2 (NewInstance_Execute_member samples.classes 0 3%nat [NumericConst 3]
                     (∅, samples.world)) 5%nat o s' E) as [Hdom Hv].
  split; [exact Hdom|].
  assert (Ho : o = Normal (Some (InstanceRef 3%nat))).
  { change o with (fst (o, s')). rewrite <- E. vm_compute. reflexivity. }
  exact Ho.
Defined.

(** C1 (as stated) fails: two executions of one [NewInstance] node give
    the same instance. In [samples.two_makes], [a] and [b] come from two
    calls of [make], whose body executes the one node [Thing()]: they are
    the same instance, and [print a.v] shows what was assigned to [b.v]. *)
Lemma NewInstance_twice_same_instance :
  (exists s1 s2,
     Execute samples.classes 2 (NewInstance 0%nat []) (∅, samples.world)
     = (Normal (Some (InstanceRef 0%nat)), s1) /\
     Execute samples.classes 2 (NewInstance 0%nat []) s1
     = (Normal (Some (InstanceRef 0%nat)), s2)) /\
  (exists closure w,
     Execute samples.classes 8 samples.two_makes (∅, samples.world)
     = (Normal None, (closure, w)) /\
     closure !! "a" = Some (Some (InstanceRef 0%nat)) /\
     closure !! "b" = Some (Some (InstanceRef 0%nat)) /\
     output w = "2" +:+ endl).
Proof.
  split.
  - exists (∅, samples.world), (∅, samples.world). split; vm_compute; reflexivity.
  - destruct (Execute samples.classes 8 samples.two_makes (∅, samples.world))
      as [o [closure w]] eqn:E.
    exists closure, w.
    assert (Ho : o = Normal None).
    { change o with (fst (o, (closure, w))). rewrite <- E. vm_compute. reflexivity. }
    assert (Ha : closure !! "a" = Some (Some (InstanceRef 0%nat))).
    { change closure with (fst (snd (o, (closure, w)))). rewrite <- E.
      vm_compute. reflexivity. }
    assert (Hb : closure !! "b" = Some (Some (InstanceRef 0%nat))).
    { change closure with (fst (snd (o, (closure, w)))). rewrite <- E.
      vm_compute. reflexivity. }
    assert (Hout : output w = "2" +:+ endl).
    { change w with (snd (snd (o, (closure, w)))). rewrite <- E.
      vm_compute. reflexivity. }
    subst o. repeat split; assumption.
Qed.

(** *** The field [self] *)

Lemma self_ok_empty : self_ok empty_World.
Proof. intros p obj H. cbn in H. rewrite lookup_empty in H. discriminate. Qed.

Lemma samples_world_self_ok : self_ok samples.world.
Proof.
  unfold samples.world, samples.build.
  repeat match goal with
  | |- context [NewInstance_ctor ?c ?a ?w] =>
      let H := fresh "H" in
      assert (H : self_ok (snd (NewInstance_ctor c a w)))
        by (apply NewInstance_ctor_self_ok; first [assumption | apply self_ok_empty]);
      destruct (NewInstance_ctor c a w) as [? ?]; cbn [snd] in H
  end.
  cbn [snd]. assumption.
Qed.

Lemma samples_methods_keep_self : methods_keep_self samples.classes.
Proof.
  intros cls c method m Hc Hm.
  destruct cls as [|[|[|[|cls]]]]; cbn in Hc; try discriminate;
    injection Hc as <-; cbn in Hm;
    repeat match type of Hm with
    | context [String.eqb ?a ?b] => destruct (String.eqb a b)
    end;
    try discriminate; injection Hm as <-; reflexivity.
Qed.

Lemma FieldAssignment_stores
    classes fuel object field_name field_value s p obj closure1 w1 ci :
  fst (VariableValue_Execute object s) = Normal (Some (InstanceRef p)) ->
  Execute classes fuel field_value s = (Normal obj, (closure1, w1)) ->
  heap w1 !! p = Some ci ->
  Execute classes (S fuel) (FieldAssignment object field_name field_value) s
  = (Normal obj,
     (closure1,
      mkWorld (<[p := mkClassInstance (cls_ ci) (<[field_name := obj]> (fields_ ci))]>
                 (heap w1))
              (output w1))).
Proof.
  intros Ht He Hp.
  rewrite Execute_S. cbn [Execute_node]. unfold FieldAssignment_Execute.
  unfold bind at 1.
  pose proof (VariableValue_Execute_state object s) as Hs.
  destruct (VariableValue_Execute object s) as [o s0]. cbn in Ht, Hs. subst o s0.
  cbn [TryAs_ClassInstance]. unfold bind. rewrite He.
  cbn [in_world]. unfold set_field. rewrite Hp. reflexivity.
Qed.

(** C8 (as amended): the field [self] of an instance is set to a handle to
    that instance when the instance is constructed, and executing a
    statement leaves it so in every instance, provided that neither the
    statement nor the body of any method that a lookup in a class of the
    class table can find contains a [FieldAssignment] to the field named
    [self]. A [FieldAssignment] to the field [self] of an instance
    replaces the handle by the value assigned, as for any other field:
    afterwards the field no longer refers to the instance, unless that
    value is a handle to it. *)
Theorem self_kept_unless_assigned classes :
  (forall cls args w,
     self_ok w -> self_ok (snd (NewInstance_ctor cls args w))) /\
  (methods_keep_self classes ->
   forall fuel stmt closure w,
     assigns_self stmt = false ->
     self_ok w ->
     self_ok (snd (snd (Execute classes fuel stmt (closure, w))))) /\
  (forall fuel object field_value s p obj closure1 w1 ci,
     fst (VariableValue_Execute object s) = Normal (Some (InstanceRef p)) ->
     Execute classes fuel field_value s = (Normal obj, (closure1, w1)) ->
     heap w1 !! p = Some ci ->
     (exists ci',
        heap (snd (snd (Execute classes (S fuel)
                          (FieldAssignment object "self" field_value) s))) !! p
        = Some ci' /\
        fields_ ci' !! "self" = Some obj) /\
     (obj <> Some (InstanceRef p) ->
      ~ self_ok (snd (snd (Execute classes (S fuel)
                             (FieldAssignment object "self" field_value) s))))).
Proof.
  split; [|split].
  - intros cls args w. apply NewInstance_ctor_self_ok.
  - intros Hm fuel stmt closure w Hs Hw.
    apply (Execute_self_ok classes fuel stmt Hm Hs (closure, w)). exact Hw.
  - intros fuel object field_value s p obj closure1 w1 ci Ht He Hp.
    rewrite (FieldAssignment_stores _ _ _ "self" _ _ _ _ _ _ _ Ht He Hp).
    cbn [snd heap]. split.
    + eexists. split; [apply lookup_insert_eq|]. cbn [fields_]. apply lookup_insert_eq.
    + intros Hne Hok.
      specialize (Hok p _ (lookup_insert_eq _ _ _)). cbn [fields_] in Hok.
      rewrite lookup_insert_eq in Hok. congruence.
Qed.

Lemma self_kept_unless_assigned_witness :
  self_ok (snd (snd (Execute samples.classes 8 samples.two_makes (∅, samples.world)))) /\
  ~ self_ok (snd (snd (Execute samples.classes 3
                         (FieldAssignment ["x"] "self" (NumericConst 5))
                         (samples.x_is_thing, samples.world)))).
Proof.
  split.
  - apply (proj1 (proj2 (self_kept_unless_assigned samples.classes))
             samples_methods_keep_self 8%nat samples.two_makes ∅ samples.world).
    + reflexivity.
    + exact samples_world_self_ok.
  - apply (proj2 (proj2 (proj2 (self_kept_unless_assigned samples.classes))
             2%nat ["x"] (NumericConst 5) (samples.x_is_thing, samples.world)
             0%nat (Some (Number 5)) samples.x_is_thing samples.world
             (ClassInstance_ctor 0%nat 0%nat) eq_refl eq_refl eq_refl)).
    discriminate.
Defined.

(** C8 (as stated) fails: [x.self = 5] replaces the handle that the field
    [self] of the instance held by the number 5. *)
Lemma FieldAssignment_overwrites_self :
  self_ok samples.world /\
  assigns_self samples.assign_self = true /\
  ~ self_ok (snd (snd (Execute samples.classes 3 samples.assign_self
                         (samples.x_is_thing, samples.world)))).
Proof.
  split; [exact samples_world_self_ok|]. split; [reflexivity|].
  intros H.
  assert (E : exists obj,
    heap (snd (snd (Execute samples.classes 3 samples.assign_self
                      (samples.x_is_thing, samples.world)))) !! 0%nat = Some obj /\
    fields_ obj !! "self" = Some (Some (Number 5))).
  { vm_compute. eexists. split; reflexivity. }
  destruct E as (obj & Hobj & Hself).
  specialize (H 0%nat obj Hobj). rewrite Hself in H. discriminate.
Qed.

End runtime_facts.

(** ** More properties of the lexer *)

Module lexer_more.
Import parse lexer lexer_facts.

(** X1: [operator==] on tokens decides equality: it returns [true] exactly
    when the two tokens are the same alternative with the same value. *)
Theorem Token_eq_decides lhs rhs : Token_eq lhs rhs = true <-> lhs = rhs.
Proof.
  split.
  - destruct lhs, rhs; cbn; try discriminate; try reflexivity; intros H.
    + apply Z.eqb_eq in H. congruence.
    + apply String.eqb_eq in H. congruence.
    + apply Ascii.eqb_eq in H. congruence.
    + apply String.eqb_eq in H. congruence.
  - intros <-. destruct lhs; cbn; try reflexivity.
    + apply Z.eqb_refl.
    + apply String.eqb_refl.
    + apply Ascii.eqb_refl.
    + apply String.eqb_refl.
Qed.

(** *** What the loop of [ReadInput] appends *)

Lemma LoadNumber_token input tokens input' tokens' :
  LoadNumber input tokens = Done (input', tokens') ->
  exists v, tokens' = tokens ++ [token_type.Number v].
Proof.
  unfold LoadNumber. destruct (peek input) as [r i1].
  destruct (if peek_is "0" r then _ else _) as [[i2 parsed]|]; [|discriminate].
  destruct (stoi parsed) as [v|]; [|discriminate].
  intros [= _ <-]. eauto.
Qed.

Lemma LoadString_token input tokens input' tokens' :
  LoadString input tokens = Done (input', tokens') ->
  exists s, tokens' = tokens ++ [token_type.String s].
Proof.
  unfold LoadString. destruct (extract_char input) as [r i1].
  destruct (while_ _ _ _) as [[it s]|]; [|discriminate].
  intros [= _ <-]. eauto.
Qed.

Lemma key_word_ordinary s t : key_word s = Some t -> ordinary t = true.
Proof.
  unfold key_word.
  repeat (destruct (String.eqb s _); [intros [= <-]; reflexivity|]).
  discriminate.
Qed.

Lemma LoadKeyWordOrId_token input tokens input' tokens' :
  LoadKeyWordOrId input tokens = (input', tokens') ->
  tokens' = tokens \/ exists t, ordinary t = true /\ tokens' = tokens ++ [t].
Proof.
  unfold LoadKeyWordOrId.
  destruct (while_ _ _ _) as [[i1 s]|].
  - destruct (key_word s) as [t|] eqn:Hk; intros [= _ <-]; right.
    + exists t. split; [eapply key_word_ordinary; eassumption | reflexivity].
    + eexists; split; [|reflexivity]. reflexivity.
  - intros [= _ <-]. left; reflexivity.
Qed.

Lemma digraph_token input tokens with_eq alone input' tokens' :
  ordinary with_eq = true ->
  (forall t, alone = Some t -> ordinary t = true) ->
  digraph input tokens with_eq alone = (input', tokens') ->
  tokens' = tokens \/ exists t, ordinary t = true /\ tokens' = tokens ++ [t].
Proof.
  unfold digraph. intros Hw Ha. destruct (peek input) as [r i1].
  destruct (peek_is "=" r).
  - destruct (get i1) as [r2 i2]. intros [= _ <-]. right; eauto.
  - destruct alone as [t|]; intros [= _ <-]; [right|left]; eauto.
Qed.

Lemma AdjustIndentCount_appends tokens indent space_count indent' tokens' :
  AdjustIndentCount tokens indent space_count = Done (indent', tokens') ->
  exists added, tokens' = tokens ++ added /\ turn_appends indent added indent'.
Proof.
  unfold AdjustIndentCount. intros H.
  destruct (negb (Z.rem space_count 2 =? 0)); [discriminate|].
  destruct (Z.quot space_count 2 - indent >? 1); [discriminate|].
  destruct (Z.quot space_count 2 - indent =? 1).
  { injection H as <- <-. eexists; split; [reflexivity|]. right; left. split; reflexivity. }
  destruct (Z.quot space_count 2 - indent <? 0) eqn:Hneg.
  - rewrite emit_dedents_spec in H.
    destruct (indent - Z.of_nat (Z.to_nat (- (Z.quot space_count 2 - indent))) <? 0) eqn:Hlt;
      [discriminate|].
    injection H as <- <-. apply Z.ltb_ge in Hlt.
    eexists; split; [reflexivity|]. right; right.
    eexists; split; [reflexivity|]. split; [reflexivity | exact Hlt].
  - injection H as <- <-. exists []. split; [by rewrite app_nil_r|].
    left. split; [reflexivity | left; reflexivity].
Qed.

Lemma ReadInput_body_appends st st' :
  ReadInput_body st = Continue st' \/ ReadInput_body st = Break st' ->
  exists added,
    parse.tokens_ st' = parse.tokens_ st ++ added /\
    turn_appends (indent_count st) added (indent_count st').
Proof.
  destruct st as [inp tokens sb lb indent]. unfold ReadInput_body.
  intros H. cbn [parse.tokens_ indent_count].
  assert (Hsame : exists added,
            tokens = tokens ++ added /\ turn_appends indent added indent).
  { exists []. split; [by rewrite app_nil_r|].
    left. split; [reflexivity | left; reflexivity]. }
  assert (Hstep : forall tokens',
      tokens' = tokens \/ (exists t, ordinary t = true /\ tokens' = tokens ++ [t]) ->
      exists added, tokens' = tokens ++ added /\ turn_appends indent added indent).
  { intros tokens' [->|(t & Ht & ->)]; [exact Hsame|].
    eexists; split; [reflexivity|]. left. split; [reflexivity|]. right; eauto. }
  destruct H as [H|H];
    repeat (break_match_hyp H; try discriminate);
    inversion H; subst; clear H; cbn [parse.tokens_ indent_count];
    try exact Hsame;
    try (eapply AdjustIndentCount_appends; eassumption);
    try (apply Hstep; first
           [ eapply LoadKeyWordOrId_token; eassumption
           | right;
             match goal with
             | HL : LoadNumber _ _ = Done _ |- _ =>
                 destruct (LoadNumber_token _ _ _ _ HL) as [? ->]
             | HL : LoadString _ _ = Done _ |- _ =>
                 destruct (LoadString_token _ _ _ _ HL) as [? ->]
             end; eexists; split; [|reflexivity]; reflexivity
           | eapply digraph_token; [| |eassumption];
               [reflexivity | intros ? [= <-]; reflexivity]
           | eapply digraph_token; [| |eassumption];
               [reflexivity | intros ? [=]]
           | right; eexists; split; [|reflexivity]; reflexivity ]).
Qed.

(** *** [Eof] *)

Lemma turn_appends_no_Eof indent added indent' :
  turn_appends indent added indent' -> no_Eof added.
Proof.
  unfold no_Eof.
  intros [[_ [->|(t & Ht & ->)]]|[[-> _]|(n & -> & _)]].
  - constructor.
  - constructor; [|constructor]. destruct t; try reflexivity; discriminate.
  - constructor; [reflexivity | constructor].
  - induction n as [|n IH]; cbn; constructor; [reflexivity | exact IH].
Qed.

Lemma ReadInput_loop_no_Eof bytes st :
  ReadInput_loop bytes = Done st -> no_Eof (parse.tokens_ st).
Proof.
  unfold ReadInput_loop.
  apply (while_invariant ReadInput_body (fun st => no_Eof (parse.tokens_ st))).
  - intros s s' Hs Hb.
    destruct (ReadInput_body_appends s s' (or_introl Hb)) as (added & -> & Ha).
    apply Forall_app. split; [exact Hs | eapply turn_appends_no_Eof; exact Ha].
  - intros s s' Hs Hb.
    destruct (ReadInput_body_appends s s' (or_intror Hb)) as (added & -> & Ha).
    apply Forall_app. split; [exact Hs | eapply turn_appends_no_Eof; exact Ha].
  - constructor.
Qed.

Lemma ReadInput_finish_Eof tokens indent :
  no_Eof tokens ->
  exists pre, ReadInput_finish tokens indent = pre ++ [token_type.Eof] /\ no_Eof pre.
Proof.
  intros H. unfold ReadInput_finish. eexists; split; [reflexivity|].
  assert (H1 : no_Eof (if negb (is_empty tokens) && negb (back_is_Newline tokens)
                       then tokens ++ [token_type.Newline] else tokens)).
  { destruct (_ && _); [|exact H]. apply Forall_app. split; [exact H|].
    constructor; [reflexivity | constructor]. }
  destruct (indent >? 0); [|exact H1].
  rewrite emit_dedents_spec. cbn [snd]. apply Forall_app. split; [exact H1|].
  generalize (Z.to_nat indent). intros n.
  induction n as [|n IH]; cbn; constructor; [reflexivity | exact IH].
Qed.

Lemma ReadInput_ends_with_Eof bytes tokens :
  ReadInput bytes = Done tokens ->
  exists pre, tokens = pre ++ [token_type.Eof] /\ no_Eof pre.
Proof.
  intros H. apply ReadInput_inv in H as (st & Hloop & ->).
  apply ReadInput_finish_Eof. eapply ReadInput_loop_no_Eof. exact Hloop.
Qed.

(** X2: when the lexer succeeds, its token sequence is not empty, its last
    token is [Eof], and no other token of the sequence is [Eof]. *)
Theorem ReadInput_Eof_only_last bytes tokens :
  ReadInput bytes = Done tokens ->
  last tokens = Some token_type.Eof /\
  exists pre, tokens = pre ++ [token_type.Eof] /\ no_Eof pre.
Proof.
  intros H. destruct (ReadInput_ends_with_Eof _ _ H) as (pre & -> & Hpre).
  split; [apply last_snoc | eauto].
Qed.

Lemma ReadInput_Eof_only_last_witness :
  last [ token_type.Id "a"; token_type.Char ":"; token_type.Newline;
         token_type.Indent; token_type.Id "b"; token_type.Char ":";
         token_type.Newline; token_type.Indent; token_type.Id "c";
         token_type.Newline; token_type.Dedent; token_type.Dedent;
         token_type.Eof ] = Some token_type.Eof /\
  exists pre,
    [ token_type.Id "a"; token_type.Char ":"; token_type.Newline;
      token_type.Indent; token_type.Id "b"; token_type.Char ":";
      token_type.Newline; token_type.Indent; token_type.Id "c";
      token_type.Newline; token_type.Dedent; token_type.Dedent;
      token_type.Eof ] = pre ++ [token_type.Eof] /\ no_Eof pre.
Proof.
  apply (ReadInput_Eof_only_last (String.list_ascii_of_string nested_source)).
  vm_compute. reflexivity.
Defined.

(** *** The cursor *)

Lemma advance_spec n l :
  (iter_ l < length (lexer.tokens_ l))%nat ->
  advance n l =
  mkLexer (lexer.tokens_ l) (Nat.min (iter_ l + n) (length (lexer.tokens_ l) - 1)).
Proof.
  revert l. induction n as [|n IH]; intros [tokens i] Hi; cbn [iter_ lexer.tokens_] in *.
  - cbn [advance]. f_equal. lia.
  - cbn [advance NextToken fst iter_ lexer.tokens_].
    destruct (S i =? length tokens)%nat eqn:E; cbn [negb].
    + apply Nat.eqb_eq in E. rewrite IH by (cbn; lia). cbn [iter_ lexer.tokens_].
      f_equal. lia.
    + apply Nat.eqb_neq in E. rewrite IH by (cbn; lia). cbn [iter_ lexer.tokens_].
      f_equal. lia.
Qed.

(** X3: on a lexer that [Lexer::Lexer] has built, [n] calls of [NextToken]
    leave the cursor on the token of index [n], or on the last token when
    there are not that many; from then on [CurrentToken] and every further
    [NextToken] give [Eof], and [NextToken] no longer moves the cursor. *)
Theorem NextToken_stops_at_Eof bytes l :
  Lexer_ctor bytes = Done l ->
  forall n,
    CurrentToken (advance n l) =
      lexer.tokens_ l !! Nat.min n (length (lexer.tokens_ l) - 1) /\
    ((length (lexer.tokens_ l) - 1 <= n)%nat ->
     CurrentToken (advance n l) = Some token_type.Eof /\
     NextToken (advance n l) = (advance n l, Some token_type.Eof)).
Proof.
  unfold Lexer_ctor. destruct (ReadInput bytes) as [tokens|] eqn:HR; [|discriminate].
  intros [= <-] n. destruct (ReadInput_ends_with_Eof _ _ HR) as (pre & -> & _).
  cbn [lexer.tokens_].
  assert (Hlen : length (pre ++ [token_type.Eof]) = S (length pre))
    by (rewrite length_app; cbn; lia).
  rewrite advance_spec by (cbn; lia). cbn [iter_ lexer.tokens_].
  rewrite Hlen. replace (S (length pre) - 1)%nat with (length pre) by lia.
  unfold CurrentToken. cbn [iter_ lexer.tokens_]. split; [reflexivity|].
  intros Hn. rewrite Nat.min_r by lia.
  assert (HE : (pre ++ [token_type.Eof]) !! length pre = Some token_type.Eof).
  { rewrite lookup_app_r by lia. by rewrite Nat.sub_diag. }
  split; [exact HE|].
  unfold NextToken. cbn [iter_ lexer.tokens_]. rewrite Hlen, Nat.eqb_refl. cbn [negb].
  unfold CurrentToken. cbn [iter_ lexer.tokens_]. rewrite HE. reflexivity.
Qed.

Lemma NextToken_stops_at_Eof_witness :
  CurrentToken (advance 5 (mkLexer [token_type.Id "x"; token_type.Newline;
                                    token_type.Eof] 0))
  = [token_type.Id "x"; token_type.Newline; token_type.Eof]
      !! Nat.min 5 (length [token_type.Id "x"; token_type.Newline; token_type.Eof] - 1)
  /\
  ((length [token_type.Id "x"; token_type.Newline; token_type.Eof] - 1 <= 5)%nat ->
   CurrentToken (advance 5 (mkLexer [token_type.Id "x"; token_type.Newline;
                                     token_type.Eof] 0)) = Some token_type.Eof /\
   NextToken (advance 5 (mkLexer [token_type.Id "x"; token_type.Newline;
                                  token_type.Eof] 0))
   = (advance 5 (mkLexer [token_type.Id "x"; token_type.Newline;
                          token_type.Eof] 0), Some token_type.Eof)).
Proof.
  apply (NextToken_stops_at_Eof (String.list_ascii_of_string "x")
           (mkLexer [token_type.Id "x"; token_type.Newline; token_type.Eof] 0)).
  vm_compute. reflexivity.
Defined.

(** *** Indentation never goes below zero *)

Lemma count_take_repeat_Dedent m k :
  count_Dedent (take m (repeat token_type.Dedent k)) = Z.of_nat (Nat.min m k) /\
  count_Indent (take m (repeat token_type.Dedent k)) = 0.
Proof.
  revert m. induction k as [|k IH]; intros m.
  - destruct m; cbn; split; try reflexivity; rewrite Nat.min_0_r; reflexivity.
  - destruct m as [|m]; [split; reflexivity|].
    cbn [repeat take]. destruct (IH m) as [H1 H2].
    change (token_type.Dedent :: take m (repeat token_type.Dedent k))
      with ([token_type.Dedent] ++ take m (repeat token_type.Dedent k)).
    rewrite count_Dedent_app, count_Indent_app, H1, H2.
    change (count_Dedent [token_type.Dedent]) with 1.
    change (count_Indent [token_type.Dedent]) with 0.
    split; [|reflexivity]. cbn [Nat.min]. lia.
Qed.

Lemma never_below_zero_app tokens added indent :
  balanced tokens indent ->
  never_below_zero tokens ->
  (forall m, count_Dedent (take m added) <= count_Indent (take m added) + indent) ->
  never_below_zero (tokens ++ added).
Proof.
  intros [H0 Hb] Hn Ha n. rewrite take_app.
  rewrite count_Dedent_app, count_Indent_app.
  destruct (decide (n <= length tokens)%nat) as [Hle|Hgt].
  - replace (n - length tokens)%nat with 0%nat by lia. rewrite take_0.
    change (count_Dedent []) with 0. change (count_Indent []) with 0.
    specialize (Hn n). lia.
  - rewrite take_ge by lia. specialize (Ha (n - length tokens)%nat). lia.
Qed.

Lemma turn_appends_never_below_zero tokens indent added indent' :
  balanced tokens indent ->
  never_below_zero tokens ->
  turn_appends indent added indent' ->
  balanced (tokens ++ added) indent' /\ never_below_zero (tokens ++ added).
Proof.
  intros Hbal Hn Ha. pose proof Hbal as [H0 Hb].
  destruct Ha as [[-> [->|(t & Ht & ->)]]|[[-> ->]|(k & -> & -> & Hk)]].
  - rewrite app_nil_r. split; assumption.
  - assert (Hp : plain t = true) by (destruct t; try reflexivity; discriminate).
    split; [apply balanced_plain; assumption|].
    apply (never_below_zero_app _ _ indent Hbal Hn). intros m.
    destruct (count_plain t Hp) as [Hi Hd].
    destruct m; cbn [take]; [change (count_Dedent []) with 0;
                             change (count_Indent []) with 0; lia|].
    rewrite take_nil. rewrite Hi, Hd. lia.
  - split.
    + split; [lia|]. rewrite count_Indent_app, count_Dedent_app.
      change (count_Indent [token_type.Indent]) with 1.
      change (count_Dedent [token_type.Indent]) with 0. lia.
    + apply (never_below_zero_app _ _ indent Hbal Hn). intros m.
      destruct m; cbn [take]; [change (count_Dedent []) with 0;
                               change (count_Indent []) with 0; lia|].
      rewrite take_nil.
      change (count_Indent [token_type.Indent]) with 1.
      change (count_Dedent [token_type.Indent]) with 0. lia.
  - split.
    + split; [exact Hk|]. rewrite count_Indent_app, count_Dedent_app,
        count_Indent_repeat_Dedent, count_Dedent_repeat_Dedent. lia.
    + apply (never_below_zero_app _ _ indent Hbal Hn). intros m.
      destruct (count_take_repeat_Dedent m k) as [-> ->]. lia.
Qed.

Lemma ReadInput_loop_never_below_zero bytes st :
  ReadInput_loop bytes = Done st ->
  balanced (parse.tokens_ st) (indent_count st) /\ never_below_zero (parse.tokens_ st).
Proof.
  unfold ReadInput_loop.
  apply (while_invariant ReadInput_body
           (fun st => balanced (parse.tokens_ st) (indent_count st) /\
                      never_below_zero (parse.tokens_ st))).
  - intros s s' [Hb Hn] Hc.
    destruct (ReadInput_body_appends s s' (or_introl Hc)) as (added & -> & Ha).
    eapply turn_appends_never_below_zero; eassumption.
  - intros s s' [Hb Hn] Hc.
    destruct (ReadInput_body_appends s s' (or_intror Hc)) as (added & -> & Ha).
    eapply turn_appends_never_below_zero; eassumption.
  - split; [split; [cbn; lia | reflexivity]|]. intros n.
    cbn [ReadInput_start parse.tokens_]. rewrite take_nil.
    change (count_Dedent []) with 0. change (count_Indent []) with 0. lia.
Qed.

(** X4: when the lexer succeeds, no prefix of its token sequence has more
    [Dedent]s than [Indent]s: a [Dedent] always closes an [Indent] that is
    open. *)
Theorem ReadInput_never_below_zero bytes tokens :
  ReadInput bytes = Done tokens -> never_below_zero tokens.
Proof.
  intros H. apply ReadInput_inv in H as (st & Hloop & ->).
  destruct (ReadInput_loop_never_below_zero _ _ Hloop) as [Hbal Hn].
  unfold ReadInput_finish.
  set (t1 := if negb (is_empty (parse.tokens_ st)) &&
                negb (back_is_Newline (parse.tokens_ st))
             then parse.tokens_ st ++ [token_type.Newline] else parse.tokens_ st).
  assert (H1 : balanced t1 (indent_count st) /\ never_below_zero t1).
  { unfold t1. destruct (_ && _); [|split; assumption].
    apply (turn_appends_never_below_zero _ (indent_count st)); try assumption.
    left. split; [reflexivity|]. right. eexists; split; [|reflexivity]. reflexivity. }
  destruct H1 as [Hb1 Hn1]. pose proof Hb1 as [H0 _].
  set (t2 := if indent_count st >? 0
             then snd (emit_dedents (Z.to_nat (indent_count st)) (indent_count st) t1)
             else t1).
  assert (H2 : exists i2, balanced t2 i2 /\ never_below_zero t2).
  { unfold t2. destruct (indent_count st >? 0); [|eauto].
    rewrite emit_dedents_spec. cbn [snd]. exists 0.
    apply (turn_appends_never_below_zero _ (indent_count st)); try assumption.
    right; right. eexists; split; [reflexivity|]. split; lia. }
  destruct H2 as (i2 & Hb2 & Hn2).
  apply (never_below_zero_app _ _ i2 Hb2 Hn2). intros m. destruct Hb2 as [Hi2 _].
  destruct m; cbn [take]; [change (count_Dedent []) with 0;
                           change (count_Indent []) with 0; lia|].
  rewrite take_nil.
  change (count_Indent [token_type.Eof]) with 0.
  change (count_Dedent [token_type.Eof]) with 0. lia.
Qed.

Lemma ReadInput_never_below_zero_witness :
  never_below_zero
    [ token_type.Id "a"; token_type.Char ":"; token_type.Newline;
      token_type.Indent; token_type.Id "b"; token_type.Char ":";
      token_type.Newline; token_type.Indent; token_type.Id "c";
      token_type.Newline; token_type.Dedent; token_type.Dedent;
      token_type.Eof ].
Proof.
  apply (ReadInput_never_below_zero (String.list_ascii_of_string nested_source)).
  vm_compute. reflexivity.
Defined.

(** *** [AdjustIndentCount] *)

(** X5: for a space count that is not negative, [AdjustIndentCount] fails
    when the count is odd or asks for more than one level above the
    current one; otherwise the level becomes half the count, and one
    [Indent], or one [Dedent] for each level left, is appended. *)
Theorem AdjustIndentCount_level tokens indent_count space_count :
  0 <= space_count ->
  AdjustIndentCount tokens indent_count space_count =
  if negb (Z.rem space_count 2 =? 0) then Thrown "Odd space count in indent"
  else if Z.quot space_count 2 >? indent_count + 1
       then Thrown "Trying to make more indent than needs"
       else Done (Z.quot space_count 2,
                  tokens ++ indent_tokens indent_count (Z.quot space_count 2)).
Proof.
  intros Hsc. unfold AdjustIndentCount, indent_tokens.
  destruct (negb (Z.rem space_count 2 =? 0)); [reflexivity|].
  assert (Hq : 0 <= Z.quot space_count 2) by (apply Z.quot_pos; lia).
  set (level := Z.quot space_count 2) in *.
  destruct (level - indent_count >? 1) eqn:E1.
  { assert ((level >? indent_count + 1) = true) as -> by lia. reflexivity. }
  assert ((level >? indent_count + 1) = false) as -> by lia.
  destruct (level - indent_count =? 1) eqn:E2.
  { assert ((level >? indent_count) = true) as -> by lia.
    f_equal. f_equal. lia. }
  assert ((level >? indent_count) = false) as -> by lia.
  destruct (level - indent_count <? 0) eqn:E3.
  - rewrite emit_dedents_spec.
    assert (Hn : Z.of_nat (Z.to_nat (- (level - indent_count))) = indent_count - level)
      by lia.
    rewrite Hn.
    assert ((indent_count - (indent_count - level) <? 0) = false) as -> by lia.
    f_equal. f_equal; [lia|]. f_equal. f_equal. lia.
  - assert (indent_count - level = 0) as -> by lia. cbn.
    rewrite app_nil_r. f_equal. f_equal. lia.
Qed.

Lemma AdjustIndentCount_level_witness :
  AdjustIndentCount [token_type.Newline] 3 2 =
  Done (1, [token_type.Newline; token_type.Dedent; token_type.Dedent]).
Proof.
  rewrite (AdjustIndentCount_level [token_type.Newline] 3 2); [reflexivity | lia].
Defined.

(** *** The first character *)

(** X6: a stream whose first character is a space is refused, whatever
    follows. *)
Theorem ReadInput_leading_space rest :
  ReadInput (space :: rest) = Thrown "Space in the begining of istream".
Proof. unfold ReadInput, ReadInput_loop. rewrite while_unfold. reflexivity. Qed.

(** *** [LoadString] *)

Lemma append_empty_r s : s +:+ "" = s.
Proof.
  induction s as [|c s IH]; [reflexivity|].
  change (String.String c s +:+ "") with (String.String c (s +:+ "")).
  f_equal. exact IH.
Qed.

Lemma push_back_append s c t :
  push_back s c +:+ t = s +:+ String.String c t.
Proof.
  unfold push_back. induction s as [|a s IH]; [reflexivity|].
  change (String.String a ((s +:+ String.String c "") +:+ t)
          = String.String a (s +:+ String.String c t)).
  f_equal. exact IH.
Qed.

Lemma LoadString_loop_plain quote rest body :
  Forall (fun c => c <> quote /\ c <> backslash) body ->
  forall s n, (length body < n)%nat ->
    while_ n (LoadString_body quote) (body ++ quote :: rest, s)
    = Done (rest, s +:+ String.string_of_list_ascii body).
Proof.
  induction 1 as [|c body [Hq Hb] Hall IH]; intros s n Hn;
    (destruct n as [|n]; [cbn in Hn; lia|]); rewrite while_unfold.
  - cbn [app LoadString_body]. rewrite Ascii.eqb_refl.
    cbn [String.string_of_list_ascii]. by rewrite append_empty_r.
  - cbn [app LoadString_body].
    apply Ascii.eqb_neq in Hq, Hb. rewrite Hq, Hb.
    rewrite IH by (cbn in Hn; lia). cbn [String.string_of_list_ascii].
    by rewrite push_back_append.
Qed.

(** X7: on a stream that starts with a quote character, followed by
    characters that are neither that quote nor a backslash and then by the
    same quote, [LoadString] appends the [String] token of exactly those
    characters and leaves the stream just after the closing quote. *)
Theorem LoadString_plain_body quote body rest tokens :
  isspace quote = false ->
  Forall (fun c => c <> quote /\ c <> backslash) body ->
  LoadString (from_bytes (quote :: body ++ quote :: rest)) tokens =
  Done (from_bytes rest,
        tokens ++ [token_type.String (String.string_of_list_ascii body)]).
Proof.
  intros Hq Hbody. unfold LoadString, extract_char, from_bytes.
  cbn [good eofbit failbit negb andb buf skip_ws]. rewrite Hq. cbn [to_char buf].
  rewrite (LoadString_loop_plain quote rest body Hbody).
  - reflexivity.
  - rewrite length_app. cbn. lia.
Qed.

Lemma LoadString_plain_body_witness :
  LoadString (from_bytes (squote :: String.list_ascii_of_string "it is"
                            ++ squote :: String.list_ascii_of_string " + 1"))
             [token_type.Print] =
  Done (from_bytes (String.list_ascii_of_string " + 1"),
        [token_type.Print] ++
        [token_type.String (String.string_of_list_ascii
                              (String.list_ascii_of_string "it is"))]).
Proof.
  apply (LoadString_plain_body squote (String.list_ascii_of_string "it is")).
  - reflexivity.
  - repeat constructor; discriminate.
Defined.

(** *** [SkipComment] *)

Lemma SkipComment_loop_newline rest l :
  Forall (fun c => c <> nl) l ->
  forall n, (length l < n)%nat ->
    while_ n SkipComment_body (from_bytes (l ++ nl :: rest)) = Done (from_bytes rest).
Proof.
  induction 1 as [|c l Hc Hall IH]; intros n Hn;
    (destruct n as [|n]; [cbn in Hn; lia|]); rewrite while_unfold.
  - reflexivity.
  - unfold SkipComment_body, from_bytes.
    cbn [app to_bool failbit negb get good eofbit andb buf to_char].
    apply Ascii.eqb_neq in Hc. rewrite Hc. apply IH. cbn in Hn. lia.
Qed.

Lemma SkipComment_loop_end l :
  Forall (fun c => c <> nl) l ->
  forall n, (S (length l) < n)%nat ->
    while_ n SkipComment_body (from_bytes l) = Done (mk_istream [] true true).
Proof.
  induction 1 as [|c l Hc Hall IH]; intros n Hn;
    (destruct n as [|n]; [cbn in Hn; lia|]); rewrite while_unfold.
  - destruct n as [|n]; [cbn in Hn; lia|]. reflexivity.
  - unfold SkipComment_body, from_bytes.
    cbn [to_bool failbit negb get good eofbit andb buf to_char].
    apply Ascii.eqb_neq in Hc. rewrite Hc. apply IH. cbn in Hn. lia.
Qed.

Lemma SkipComment_newline l rest :
  Forall (fun c => c <> nl) l ->
  SkipComment (from_bytes (l ++ nl :: rest)) = from_bytes rest.
Proof.
  intros Hl. unfold SkipComment.
  rewrite (SkipComment_loop_newline rest l Hl); [reflexivity|].
  cbn [from_bytes buf]. rewrite length_app. cbn. lia.
Qed.

(** X8: [SkipComment] reads up to and including the first newline and
    leaves the stream, still good, just after it; when there is no
    newline it reads to the end, and leaves the stream failed. *)
Theorem SkipComment_stops_after_newline l :
  Forall (fun c => c <> nl) l ->
  (forall rest, SkipComment (from_bytes (l ++ nl :: rest)) = from_bytes rest) /\
  SkipComment (from_bytes l) = mk_istream [] true true.
Proof.
  intros Hl. split.
  - intros rest. apply SkipComment_newline. exact Hl.
  - unfold SkipComment.
    rewrite (SkipComment_loop_end l Hl); [reflexivity|]. cbn [from_bytes buf]. lia.
Qed.

Lemma SkipComment_stops_after_newline_witness :
  (forall rest,
     SkipComment (from_bytes (String.list_ascii_of_string " a comment" ++ nl :: rest))
     = from_bytes rest) /\
  SkipComment (from_bytes (String.list_ascii_of_string " a comment"))
  = mk_istream [] true true.
Proof.
  apply (SkipComment_stops_after_newline (String.list_ascii_of_string " a comment")).
  repeat constructor; discriminate.
Defined.

(** *** Leading blank and comment lines *)

(** Away from a leading space, [is_stream_begin] changes nothing but
    itself. *)
Lemma ReadInput_body_begin i tokens lb indent :
  no_leading_space (buf i) ->
  match ReadInput_body (mkRS i tokens true lb indent),
        ReadInput_body (mkRS i tokens false lb indent) with
  | Continue s1, Continue s2 => s1 = s2
  | Break s1, Break s2 =>
      parse.tokens_ s1 = parse.tokens_ s2 /\ indent_count s1 = indent_count s2
  | Throw m1, Throw m2 => m1 = m2
  | _, _ => False
  end.
Proof.
  intros Hns. unfold ReadInput_body.
  destruct (negb (to_bool i)); [split; reflexivity|].
  destruct (get i) as [r i1] eqn:Hg.
  destruct (negb (good i1)) eqn:Hgood; [split; reflexivity|].
  apply negb_false_iff in Hgood.
  destruct (get_spec _ _ _ Hg) as (_ & Hok & _ & _).
  assert (Hb1 : to_bool i1 = true).
  { unfold good, to_bool in *. destruct (failbit i1); [|reflexivity].
    rewrite andb_false_r in Hgood. discriminate. }
  destruct (Hok Hb1) as (_ & c & -> & Hbuf). cbn [to_char].
  rewrite Hbuf in Hns. cbn in Hns. apply Ascii.eqb_neq in Hns. rewrite Hns.
  cbn [andb].
  match goal with
  | |- match ?x with _ => _ end => destruct x; try reflexivity
  end.
  split; reflexivity.
Qed.

Lemma ReadInput_loop_begin n i tokens lb indent :
  no_leading_space (buf i) ->
  tokens_and_level (while_ n ReadInput_body (mkRS i tokens true lb indent)) =
  tokens_and_level (while_ n ReadInput_body (mkRS i tokens false lb indent)).
Proof.
  intros Hns. destruct n as [|n]; [reflexivity|]. rewrite !while_unfold.
  pose proof (ReadInput_body_begin i tokens lb indent Hns) as H.
  destruct (ReadInput_body (mkRS i tokens true lb indent)) as [s1|s1|m1],
           (ReadInput_body (mkRS i tokens false lb indent)) as [s2|s2|m2];
    try contradiction.
  - subst. reflexivity.
  - destruct H as [H1 H2]. cbn [tokens_and_level]. rewrite H1, H2. reflexivity.
  - subst. reflexivity.
Qed.

Lemma ReadInput_from_line_begin bytes k :
  no_leading_space bytes ->
  (S (ReadInput_measure (ReadInput_start bytes)) <= k)%nat ->
  match tokens_and_level
          (while_ k ReadInput_body (mkRS (from_bytes bytes) [] false true 0)) with
  | Done (tokens, indent) => Done (ReadInput_finish tokens indent)
  | Thrown msg => Thrown msg
  end = ReadInput bytes.
Proof.
  intros Hns Hk.
  rewrite <- (while_fuel ReadInput_body ReadInput_measure ReadInput_body_decreases
                (S (ReadInput_measure (ReadInput_start bytes))) k)
    by (unfold ReadInput_start, ReadInput_measure in *; cbn in *; lia).
  rewrite <- ReadInput_loop_begin by exact Hns.
  unfold ReadInput, ReadInput_loop, ReadInput_start.
  destruct (while_ _ ReadInput_body _); reflexivity.
Qed.

(** X9: a blank line, or a comment line, at the very start of the stream
    changes nothing of what the lexer gives, tokens or error, provided
    that what follows does not start with a space. *)
Theorem ReadInput_leading_line_ignored bytes :
  no_leading_space bytes ->
  ReadInput (nl :: bytes) = ReadInput bytes /\
  forall comment,
    Forall (fun c => c <> nl) comment ->
    ReadInput ("#"%char :: comment ++ nl :: bytes) = ReadInput bytes.
Proof.
  intros Hns. split.
  - rewrite <- (ReadInput_from_line_begin bytes
                  (ReadInput_measure (ReadInput_start (nl :: bytes))) Hns)
      by (unfold ReadInput_start, ReadInput_measure; cbn; lia).
    unfold ReadInput at 1, ReadInput_loop. rewrite while_unfold.
    change (ReadInput_body (ReadInput_start (nl :: bytes)))
      with (Continue (mkRS (from_bytes bytes) [] false true 0)).
    cbv iota. destruct (while_ _ ReadInput_body _); reflexivity.
  - intros comment Hc.
    rewrite <- (ReadInput_from_line_begin bytes
                  (ReadInput_measure
                     (ReadInput_start ("#"%char :: comment ++ nl :: bytes))) Hns)
      by (unfold ReadInput_start, ReadInput_measure; cbn [input from_bytes buf
            is_line_begin length]; rewrite length_app; cbn [length]; lia).
    unfold ReadInput at 1, ReadInput_loop. rewrite while_unfold.
    assert (Hfirst : ReadInput_body
                       (ReadInput_start ("#"%char :: comment ++ nl :: bytes))
                     = Continue (mkRS (from_bytes bytes) [] false true 0)).
    { unfold ReadInput_body, ReadInput_start, from_bytes.
      cbn [to_bool failbit negb get good eofbit andb buf to_char].
      change (("#" =? space)%char) with false. change (("#" =? nl)%char) with false.
      change (("#" =? "#")%char) with true. cbv iota.
      pose proof (SkipComment_newline comment bytes Hc) as Hs.
      unfold from_bytes in Hs. rewrite Hs. reflexivity. }
    rewrite Hfirst. cbv iota. destruct (while_ _ ReadInput_body _); reflexivity.
Qed.

Lemma ReadInput_leading_line_ignored_witness :
  ReadInput (nl :: String.list_ascii_of_string "x = 1")
  = ReadInput (String.list_ascii_of_string "x = 1") /\
  forall comment,
    Forall (fun c => c <> nl) comment ->
    ReadInput ("#"%char :: comment ++ nl :: String.list_ascii_of_string "x = 1")
    = ReadInput (String.list_ascii_of_string "x = 1").
Proof.
  apply (ReadInput_leading_line_ignored (String.list_ascii_of_string "x = 1")).
  cbn. discriminate.
Defined.

End lexer_more.

(** ** More properties of the runtime and of the evaluator *)

Module runtime_more.
Import runtime runtime_spec runtime_more_spec runtime_basics preserve_facts.

(** *** Method lookup *)

Lemma GetMethod_own c method m :
  List.find (fun m => String.eqb method (name m)) (methods_ c) = Some m ->
  GetMethod c method = Some m.
Proof. destruct c as [n ms p]. cbn [GetMethod methods_]. intros ->. reflexivity. Qed.

Lemma GetMethod_inherited c method :
  List.find (fun m => String.eqb method (name m)) (methods_ c) = None ->
  GetMethod c method =
  match parent_ c with Some parent => GetMethod parent method | None => None end.
Proof.
  destruct c as [n ms [p|]]; cbn [GetMethod methods_ parent_]; intros ->; reflexivity.
Qed.

Lemma GetMethod_name_eq :
  forall c method m, GetMethod c method = Some m -> name m = method.
Proof.
  fix IH 1. intros c method m H.
  destruct (List.find (fun m => String.eqb method (name m)) (methods_ c)) as [m0|] eqn:E.
  - rewrite (GetMethod_own _ _ _ E) in H. injection H as <-.
    apply List.find_some in E as [_ E]. apply String.eqb_eq in E. congruence.
  - rewrite (GetMethod_inherited _ _ E) in H.
    destruct c as [n ms [p|]]; cbn [parent_] in H; [|discriminate].
    exact (IH p method m H).
Qed.

(** X10: [GetMethod] only returns a method that bears the name asked for;
    a method that the class defines itself is found there, whatever its
    ancestors define; and when the class defines no method of that name,
    the answer is that of its parent, or nothing at the root. *)
Theorem GetMethod_resolution c method :
  (forall m, GetMethod c method = Some m -> name m = method) /\
  (forall m, In m (methods_ c) -> name m = method ->
     exists m', GetMethod c method = Some m' /\ In m' (methods_ c) /\
                name m' = method) /\
  ((forall m, In m (methods_ c) -> name m <> method) ->
   GetMethod c method =
   match parent_ c with Some parent => GetMethod parent method | None => None end).
Proof.
  split; [apply GetMethod_name_eq|]. split.
  - intros m Hin Hname.
    destruct (List.find (fun m => String.eqb method (name m)) (methods_ c)) as [m'|] eqn:E.
    + exists m'. split; [apply GetMethod_own; exact E|].
      apply List.find_some in E as [Hin' E]. apply String.eqb_eq in E. split; congruence.
    + exfalso. pose proof (List.find_none _ _ E m Hin) as Hn. cbn in Hn.
      rewrite Hname, String.eqb_refl in Hn. discriminate.
  - intros Hnone. apply GetMethod_inherited.
    destruct (List.find (fun m => String.eqb method (name m)) (methods_ c)) as [m'|] eqn:E;
      [|reflexivity].
    apply List.find_some in E as [Hin' E]. apply String.eqb_eq in E.
    exfalso. apply (Hnone m' Hin'). congruence.
Qed.

(** *** Comparisons of numbers and of empty holders *)

(** X11: on two [Number]s the six comparators never fail, change nothing,
    and are the six relations on integers. *)
Theorem Number_comparisons classes exec cmp a b w :
  apply_Comparator classes exec cmp (Some (Number a)) (Some (Number b)) w
  = (Normal (Z_relation cmp a b), w).
Proof.
  destruct cmp; cbn [apply_Comparator Z_relation];
    unfold NotEqual, Greater, LessOrEqual, GreaterOrEqual, bind, ret; cbn;
    try reflexivity.
  - destruct (a <? b) eqn:E1; cbn; [f_equal; f_equal; lia|].
    destruct (a =? b) eqn:E2; cbn; f_equal; f_equal; lia.
  - destruct (a <? b) eqn:E1; cbn; [f_equal; f_equal; lia|].
    destruct (a =? b) eqn:E2; cbn; f_equal; f_equal; lia.
  - destruct (a <? b) eqn:E1; cbn; f_equal; f_equal; lia.
Qed.

(** X12: [Less], [Greater], [LessOrEqual] and [GreaterOrEqual] raise a
    runtime error as soon as one operand is an empty holder, also when
    both are, although [Equal] holds two empty holders to be equal. *)
Theorem order_comparison_of_None classes exec cmp lhs rhs w :
  uses_Less cmp = true ->
  lhs = None \/ rhs = None ->
  apply_Comparator classes exec cmp lhs rhs w
  = (runtime_error "Cannot compare objects for less", w) /\
  Equal classes exec None None w = (Normal true, w).
Proof.
  intros Hc Hn. split; [|reflexivity].
  assert (HL : Less classes exec lhs rhs w
               = (runtime_error "Cannot compare objects for less", w)).
  { destruct Hn as [-> | ->]; [reflexivity|]. destruct lhs; reflexivity. }
  destruct cmp; try discriminate; cbn [apply_Comparator];
    unfold Greater, LessOrEqual, GreaterOrEqual, bind; rewrite ?HL; try reflexivity.
  unfold Greater, bind. rewrite HL. reflexivity.
Qed.

Lemma order_comparison_of_None_witness :
  apply_Comparator samples.classes (Execute samples.classes 3) cmp_LessOrEqual
    None None samples.world
  = (runtime_error "Cannot compare objects for less", samples.world) /\
  Equal samples.classes (Execute samples.classes 3) None None samples.world
  = (Normal true, samples.world).
Proof.
  apply (order_comparison_of_None samples.classes (Execute samples.classes 3)
           cmp_LessOrEqual None None samples.world).
  - reflexivity.
  - left. reflexivity.
Defined.

(** *** What evaluation keeps *)

(** X13: executing a statement creates no instance, destroys none, and
    leaves every instance in its class: at every address, there is an
    instance after the execution exactly when there was one before, and
    it refers to the same class. *)
Theorem Execute_keeps_instances classes fuel stmt s p :
  cls_ <$> heap (snd (snd (Execute classes fuel stmt s))) !! p
  = cls_ <$> heap (snd s) !! p.
Proof.
  pose (P := fun w : World => cls_ <$> heap w !! p = cls_ <$> heap (snd s) !! p).
  assert (H : preserves (on_world P) (Execute classes fuel stmt)).
  { apply (Execute_preserves classes P (fun _ => True)); try (intros; exact I).
    - intros text w Hw. exact Hw.
    - intros _ field_name _ _ inst obj w Hw. unfold P, set_field in *.
      destruct (heap w !! inst) as [ci|] eqn:Hi; [|exact Hw]. cbn.
      destruct (decide (inst = p)) as [->|Hne].
      + rewrite lookup_insert_eq. rewrite Hi in Hw. exact Hw.
      + rewrite lookup_insert_ne by exact Hne. exact Hw. }
  apply (H s). reflexivity.
Qed.

Lemma append_assoc (a b c : string) : (a +:+ b) +:+ c = a +:+ (b +:+ c).
Proof.
  induction a as [|x a IH]; [reflexivity|].
  change (String.String x ((a +:+ b) +:+ c) = String.String x (a +:+ (b +:+ c))).
  f_equal. exact IH.
Qed.

Lemma append_nil_r (a : string) : a +:+ "" = a.
Proof.
  induction a as [|x a IH]; [reflexivity|].
  change (String.String x (a +:+ "") = String.String x a). f_equal. exact IH.
Qed.

(** X14: executing a statement only appends to the output: what was
    written before is still there, at the start, whatever the outcome. *)
Theorem Execute_output_grows classes fuel stmt s :
  exists text,
    output (snd (snd (Execute classes fuel stmt s))) = output (snd s) +:+ text.
Proof.
  pose (P := fun w : World => exists text, output w = output (snd s) +:+ text).
  assert (H : preserves (on_world P) (Execute classes fuel stmt)).
  { apply (Execute_preserves classes P (fun _ => True)); try (intros; exact I).
    - intros text w [t Hw]. exists (t +:+ text). cbn. rewrite Hw. apply append_assoc.
    - intros _ field_name _ _ inst obj w Hw. unfold P, set_field in *.
      destruct (heap w !! inst) as [ci|]; exact Hw. }
  apply (H s). exists "". symmetry. apply append_nil_r.
Qed.

(** *** Variables and fields *)

(** X15: a [VariableValue] node changes neither the closure nor the world;
    for a single name it yields what the closure binds to the name, and
    raises a runtime error when the closure has no such name. *)
Theorem VariableValue_reads_only classes fuel dotted_ids s :
  snd (Execute classes (S fuel) (VariableValue dotted_ids) s) = s /\
  forall var_name,
    dotted_ids = [var_name] ->
    fst (Execute classes (S fuel) (VariableValue dotted_ids) s) =
    match fst s !! var_name with
    | Some obj => Normal obj
    | None => runtime_error ("No field with name " +:+ quoted var_name)
    end.
Proof.
  rewrite Execute_S. cbn [Execute_node]. split.
  - apply VariableValue_Execute_state.
  - intros var_name ->. destruct s as [closure w]. cbn.
    destruct (closure !! var_name); reflexivity.
Qed.

(** X16: an [Assignment] whose right side returns [obj] binds the name to
    [obj] in the closure that the right side leaves, and returns [obj];
    reading the name afterwards gives [obj]. *)
Theorem Assignment_then_VariableValue classes fuel var_name value s obj closure1 w1 :
  Execute classes fuel value s = (Normal obj, (closure1, w1)) ->
  Execute classes (S fuel) (Assignment var_name value) s
  = (Normal obj, (<[var_name := obj]> closure1, w1)) /\
  forall fuel',
    Execute classes (S fuel') (VariableValue [var_name])
      (<[var_name := obj]> closure1, w1)
    = (Normal obj, (<[var_name := obj]> closure1, w1)).
Proof.
  intros H. split.
  - rewrite Execute_S. cbn [Execute_node]. unfold Assignment_Execute, bind.
    rewrite H. reflexivity.
  - intros fuel'. rewrite Execute_S. cbn [Execute_node VariableValue_Execute].
    rewrite lookup_insert_eq. reflexivity.
Qed.

Lemma Assignment_then_VariableValue_witness :
  Execute samples.classes 3 (Assignment "n" (Add (NumericConst 2) (NumericConst 3)))
    (∅, empty_World)
  = (Normal (Some (Number 5)), (<["n" := Some (Number 5)]> ∅, empty_World)) /\
  forall fuel',
    Execute samples.classes (S fuel') (VariableValue ["n"])
      (<["n" := Some (Number 5)]> ∅, empty_World)
    = (Normal (Some (Number 5)), (<["n" := Some (Number 5)]> ∅, empty_World)).
Proof.
  apply (Assignment_then_VariableValue samples.classes 2 "n"
           (Add (NumericConst 2) (NumericConst 3)) (∅, empty_World)).
  vm_compute. reflexivity.
Defined.

(** X17: a [FieldAssignment] whose target is the instance [p] and whose
    right side returns [obj] stores [obj] in that field of [p], in the
    world that the right side leaves, and returns [obj]; the other fields
    of [p], the other instances, the output and the closure are as the
    right side leaves them, and reading the field afterwards gives
    [obj]. *)
Theorem FieldAssignment_then_read
    classes fuel object field_name field_value s p obj closure1 w1 ci :
  fst (VariableValue_Execute object s) = Normal (Some (InstanceRef p)) ->
  Execute classes fuel field_value s = (Normal obj, (closure1, w1)) ->
  heap w1 !! p = Some ci ->
  let w2 :=
    mkWorld (<[p := mkClassInstance (cls_ ci) (<[field_name := obj]> (fields_ ci))]>
               (heap w1))
            (output w1) in
  Execute classes (S fuel) (FieldAssignment object field_name field_value) s
  = (Normal obj, (closure1, w2)) /\
  VariableValue_fields p [field_name] w2 = (Normal obj, w2).
Proof.
  intros Ht He Hp w2. split.
  - rewrite Execute_S. cbn [Execute_node]. unfold FieldAssignment_Execute.
    unfold bind at 1.
    pose proof (VariableValue_Execute_state object s) as Hs.
    destruct (VariableValue_Execute object s) as [o s0]. cbn in Ht, Hs. subst o s0.
    cbn [TryAs_ClassInstance]. unfold bind. rewrite He.
    cbn [in_world]. unfold set_field. rewrite Hp. reflexivity.
  - cbn [VariableValue_fields]. unfold bind, Fields, w2. cbn [heap].
    rewrite lookup_insert_eq. cbn [fields_]. rewrite lookup_insert_eq. reflexivity.
Qed.

Lemma FieldAssignment_then_read_witness :
  Execute samples.classes 3 (FieldAssignment ["x"] "v" (NumericConst 7))
    (x_is_instance_0, samples.world)
  = (Normal (Some (Number 7)),
     (x_is_instance_0,
      mkWorld (<[0%nat := mkClassInstance 0%nat
                            (<["v" := Some (Number 7)]>
                               (fields_ (ClassInstance_ctor 0%nat 0%nat)))]>
                 (heap samples.world))
              (output samples.world))) /\
  VariableValue_fields 0%nat ["v"]
    (mkWorld (<[0%nat := mkClassInstance 0%nat
                           (<["v" := Some (Number 7)]>
                              (fields_ (ClassInstance_ctor 0%nat 0%nat)))]>
                (heap samples.world))
             (output samples.world))
  = (Normal (Some (Number 7)),
     mkWorld (<[0%nat := mkClassInstance 0%nat
                           (<["v" := Some (Number 7)]>
                              (fields_ (ClassInstance_ctor 0%nat 0%nat)))]>
                (heap samples.world))
             (output samples.world)).
Proof.
  apply (FieldAssignment_then_read samples.classes 2 ["x"] "v" (NumericConst 7)
           (x_is_instance_0, samples.world) 0%nat (Some (Number 7))
           x_is_instance_0 samples.world (ClassInstance_ctor 0%nat 0%nat)).
  - reflexivity.
  - reflexivity.
  - vm_compute. reflexivity.
Defined.

(** *** [Stringify], [Print] and [Compound] *)

(** X18: [str(str(x))] is [str(x)]: the inner node is executed once, with
    its effects, and the outer one returns its string as it is. *)
Theorem Stringify_idempotent classes fuel arg s :
  Execute classes (S (S fuel)) (Stringify (Stringify arg)) s
  = Execute classes (S fuel) (Stringify arg) s.
Proof.
  rewrite (Execute_S classes (S fuel)). cbn [Execute_node].
  unfold Stringify_Execute at 1. unfold bind at 1.
  destruct (Execute classes (S fuel) (Stringify arg) s) as [[v| | | |] s1] eqn:E;
    try reflexivity.
  assert (H : exists text, v = Some (String text)).
  { rewrite Execute_S in E. cbn [Execute_node] in E.
    unfold Stringify_Execute, bind in E.
    destruct (Execute classes fuel arg s) as [[o| | | |] s0]; try discriminate.
    destruct (in_world _ s0) as [[t| | | |] s2]; try discriminate.
    unfold ret in E. injection E as <- <-. eauto. }
  destruct H as [text ->]. destruct s1 as [c1 w1]. reflexivity.
Qed.

Lemma print_holder_plain classes print_instance v w :
  is_plain_value v = true ->
  print_holder classes print_instance v w = (Normal (show v), w).
Proof. destruct v as [[n|t|b|c|p]|]; try discriminate; reflexivity. Qed.

Lemma join_spaces_cons v vs :
  join_spaces (map show (v :: vs))
  = show v +:+ foldr (fun x acc => " " +:+ show x +:+ acc) "" vs.
Proof.
  revert v. induction vs as [|v' vs IH]; intros v.
  - cbn. symmetry. apply append_nil_r.
  - change (join_spaces (map show (v :: v' :: vs)))
      with (show v +:+ " " +:+ join_spaces (map show (v' :: vs))).
    rewrite IH. reflexivity.
Qed.

Lemma Print_loop_plain classes fuel closure args values :
  Forall2 (fun arg v =>
             is_plain_value v = true /\
             forall w, Execute classes fuel arg (closure, w) = (Normal v, (closure, w)))
          args values ->
  forall heap0 output0,
    Print_loop classes (Execute classes fuel) (Print_instance classes fuel) args true
      (closure, mkWorld heap0 output0)
    = (Normal tt,
       (closure,
        mkWorld heap0
          (output0 +:+ foldr (fun x acc => " " +:+ show x +:+ acc) "" values))).
Proof.
  induction 1 as [|arg v args values [Hv Harg] _ IH]; intros heap0 output0.
  - cbn. rewrite append_nil_r. reflexivity.
  - cbn [Print_loop]. unfold bind at 1. cbn [in_world write heap output].
    unfold bind at 1. rewrite Harg.
    unfold bind at 1. cbn [in_world]. rewrite (print_holder_plain _ _ _ _ Hv).
    unfold bind at 1. cbn [in_world write heap output].
    rewrite IH. cbn [foldr]. rewrite !append_assoc. reflexivity.
Qed.

(** X19: when every argument of a [Print] node yields a value that is
    [None], a number, a string or a Boolean, and has no effect of its own,
    the node appends to the output the texts of the values, one space
    between two neighbours and a line feed at the end, and returns
    [None]. *)
Theorem Print_plain_values classes fuel closure args values w :
  Forall2 (fun arg v =>
             is_plain_value v = true /\
             forall w', Execute classes fuel arg (closure, w') = (Normal v, (closure, w')))
          args values ->
  Execute classes (S fuel) (Print args) (closure, w)
  = (Normal None,
     (closure,
      mkWorld (heap w) (output w +:+ join_spaces (map show values) +:+ endl))).
Proof.
  intros H. rewrite Execute_S. cbn [Execute_node]. unfold Print_Execute.
  destruct H as [|arg v args values [Hv Harg] H].
  - reflexivity.
  - unfold bind at 1. cbn [Print_loop]. unfold bind at 1. cbn [in_world ret].
    unfold bind at 1. rewrite Harg.
    unfold bind at 1. cbn [in_world]. rewrite (print_holder_plain _ _ _ _ Hv).
    unfold bind at 1. cbn [in_world write].
    rewrite (Print_loop_plain _ _ _ _ _ H). unfold bind. cbn [in_world write heap output ret].
    rewrite join_spaces_cons. rewrite !append_assoc. reflexivity.
Qed.

Lemma Print_plain_values_witness :
  Execute samples.classes 2
    (Print [NumericConst 3; VariableValue ["x"]; BoolConst true; NoneConst])
    (<["x" := Some (String "abc")]> ∅, empty_World)
  = (Normal None,
     (<["x" := Some (String "abc")]> ∅,
      mkWorld ∅ ("3 abc True None" +:+ endl))).
Proof.
  apply (Print_plain_values samples.classes 1 (<["x" := Some (String "abc")]> ∅)
           [NumericConst 3; VariableValue ["x"]; BoolConst true; NoneConst]
           [Some (Number 3); Some (String "abc"); Some (Bool true); None]
           empty_World).
  repeat constructor.
Defined.

(** X20: a [Compound] of two lists of statements, one after the other,
    runs as the [Compound] of the first list and then, from the state it
    leaves, the [Compound] of the second; when the first does not end
    normally, the second is not run and the outcome is that of the
    first. *)
Theorem Compound_app classes fuel a b s :
  Execute classes (S fuel) (Compound (a ++ b)) s
  = match Execute classes (S fuel) (Compound a) s with
    | (Normal _, s1) => Execute classes (S fuel) (Compound b) s1
    | r => r
    end.
Proof.
  rewrite !Execute_S. cbn [Execute_node]. unfold Compound_Execute, bind.
  rewrite Compound_loop_app.
  destruct (Compound_loop (Execute classes fuel) a s) as [[[]| | | |] s1]; reflexivity.
Qed.

(** *** Calls *)

Lemma Execute_args_length exec args s objs s' :
  Execute_args exec args s = (Normal objs, s') -> length objs = length args.
Proof.
  revert s objs s'. induction args as [|arg args IH]; intros s objs s' H.
  - cbn in H. unfold ret in H. injection H as <- _. reflexivity.
  - cbn [Execute_args] in H. unfold bind in H.
    destruct (exec arg s) as [[v| | | |] s1]; try discriminate.
    destruct (Execute_args exec args s1) as [[vs| | | |] s2] eqn:E; try discriminate.
    unfold ret in H. injection H as <- _. cbn. f_equal. eapply IH. exact E.
Qed.

(** X21: a [MethodCall] on an instance executes its arguments before the
    method is looked up: when the class has no method of that name with
    as many parameters as there are arguments, the runtime error is
    raised in the state that the arguments leave. *)
Theorem MethodCall_no_such_method
    classes fuel object method_name args s p s1 actual_args closure2 w2 c :
  Execute classes fuel object s = (Normal (Some (InstanceRef p)), s1) ->
  Execute_args (Execute classes fuel) args s1 = (Normal actual_args, (closure2, w2)) ->
  class_of classes w2 p = Some c ->
  (forall m, GetMethod c method_name = Some m ->
             length (formal_params m) <> length args) ->
  Execute classes (S fuel) (MethodCall object method_name args) s
  = (runtime_error
       ("No such method " +:+ quoted method_name +:+ " or wrong count of arguments"),
     (closure2, w2)).
Proof.
  intros Hobj Hargs Hc Hm.
  rewrite Execute_S. cbn [Execute_node]. unfold MethodCall_Execute.
  unfold bind at 1. rewrite Hobj. cbn [TryAs_ClassInstance].
  unfold bind at 1. rewrite Hargs. cbn [in_world].
  unfold Call, bind, HasMethod. rewrite Hc.
  rewrite (Execute_args_length _ _ _ _ _ Hargs).
  destruct (GetMethod c method_name) as [m|] eqn:Em; [|reflexivity].
  specialize (Hm m eq_refl). apply Nat.eqb_neq in Hm. rewrite Hm. reflexivity.
Qed.

Lemma MethodCall_no_such_method_witness :
  Execute samples.classes 3
    (MethodCall (VariableValue ["m"]) "make" [Print [StringConst "seen"]])
    (m_is_instance_1, samples.world)
  = (runtime_error
       ("No such method " +:+ quoted "make" +:+ " or wrong count of arguments"),
     (m_is_instance_1, mkWorld (heap samples.world) ("seen" +:+ endl))).
Proof.
  apply (MethodCall_no_such_method samples.classes 2 (VariableValue ["m"]) "make"
           [Print [StringConst "seen"]] (m_is_instance_1, samples.world) 1%nat
           (m_is_instance_1, samples.world) [None] m_is_instance_1
           (mkWorld (heap samples.world) ("seen" +:+ endl)) samples.Maker).
  - reflexivity.
  - reflexivity.
  - vm_compute. reflexivity.
  - intros m H. vm_compute in H. injection H as <-. vm_compute. discriminate.
Defined.

Lemma bind_args_spec formal_params actual_args (base : Closure) :
  bind_args formal_params actual_args base
  = list_to_map (reverse (zip formal_params actual_args)) ∪ base.
Proof.
  revert actual_args base.
  induction formal_params as [|name params IH]; intros [|arg args] base;
    cbn [bind_args zip zip_with reverse]; try (rewrite reverse_nil; cbn;
      symmetry; apply (left_id_L ∅ (∪))).
  rewrite IH, reverse_cons, list_to_map_app. cbn [list_to_map foldr].
  change (list_to_map (reverse (zip params args)) ∪ <[name:=arg]> base =
          list_to_map (reverse (zip params args)) ∪ <[name:=arg]> ∅ ∪ base).
  rewrite <- (assoc_L (∪)). f_equal.
  rewrite insert_union_singleton_l, <- insert_empty. reflexivity.
Qed.

(** X22: a method body runs in a closure of its own, made of the receiver
    and the arguments and of nothing else: the names it binds are [self]
    and the formal parameters; [self] is the receiver unless a parameter
    has that name; and, the parameters being distinct, each one is bound
    to the argument at its position. *)
Theorem Call_scope classes exec inst method actual_args w c m :
  class_of classes w inst = Some c ->
  GetMethod c method = Some m ->
  length (formal_params m) = length actual_args ->
  exists scope : Closure,
    Call classes exec inst method actual_args w = run_body (exec (body m)) scope w /\
    dom scope = {["self"]} ∪ list_to_set (formal_params m) /\
    ("self" ∉ formal_params m -> scope !! "self" = Some (Some (InstanceRef inst))) /\
    (NoDup (formal_params m) ->
     forall i name, formal_params m !! i = Some name ->
                    scope !! name = actual_args !! i).
Proof.
  intros Hc Hm Hlen.
  exists (bind_args (formal_params m) actual_args
            (<["self" := Some (InstanceRef inst)]> ∅)).
  assert (Hfst : (reverse (zip (formal_params m) actual_args)).*1
                 = reverse (formal_params m)).
  { rewrite fmap_reverse, fst_zip by lia. reflexivity. }
  split; [|split; [|split]].
  - unfold Call, bind, HasMethod. rewrite Hc, Hm.
    rewrite Hlen, Nat.eqb_refl. cbn [negb]. rewrite Hc, Hm. reflexivity.
  - rewrite bind_args_spec, dom_union_L, dom_list_to_map_L, Hfst.
    rewrite dom_insert_L, dom_empty_L.
    apply set_eq. intros x. rewrite !elem_of_union, !elem_of_list_to_set, elem_of_reverse.
    rewrite elem_of_singleton, elem_of_empty. tauto.
  - intros Hself. rewrite bind_args_spec. rewrite lookup_union_r.
    + apply lookup_insert_eq.
    + apply not_elem_of_list_to_map_1. rewrite Hfst, elem_of_reverse. exact Hself.
  - intros Hnd i name Hi.
    destruct (lookup_lt_is_Some_2 actual_args i) as [arg Harg].
    { rewrite <- Hlen. eapply lookup_lt_Some. exact Hi. }
    rewrite Harg, bind_args_spec. apply lookup_union_Some_l.
    apply elem_of_list_to_map_1.
    + rewrite Hfst, reverse_Permutation. exact Hnd.
    + rewrite elem_of_reverse. apply (list_elem_of_lookup_2 _ i).
      rewrite lookup_zip_with, Hi, Harg. reflexivity.
Qed.

Lemma Call_scope_witness :
  exists scope : Closure,
    Call setter_classes (Execute setter_classes 3) 0%nat "set"
      [Some (Number 1); Some (Number 2)] samples.world
    = run_body (Execute setter_classes 3 (body sample_method)) scope samples.world /\
    dom scope = {["self"]} ∪ list_to_set (formal_params sample_method) /\
    ("self" ∉ formal_params sample_method ->
     scope !! "self" = Some (Some (InstanceRef 0%nat))) /\
    (NoDup (formal_params sample_method) ->
     forall i name, formal_params sample_method !! i = Some name ->
                    scope !! name = [Some (Number 1); Some (Number 2)] !! i).
Proof.
  apply (Call_scope setter_classes (Execute setter_classes 3) 0%nat "set"
           [Some (Number 1); Some (Number 2)] samples.world
           (mkClass "Setter" [sample_method] None) sample_method).
  - vm_compute. reflexivity.
  - reflexivity.
  - reflexivity.
Defined.

(** *** Equality without instances *)

(** X23: when neither side is a class instance, [Equal] does not depend
    on the order of its operands: both orders give the same Boolean, or
    raise the same error, and leave the world as it was. *)
Theorem Equal_symmetric_without_instances classes exec lhs rhs w :
  TryAs_ClassInstance lhs = None ->
  TryAs_ClassInstance rhs = None ->
  Equal classes exec lhs rhs w = Equal classes exec rhs lhs w /\
  snd (Equal classes exec lhs rhs w) = w.
Proof.
  intros Hl Hr.
  destruct lhs as [[a|a|a|a|a]|], rhs as [[b|b|b|b|b]|];
    try discriminate; cbn; unfold ret; split; try reflexivity.
  - rewrite Z.eqb_sym. reflexivity.
  - rewrite String.eqb_sym. reflexivity.
  - destruct a, b; reflexivity.
Qed.

Lemma Equal_symmetric_without_instances_witness :
  Equal samples.classes (Execute samples.classes 3)
    (Some (Number 2)) (Some (String "2")) empty_World
  = Equal samples.classes (Execute samples.classes 3)
      (Some (String "2")) (Some (Number 2)) empty_World /\
  snd (Equal samples.classes (Execute samples.classes 3)
         (Some (Number 2)) (Some (String "2")) empty_World) = empty_World.
Proof.
  apply (Equal_symmetric_without_instances samples.classes (Execute samples.classes 3)
           (Some (Number 2)) (Some (String "2")) empty_World); reflexivity.
Defined.

End runtime_more.
